(** * hell: a weighted complexity score over a JavaScript syntax tree

    A shallow embedding of [lib/hell/analyzer.js] (the scoring engine) and
    of the [Context] class (the scope record), with the properties stated
    in the specification proved about it.

    - JavaScript values are a small inductive type; syntax-tree nodes are
      plain objects, i.e. ordered association lists of properties.
    - A call that may raise returns a [result]; calls are sequenced with
      [let*].
    - Scope records are mutable objects shared between the analyzer's
      stack, their parent's [children] array and the collector.  They live
      in a store (a list indexed by handle); a handle is the creation
      index of the record.
    - Syntax-tree nodes are shared between the tree and the scope records
      that point at them.  A record holds the {e path} of its node in the
      tree, and reads it in the tree as it is when the method is called. *)

From Stdlib Require Import ZArith Lia DecimalString.
From stdpp Require Import base list strings.

#[local] Set Warnings "-register-all".

Local Open Scope Z_scope.
Local Open Scope string_scope.
Local Open Scope list_scope.

(** ** Values *)

(** Numbers are modelled by integers: every number the analyzer produces
    is a finite sum of the integer weights, far below 2^53.  An object is
    the list of its properties in insertion order; the names of the
    properties of an object are distinct, and a read takes the first
    match. *)
Inductive value : Type :=
| Undefined
| Null
| Bool (b : bool)
| Num (n : Z)
| Str (s : string)
| Arr (elems : list value)
| Obj (props : list (string * value)).

(** Induction over values that reaches array elements and property values. *)
Section value_induction.
Variable P : value -> Prop.
Hypothesis P_undefined : P Undefined.
Hypothesis P_null : P Null.
Hypothesis P_bool : forall b, P (Bool b).
Hypothesis P_num : forall n, P (Num n).
Hypothesis P_str : forall s, P (Str s).
Hypothesis P_arr : forall elems, Forall P elems -> P (Arr elems).
Hypothesis P_obj : forall props, Forall (fun kv => P (snd kv)) props -> P (Obj props).

Fixpoint value_nested_ind (v : value) : P v :=
  match v with
  | Undefined => P_undefined
  | Null => P_null
  | Bool b => P_bool b
  | Num n => P_num n
  | Str s => P_str s
  | Arr elems =>
      P_arr elems
        ((fix go (l : list value) : Forall P l :=
            match l with
            | [] => List.Forall_nil P
            | x :: l' => List.Forall_cons P x l' (value_nested_ind x) (go l')
            end) elems)
  | Obj props =>
      P_obj props
        ((fix go (l : list (string * value)) : Forall (fun kv => P (snd kv)) l :=
            match l with
            | [] => List.Forall_nil _
            | kv :: l' =>
                List.Forall_cons _ kv l' (value_nested_ind (snd kv)) (go l')
            end) props)
  end.
End value_induction.

(** ** Calls that may raise *)

Inductive error : Type :=
| TypeError      (* a property read on [undefined] or [null] *)
| UnknownNode    (* the walk met a node type it has no visitor keys for *)
| OutOfFuel.     (* never produced: see [search_fuel_enough] *)

Inductive result (A : Type) : Type :=
| Ok (a : A)
| Throw (e : error).
Arguments Ok {A} a.
Arguments Throw {A} e.

Definition bind {A B : Type} (r : result A) (k : A -> result B) : result B :=
  match r with
  | Ok a => k a
  | Throw e => Throw e
  end.

Notation "'let*' x ':=' r 'in' k" := (bind r (fun x => k))
  (at level 10, x pattern, r at level 100, k at level 200).

(** ** Property reads and writes *)

Fixpoint lookup_prop (k : string) (props : list (string * value)) : value :=
  match props with
  | [] => Undefined
  | (k', v) :: rest => if String.eqb k k' then v else lookup_prop k rest
  end.

(** [o[k] = v]: overwrite in place, or add the property at the end. *)
Fixpoint assign_prop (k : string) (v : value) (props : list (string * value))
  : list (string * value) :=
  match props with
  | [] => [(k, v)]
  | (k', v') :: rest =>
      if String.eqb k k' then (k', v) :: rest else (k', v') :: assign_prop k v rest
  end.

(** [v.k], for the property names the analyzer reads ([type], [id],
    [name], [left], [object], [property], [value], [operator],
    [alternate], [consequent], [length], [context]): none of them is
    inherited from a prototype, except [length] of arrays and strings. *)
Definition get (v : value) (k : string) : result value :=
  match v with
  | Undefined | Null => Throw TypeError
  | Bool _ | Num _ => Ok Undefined
  | Str s => Ok (if String.eqb k "length" then Num (Z.of_nat (String.length s)) else Undefined)
  | Arr elems => Ok (if String.eqb k "length" then Num (Z.of_nat (length elems)) else Undefined)
  | Obj props => Ok (lookup_prop k props)
  end.

(** [v.k = x] on an object. *)
Definition set (v : value) (k : string) (x : value) : value :=
  match v with
  | Obj props => Obj (assign_prop k x props)
  | _ => v
  end.

(** JavaScript truthiness, as used by [if (x)], [!x] and [a || b]. *)
Definition truthy (v : value) : bool :=
  match v with
  | Undefined | Null => false
  | Bool b => b
  | Num n => negb (n =? 0)%Z
  | Str s => negb (String.eqb s "")
  | Arr _ | Obj _ => true
  end.

(** [v === s] for a string constant [s]. *)
Definition is_str (v : value) (s : string) : bool :=
  match v with
  | Str s' => String.eqb s' s
  | _ => false
  end.

(** [a || b]. *)
Definition or_else (a b : value) : value := if truthy a then a else b.

(** [String(v)] for plain data, and [Array.prototype.join]: [undefined]
    and [null] elements of the array are joined as empty strings.  A
    number prints in decimal, which is how JavaScript prints an integer of
    magnitude below 10^21; larger numbers, fractions, and objects that
    print through a [toString] of their own (a regular expression) are
    outside the model: a statement on a printed value assumes it
    [plain]. *)
Definition string_of_Z (n : Z) : string := NilZero.string_of_int (Z.to_int n).

Fixpoint concat_with (sep : string) (l : list string) : string :=
  match l with
  | [] => ""
  | [s] => s
  | s :: rest => (s ++ sep ++ concat_with sep rest)%string
  end.

Fixpoint to_string (v : value) : string :=
  match v with
  | Undefined => "undefined"
  | Null => "null"
  | Bool true => "true"
  | Bool false => "false"
  | Num n => string_of_Z n
  | Str s => s
  | Arr elems =>
      concat_with ","
        ((fix go (l : list value) : list string :=
            match l with
            | [] => []
            | Undefined :: l' => "" :: go l'
            | Null :: l' => "" :: go l'
            | x :: l' => to_string x :: go l'
            end) elems)
  | Obj _ => "[object Object]"
  end.

Definition join_elem (v : value) : string :=
  match v with
  | Undefined | Null => ""
  | _ => to_string v
  end.

Definition join (sep : string) (l : list value) : string :=
  concat_with sep (map join_elem l).

(** The values [to_string] prints as JavaScript does: strings, booleans
    and the integers that a double holds exactly. *)
Definition plain (v : value) : Prop :=
  match v with
  | Str _ | Bool _ => True
  | Num n => Z.abs n < 2 ^ 53
  | _ => False
  end.

(** ** Node types *)

Module syntax.
(** Modelled from the spec: [lib/hell/syntax.js], the table of node type
    tags, is not among the sources.  The tags are the ones of the fixed
    vocabulary of the parsed-tree provider, spelled as the parser spells
    them. *)
Definition Program := "Program".
Definition FunctionExpression := "FunctionExpression".
Definition FunctionDeclaration := "FunctionDeclaration".
Definition CallExpression := "CallExpression".
Definition IfStatement := "IfStatement".
Definition SwitchCase := "SwitchCase".
Definition LogicalExpression := "LogicalExpression".
Definition CatchClause := "CatchClause".
Definition ConditionalExpression := "ConditionalExpression".
Definition DoWhileStatement := "DoWhileStatement".
Definition ForStatement := "ForStatement".
Definition ForInStatement := "ForInStatement".
Definition WhileStatement := "WhileStatement".
Definition VariableDeclarator := "VariableDeclarator".
Definition AssignmentExpression := "AssignmentExpression".
Definition MemberExpression := "MemberExpression".
End syntax.

(** ** References into the syntax tree *)

(** A step goes to a property, or to an element of an array property. *)
Definition path : Type := list (string * option nat).

Fixpoint deref (tree : value) (p : path) : value :=
  match p with
  | [] => tree
  | (k, i) :: p' =>
      match tree with
      | Obj props =>
          match i, lookup_prop k props with
          | None, v => deref v p'
          | Some i, Arr elems => deref (nth i elems Undefined) p'
          | Some _, _ => Undefined
          end
      | _ => Undefined
      end
  end.

(** The parent handed to the visitor: [null] above the root. *)
Definition deref_parent (tree : value) (pp : option path) : value :=
  match pp with
  | Some p => deref tree p
  | None => Null
  end.

(** Nesting height of a value: a bound on the length of any chain of
    property reads. *)
Fixpoint height (v : value) : nat :=
  match v with
  | Arr elems =>
      S ((fix go (l : list value) : nat :=
            match l with
            | [] => O
            | x :: l' => Nat.max (height x) (go l')
            end) elems)
  | Obj props =>
      S ((fix go (l : list (string * value)) : nat :=
            match l with
            | [] => O
            | (_, x) :: l' => Nat.max (height x) (go l')
            end) props)
  | _ => O
  end.

(** ** Scope records: the [Context] class *)

Module Context.

(** [new Context(node, parentNode, depth)].  [node] and [parent] are
    references to nodes of the tree; [children] holds handles of
    records of the store. *)
Record t : Type := mk {
  node : path;
  parent : option path;
  children : list nat;
  _score : Z;
  _depth : nat
}.

Definition new (node : path) (parentNode : option path) (depth : nat) : t :=
  mk node parentNode [] 0 depth.

Abbreviation store := (list t).

(** [this._score += num]. *)
Definition add_score (num : Z) (c : t) : t :=
  mk (node c) (parent c) (children c) (_score c + num) (_depth c).

(** [this.children.push(child)]. *)
Definition push_child (child : nat) (c : t) : t :=
  mk (node c) (parent c) (children c ++ [child]) (_score c) (_depth c).

(** [r.add(num)] on the record with handle [r]. *)
Definition add (h : store) (r : nat) (num : Z) : store :=
  alter (add_score num) r h.

(** [r.depth()]. *)
Definition depth (h : store) (r : nat) : option nat :=
  _depth <$> h !! r.

(** [r.score()]: map [score] over the children, then reduce with [+]
    from [this._score].  The recursion follows handles, so it is bounded
    by [fuel]; [None] stands for a call that does not return. *)
Fixpoint score_rec (fuel : nat) (h : store) (r : nat) : option Z :=
  match fuel with
  | O => None
  | S fuel' =>
      match h !! r with
      | None => None
      | Some c =>
          match mapM (score_rec fuel' h) (children c) with
          | None => None
          | Some scores => Some (fold_left Z.add scores (_score c))
          end
      end
  end.

Definition score (h : store) (r : nat) : option Z :=
  score_rec (length h) h r.

(** The methods below read the record's node and parent node. *)

(** [root()]. *)
Definition root (node : value) : result bool :=
  let* ty := get node "type" in
  Ok (is_str ty syntax.Program).

(** [location()]. *)
Definition location (node : value) : result value :=
  let* is_root := root node in
  if is_root then Ok (Num 0) else
  let* loc := get node "loc" in
  let* start := get loc "start" in
  get start "line".

(** [main()]. *)
Definition main (node : value) : result value :=
  let* ty := get node "type" in
  if is_str ty syntax.Program then Ok (Str "*") else Ok Undefined.

(** [named()]. *)
Definition named (node : value) : result value :=
  let* id := get node "id" in
  if negb (truthy id) then Ok Undefined else
  let* name := get id "name" in
  if negb (truthy name) then Ok Undefined else
  get id "name".

(** [vardec()]. *)
Definition vardec (parent : value) : result value :=
  let* ty := get parent "type" in
  if negb (is_str ty syntax.VariableDeclarator) then Ok Undefined else
  let* id := get parent "id" in
  get id "name".

(** The inner function [search] of [assignment()], with the array [ret]
    it pushes to passed along. *)
Fixpoint search (fuel : nat) (obj : value) (ret : list value) : result (list value) :=
  match fuel with
  | O => Throw OutOfFuel
  | S fuel' =>
      let* object := get obj "object" in
      let* ty := get object "type" in
      let* ret1 :=
        (if is_str ty syntax.MemberExpression then search fuel' object ret
         else let* name := get object "name" in Ok (ret ++ [name])) in
      let* property := get obj "property" in
      let* name := get property "name" in
      let* segment :=
        (if truthy name then Ok name else
         let* val := get property "value" in
         Ok (or_else val (Str "?"))) in
      Ok (ret1 ++ [segment])
  end.

(** [assignment()]. *)
Definition assignment (parent : value) : result value :=
  let* ty := get parent "type" in
  if negb (is_str ty syntax.AssignmentExpression) then Ok Undefined else
  let* left' := get parent "left" in
  let* name := get left' "name" in
  if truthy name then Ok name else
  let* ret := search (S (height left')) left' [] in
  Ok (Str (join "." ret)).

(** [signature()]: each rule is tried only when the ones before it
    gave a falsy value. *)
Definition signature (node parent : value) : result value :=
  let* m := main node in
  if truthy m then Ok m else
  let* n := named node in
  if truthy n then Ok n else
  let* v := vardec parent in
  if truthy v then Ok v else
  let* a := assignment parent in
  if truthy a then Ok a else
  Ok (Str "anonymous").

(** [r.signature()] for a record of the store, read in [tree]. *)
Definition signature_of (tree : value) (c : t) : result value :=
  signature (deref tree (node c)) (deref_parent tree (parent c)).

(** [r.toJSON()]: the object with the score, the signature and the
    location, computed in this order.  [None] when [score()] does not
    return. *)
Definition toJSON (h : store) (tree : value) (r : nat) : option (result value) :=
  match h !! r with
  | None => None
  | Some c =>
      match score h r with
      | None => None
      | Some s =>
          Some (let* sig := signature_of tree c in
                let* loc := location (deref tree (node c)) in
                Ok (Obj [("score", Num s); ("signature", sig); ("location", loc)]))
      end
  end.

End Context.

(** ** The tree walk *)

Module estraverse.

(** Modelled from the spec: the generic traversal primitive is an
    external library.  It visits every node once in pre-order ([enter])
    and once in post-order ([leave]) and passes each node and its
    immediate syntactic parent to [enter].  The child nodes of a node are
    the values of its visitor keys, a fixed list per node type: a value
    that is a node, or the nodes among the elements of a value that is
    an array.  The table is the library's for these node types. *)
Definition VisitorKeys : list (string * list string) :=
  [ ("AssignmentExpression", ["left"; "right"]);
    ("ArrayExpression", ["elements"]);
    ("BlockStatement", ["body"]);
    ("BinaryExpression", ["left"; "right"]);
    ("BreakStatement", ["label"]);
    ("CallExpression", ["callee"; "arguments"]);
    ("CatchClause", ["param"; "body"]);
    ("ConditionalExpression", ["test"; "consequent"; "alternate"]);
    ("ContinueStatement", ["label"]);
    ("DebuggerStatement", []);
    ("DoWhileStatement", ["body"; "test"]);
    ("EmptyStatement", []);
    ("ExpressionStatement", ["expression"]);
    ("ForStatement", ["init"; "test"; "update"; "body"]);
    ("ForInStatement", ["left"; "right"; "body"]);
    ("FunctionDeclaration", ["id"; "params"; "defaults"; "rest"; "body"]);
    ("FunctionExpression", ["id"; "params"; "defaults"; "rest"; "body"]);
    ("Identifier", []);
    ("IfStatement", ["test"; "consequent"; "alternate"]);
    ("Literal", []);
    ("LabeledStatement", ["label"; "body"]);
    ("LogicalExpression", ["left"; "right"]);
    ("MemberExpression", ["object"; "property"]);
    ("NewExpression", ["callee"; "arguments"]);
    ("ObjectExpression", ["properties"]);
    ("Program", ["body"]);
    ("Property", ["key"; "value"]);
    ("ReturnStatement", ["argument"]);
    ("SequenceExpression", ["expressions"]);
    ("SwitchStatement", ["discriminant"; "cases"]);
    ("SwitchCase", ["test"; "consequent"]);
    ("ThisExpression", []);
    ("ThrowStatement", ["argument"]);
    ("TryStatement", ["block"; "handlers"; "handler"; "guardedHandlers"; "finalizer"]);
    ("UnaryExpression", ["argument"]);
    ("UpdateExpression", ["argument"]);
    ("VariableDeclaration", ["declarations"]);
    ("VariableDeclarator", ["id"; "init"]);
    ("WhileStatement", ["test"; "body"]);
    ("WithStatement", ["object"; "body"]) ].

Fixpoint keys_of (ty : string) (table : list (string * list string))
  : option (list string) :=
  match table with
  | [] => None
  | (ty', keys) :: rest => if String.eqb ty ty' then Some keys else keys_of ty rest
  end.

(** [VisitorKeys[node.type]]: a type outside the table stops the walk. *)
Definition visitor_keys (ty : value) : result (list string) :=
  match ty with
  | Str s =>
      match keys_of s VisitorKeys with
      | Some keys => Ok keys
      | None => Throw UnknownNode
      end
  | _ => Throw UnknownNode
  end.

Definition is_key (k : string) (keys : list string) : bool :=
  existsb (String.eqb k) keys.

(** A node is an object whose [type] is a string. *)
Definition isNode (v : value) : bool :=
  match v with
  | Obj props =>
      match lookup_prop "type" props with
      | Str _ => true
      | _ => false
      end
  | _ => false
  end.

(** [node.k = x] for each write, in order. *)
Definition assign (writes : list (string * value)) (node : value) : value :=
  fold_left (fun n kx => set n (fst kx) (snd kx)) writes node.

Section traverse.
Variable S : Type.

(** The hooks of the visitor.  [enter] receives the reference of the
    node, the reference of its parent and the node; it returns the
    properties it assigned on the node.  The hooks of the analyzer
    assign no visitor key, so the children of a node are the same
    before and after [enter].  [leave] only reads the node. *)
Variable enter : path -> option path -> value -> S -> result (list (string * value) * S).
Variable leave : value -> S -> result S.

(** The children of a node, given the walk [rec] of one child: the
    elements of an array that are nodes, ... *)
Definition walk_elems (rec : path -> option path -> value -> S -> result (value * S))
  (p : path) (k : string) : nat -> list value -> S -> result (list value * S) :=
  fix go (i : nat) (elems : list value) (s : S) {struct elems} :=
    match elems with
    | [] => Ok ([], s)
    | e :: rest =>
        let* (e', s1) :=
          (if isNode e then rec (p ++ [(k, Some i)]) (Some p) e s
           else Ok (e, s)) in
        let* (rest', s2) := go (Datatypes.S i) rest s1 in
        Ok (e' :: rest', s2)
    end.

(** ... the value of one visitor key, ... *)
Definition walk_child (rec : path -> option path -> value -> S -> result (value * S))
  (p : path) (k : string) (v : value) (s : S) : result (value * S) :=
  match v with
  | Arr elems =>
      let* (elems', s1) := walk_elems rec p k O elems s in
      Ok (Arr elems', s1)
  | _ =>
      if isNode v then rec (p ++ [(k, None)]) (Some p) v s
      else Ok (v, s)
  end.

(** ... and the properties of the node that are visitor keys, in the
    order of the properties of the node. *)
Definition walk_props (rec : path -> option path -> value -> S -> result (value * S))
  (keys : list string) (p : path)
  : list (string * value) -> S -> result (list (string * value) * S) :=
  fix go (props : list (string * value)) (s : S) {struct props} :=
    match props with
    | [] => Ok ([], s)
    | (k, v) :: rest =>
        let* (v', s1) :=
          (if is_key k keys then walk_child rec p k v s else Ok (v, s)) in
        let* (rest', s2) := go rest s1 in
        Ok ((k, v') :: rest', s2)
    end.

(** The walk returns the tree as the hooks left it. *)
Fixpoint walk (p : path) (pp : option path) (node : value) (s : S) {struct node}
  : result (value * S) :=
  let* (writes, s1) := enter p pp node s in
  let* ty := get (assign writes node) "type" in
  let* keys := visitor_keys ty in
  let* (node', s2) :=
    match node with
    | Obj props =>
        let* (props', s2) := walk_props walk keys p props s1 in
        Ok (Obj props', s2)
    | _ => Ok (node, s1)
    end in
  let node2 := assign writes node' in
  let* s3 := leave node2 s2 in
  Ok (node2, s3).

(** [traverse(root, {enter, leave})]. *)
Definition traverse (root : value) (s : S) : result (value * S) :=
  walk [] None root s.
End traverse.

End estraverse.

(** ** The scoring engine: the [Analyzer] class *)

Module Analyzer.

(** Modelled from the spec: the source-file abstraction is not among the
    sources.  It exposes the parsed tree ([ast()]) and collects the
    scope records it is given ([add(record)]), in the order of the
    calls. *)
Record SourceFile : Type := mkSourceFile {
  ast : value;
  contexts_of : list nat
}.

Definition SourceFile_add (src : SourceFile) (r : nat) : SourceFile :=
  mkSourceFile (ast src) (contexts_of src ++ [r]).

(** The analyzer, together with the store of the scope records made so
    far.  [source] is unset until [analyze] is called. *)
Record t : Type := mk {
  stack : list nat;
  source : option SourceFile;
  records : Context.store
}.

(** [this.contexts] and [this.score]: assigned by the constructor only. *)
Definition contexts : list string :=
  [syntax.FunctionExpression; syntax.FunctionDeclaration; syntax.Program].

Record weights : Type := mkWeights {
  branch : Z;
  branchEmpty : Z;
  fn : Z;
  call : Z
}.

Definition score : weights := mkWeights 10 1 3 1.

(** [new Analyzer()], in a store [h]. *)
Definition new (h : Context.store) : t := mk [] None h.

(** [this.context()]: the top of the stack, [undefined] when empty. *)
Definition context (a : t) : option nat := last (stack a).

(** [this.add(num)]. *)
Definition add (num : Z) (a : t) : result t :=
  match context a with
  | None => Throw TypeError
  | Some r => Ok (mk (stack a) (source a) (Context.add (records a) r num))
  end.

(** [this.pushContext(node, parentNode)]: the new record gets the next
    free handle. *)
Definition pushContext (node : path) (parentNode : option path) (a : t) : result t :=
  let parent := context a in
  let r := length (records a) in
  let h := records a ++ [Context.new node parentNode (length (stack a))] in
  let h :=
    match parent with
    | Some q => alter (Context.push_child r) q h
    | None => h
    end in
  match source a with
  | None => Throw TypeError
  | Some src => Ok (mk (stack a ++ [r]) (Some (SourceFile_add src r)) h)
  end.

(** [this.popContext()]. *)
Definition popContext (a : t) : t :=
  mk (removelast (stack a)) (source a) (records a).

Definition addBranch (a : t) : result t := add (branch score) a.

Definition addCase (node : value) (a : t) : result t :=
  let* consequent := get node "consequent" in
  let* len := get consequent "length" in
  add (if truthy len then branch score else branchEmpty score) a.

Definition addIf (node : value) (a : t) : result t :=
  let* alternate := get node "alternate" in
  let* a1 := (if truthy alternate then add (branch score) a else Ok a) in
  add (branch score) a1.

Definition addLogical (node : value) (a : t) : result t :=
  let* operator := get node "operator" in
  if is_str operator "||" then add (branch score) a else Ok a.

Definition addCall (a : t) : result t := add (call score) a.

Definition addFn (node : value) (a : t) : result t := add (fn score) a.

(** [this.process(node)]: the [switch] on [node.type]. *)
Definition process (node : value) (a : t) : result t :=
  let* ty := get node "type" in
  if is_str ty syntax.FunctionExpression || is_str ty syntax.FunctionDeclaration
  then addFn node a
  else if is_str ty syntax.CallExpression then addCall a
  else if is_str ty syntax.IfStatement then addIf node a
  else if is_str ty syntax.SwitchCase then addCase node a
  else if is_str ty syntax.LogicalExpression then addLogical node a
  else if is_str ty syntax.CatchClause
       || is_str ty syntax.ConditionalExpression
       || is_str ty syntax.DoWhileStatement
       || is_str ty syntax.ForStatement
       || is_str ty syntax.ForInStatement
       || is_str ty syntax.WhileStatement
  then addBranch a
  else Ok a.

(** [this.contexts.indexOf(node.type) > -1]. *)
Definition is_context (ty : value) : bool := existsb (is_str ty) contexts.

(** The [enter] hook of [traverse]: it assigns [node.context = true] on
    a scope-defining node. *)
Definition enter (p : path) (pp : option path) (node : value) (a : t)
  : result (list (string * value) * t) :=
  let* a1 := process node a in
  let* ty := get node "type" in
  if is_context ty then
    let* a2 := pushContext p pp a1 in
    Ok ([("context", Bool true)], a2)
  else Ok ([], a1).

(** The [leave] hook of [traverse]. *)
Definition leave (node : value) (a : t) : result t :=
  let* marked := get node "context" in
  if truthy marked then Ok (popContext a) else Ok a.

(** [this.traverse(ast)]; the tree is returned as the walk left it. *)
Definition traverse (tree : value) (a : t) : result (value * t) :=
  if negb (truthy tree) then Ok (tree, a)
  else estraverse.traverse t enter leave tree a.

(** [this.analyze(source)]: the tree of [source] is the one walked, so
    the file holds the tree as the walk left it. *)
Definition analyze (src : SourceFile) (a : t) : result t :=
  let a1 := mk [] (Some src) (records a) in
  let* (tree, a2) := traverse (ast src) a1 in
  Ok (mk (stack a2)
         (option_map (fun f => mkSourceFile tree (contexts_of f)) (source a2))
         (records a2)).

End Analyzer.

(** ** Syntax trees of the examples *)

(** Nodes, with the fields the parser gives them. *)
Module esprima.
Definition Identifier (name : string) : value :=
  Obj [("type", Str "Identifier"); ("name", Str name)].
Definition Literal (v : value) : value :=
  Obj [("type", Str "Literal"); ("value", v)].
Definition Program (body : list value) : value :=
  Obj [("type", Str "Program"); ("body", Arr body)].
Definition BlockStatement (body : list value) : value :=
  Obj [("type", Str "BlockStatement"); ("body", Arr body)].
Definition ExpressionStatement (expression : value) : value :=
  Obj [("type", Str "ExpressionStatement"); ("expression", expression)].
Definition ReturnStatement (argument : value) : value :=
  Obj [("type", Str "ReturnStatement"); ("argument", argument)].
Definition CallExpression (callee : value) (arguments : list value) : value :=
  Obj [("type", Str "CallExpression"); ("callee", callee); ("arguments", Arr arguments)].
Definition IfStatement (test consequent alternate : value) : value :=
  Obj [("type", Str "IfStatement"); ("test", test);
       ("consequent", consequent); ("alternate", alternate)].
Definition SwitchCase (test : value) (consequent : list value) : value :=
  Obj [("type", Str "SwitchCase"); ("test", test); ("consequent", Arr consequent)].
Definition LogicalExpression (operator : string) (l r : value) : value :=
  Obj [("type", Str "LogicalExpression"); ("operator", Str operator);
       ("left", l); ("right", r)].
Definition MemberExpression (computed : bool) (object property : value) : value :=
  Obj [("type", Str "MemberExpression"); ("computed", Bool computed);
       ("object", object); ("property", property)].
Definition AssignmentExpression (l r : value) : value :=
  Obj [("type", Str "AssignmentExpression"); ("operator", Str "=");
       ("left", l); ("right", r)].
Definition VariableDeclarator (id init : value) : value :=
  Obj [("type", Str "VariableDeclarator"); ("id", id); ("init", init)].
Definition VariableDeclaration (declarations : list value) : value :=
  Obj [("type", Str "VariableDeclaration"); ("declarations", Arr declarations);
       ("kind", Str "var")].
Definition Function (ty : string) (id : value) (body : list value) : value :=
  Obj [("type", Str ty); ("id", id); ("params", Arr []); ("defaults", Arr []);
       ("body", BlockStatement body); ("rest", Null);
       ("generator", Bool false); ("expression", Bool false)].
Definition FunctionDeclaration (name : string) (body : list value) : value :=
  Function "FunctionDeclaration" (Identifier name) body.
Definition FunctionExpression (id : value) (body : list value) : value :=
  Function "FunctionExpression" id body.
End esprima.

Module Examples.
Import esprima.

(** [function foo() { if (a) { bar(); } else { baz(); } }] *)
Definition foo_tree : value :=
  Program
    [FunctionDeclaration "foo"
       [IfStatement (Identifier "a")
          (BlockStatement [ExpressionStatement (CallExpression (Identifier "bar") [])])
          (BlockStatement [ExpressionStatement (CallExpression (Identifier "baz") [])])]].

(** [var x = function() { return a || b; }] *)
Definition var_tree : value :=
  Program
    [VariableDeclaration
       [VariableDeclarator (Identifier "x")
          (FunctionExpression Null
             [ReturnStatement
                (LogicalExpression "||" (Identifier "a") (Identifier "b"))])]].

(** [a.b.c = function() {}] *)
Definition abc_target : value :=
  MemberExpression false
    (MemberExpression false (Identifier "a") (Identifier "b"))
    (Identifier "c").
Definition abc_assignment : value :=
  AssignmentExpression abc_target (FunctionExpression Null []).
Definition abc_tree : value :=
  Program [ExpressionStatement abc_assignment].

(** [x = function foo() {}] *)
Definition named_assignment : value :=
  AssignmentExpression (Identifier "x") (FunctionExpression (Identifier "foo") []).

(** [a[0] = function() {}] *)
Definition index_target : value :=
  MemberExpression true (Identifier "a") (Literal (Num 0)).
Definition index_assignment : value :=
  AssignmentExpression index_target (FunctionExpression Null []).
Definition index_tree : value :=
  Program [ExpressionStatement index_assignment].

(** A first run of a fresh analyzer on a file. *)
Definition run (tree : value) : result Analyzer.t :=
  Analyzer.analyze (Analyzer.mkSourceFile tree []) (Analyzer.new []).

(** The records after a run, and the tree of the file. *)
Definition records_of (r : result Analyzer.t) : Context.store :=
  match r with
  | Ok a => Analyzer.records a
  | Throw _ => []
  end.

Definition tree_of (r : result Analyzer.t) : value :=
  match r with
  | Ok (Analyzer.mk _ (Some f) _) => Analyzer.ast f
  | _ => Undefined
  end.

(** An analyzer in the middle of a run: the record of the program is
    the active one. *)
Definition active : Analyzer.t :=
  Analyzer.mk [O] (Some (Analyzer.mkSourceFile (Program []) [O]))
    [Context.new [] None O].

(** [r.signature()] of the records after a run. *)
Definition signatures (r : result Analyzer.t) : list (result value) :=
  map (Context.signature_of (tree_of r)) (records_of r).
End Examples.

(** ** Predicates on stores *)

(** The children of a record were made after it: the store a run builds
    has no cycle. *)
Definition wf_store (h : Context.store) : Prop :=
  forall r c, h !! r = Some c ->
    Forall (fun q => (r < q < length h)%nat) (Context.children c).

(** Sum of a list of scores. *)
Definition sum (l : list Z) : Z := foldr Z.add 0 l.

(** Every record on the stack is in the store, and the i-th record from
    the bottom of the stack has depth i. *)
Definition stack_ok (a : Analyzer.t) : Prop :=
  forall i r, Analyzer.stack a !! i = Some r ->
    exists c, Analyzer.records a !! r = Some c /\ Context._depth c = i.

(** A child is one level below its parent record. *)
Definition depth_ok (h : Context.store) : Prop :=
  forall p cp q, h !! p = Some cp -> q ∈ Context.children cp ->
    exists cq, h !! q = Some cq /\ Context._depth cq = S (Context._depth cp).

(** The records of [h] are still in [h'], at the depth they had. *)
Definition depth_stable (h h' : Context.store) : Prop :=
  forall r c, h !! r = Some c ->
    exists c', h' !! r = Some c' /\ Context._depth c' = Context._depth c.

(** The first record made since the store had [n0] records was made with
    an empty stack, at depth 0. *)
Definition root_ok (n0 : nat) (a : Analyzer.t) : Prop :=
  (n0 <= length (Analyzer.records a))%nat /\
  (length (Analyzer.records a) = n0 -> Analyzer.stack a = []) /\
  (forall c, Analyzer.records a !! n0 = Some c -> Context._depth c = O).

(** What every step of a run keeps, from a store [h0] of [n0] records. *)
Definition run_inv (n0 : nat) (h0 : Context.store) (a : Analyzer.t) : Prop :=
  stack_ok a /\ depth_ok (Analyzer.records a) /\ wf_store (Analyzer.records a) /\
  root_ok n0 a /\ depth_stable h0 (Analyzer.records a).

(** ** What a visit adds to the active record *)

(** [a'] is [a] with [num] added to the local score of the record on top
    of the stack, and nothing else changed. *)
Definition scored (num : Z) (a a' : Analyzer.t) : Prop :=
  Analyzer.stack a' = Analyzer.stack a /\
  Analyzer.source a' = Analyzer.source a /\
  exists r c,
    Analyzer.context a = Some r /\
    Analyzer.records a !! r = Some c /\
    Analyzer.records a' =
      <[r := Context.mk (Context.node c) (Context.parent c) (Context.children c)
               (Context._score c + num) (Context._depth c)]> (Analyzer.records a).

(** ** The marks a run leaves on the tree *)

(** Written from the words of the specification: [context] is set to [true] on
    every scope-defining node the walk visits, and nothing else is
    written. *)
Definition mark_child (rec : value -> value) (v : value) : value :=
  match v with
  | Arr elems => Arr (map (fun e => if estraverse.isNode e then rec e else e) elems)
  | _ => if estraverse.isNode v then rec v else v
  end.

Definition mark_props (rec : value -> value) (keys : list string)
  (props : list (string * value)) : list (string * value) :=
  map (fun '(k, v) => if estraverse.is_key k keys then (k, mark_child rec v) else (k, v))
      props.

Fixpoint mark (node : value) : value :=
  match node with
  | Obj props =>
      let ty := lookup_prop "type" props in
      let props' :=
        match estraverse.visitor_keys ty with
        | Ok keys => mark_props mark keys props
        | Throw _ => props
        end in
      if Analyzer.is_context ty
      then Obj (assign_prop "context" (Bool true) props')
      else Obj props'
  | _ => node
  end.

(** [visits tree p]: the walk from [tree] visits the node at [p].  The
    root is visited; below a visited node, the walk goes to the value of
    a visitor key when it is a node, and to the elements of an array value
    that are nodes. *)
Fixpoint visits (tree : value) (p : path) : bool :=
  match p with
  | [] => true
  | (k, i) :: p' =>
      match tree with
      | Obj props =>
          match estraverse.visitor_keys (lookup_prop "type" props) with
          | Ok keys =>
              let child := deref tree [(k, i)] in
              estraverse.is_key k keys && estraverse.isNode child && visits child p'
          | Throw _ => false
          end
      | _ => false
      end
  end.

(** ** Member-access chains *)

(** Written from the words of the specification.  [member_chain v o [p1; ...; pn]]:
    [v] is the member expression [o.p1. ... .pn], where [o] is not itself
    a member expression; the [pi] are the property nodes, left to right. *)
Definition present (v : value) : Prop := v <> Undefined /\ v <> Null.

Inductive member_chain : value -> value -> list value -> Prop :=
| chain_last (v o p ty : value) :
    get v "type" = Ok (Str syntax.MemberExpression) ->
    get v "object" = Ok o ->
    get o "type" = Ok ty ->
    is_str ty syntax.MemberExpression = false ->
    get v "property" = Ok p ->
    present p ->
    member_chain v o [p]
| chain_dot (v v' o p : value) (ps : list value) :
    get v "type" = Ok (Str syntax.MemberExpression) ->
    get v "object" = Ok v' ->
    member_chain v' o ps ->
    get v "property" = Ok p ->
    present p ->
    member_chain v o (ps ++ [p]).

(** [v.k], [undefined] where the read would raise. *)
Definition field (v : value) (k : string) : value :=
  match get v k with
  | Ok x => x
  | Throw _ => Undefined
  end.

(** The segment of a property node: its name, or its literal value, or
    ['?'], the first of them that is truthy. *)
Definition segment (p : value) : value :=
  or_else (field p "name") (or_else (field p "value") (Str "?")).

(** The dotted path of [o.p1. ... .pn]. *)
Definition dotted_path (o : value) (ps : list value) : string :=
  join "." (field o "name" :: map segment ps).

(** [v] is neither [undefined] nor [null]. *)
Definition presentb (v : value) : bool :=
  match v with
  | Undefined | Null => false
  | _ => true
  end.

(** Written from the words of the specification: a segment contributes
    its property name, or its literal value, or ['?'] if neither is
    resolvable; the path joins the leftmost name and the segments with
    ['.'].  A name or a value is resolvable when the property has one. *)
Definition spec_segment (p : value) : value :=
  if presentb (field p "name") then field p "name"
  else if presentb (field p "value") then field p "value"
  else Str "?".

Definition spec_dotted_path (o : value) (ps : list value) : string :=
  join "." (field o "name" :: map spec_segment ps).

(** The properties on which the code resolves the segment as the
    specification words it: an identifier, a literal whose value is
    truthy, or a property with neither a name nor a value (a computed
    expression). *)
Definition resolved (p : value) : Prop :=
  (truthy (field p "name") = true /\ plain (field p "name")) \/
  (field p "name" = Undefined /\
   truthy (field p "value") = true /\ plain (field p "value")) \/
  (field p "name" = Undefined /\ field p "value" = Undefined).

(** The parents on which [vardec()] and [assignment()] read no property
    of [undefined] or [null]. *)
Definition declarator_ok (parent : value) : Prop :=
  get parent "type" = Ok (Str syntax.VariableDeclarator) ->
  present (field parent "id").

Definition assignment_ok (parent : value) : Prop :=
  get parent "type" = Ok (Str syntax.AssignmentExpression) ->
  present (field parent "left") /\
  (truthy (field (field parent "left") "name") = true \/
   exists o ps, member_chain (field parent "left") o ps).

(** ** Trees a run walks to the end *)

Definition child_ok (rec : value -> bool) (v : value) : bool :=
  match v with
  | Arr elems => forallb (fun e => negb (estraverse.isNode e) || rec e) elems
  | _ => negb (estraverse.isNode v) || rec v
  end.

(** Every node the walk reaches has a type of the table of visitor keys; a
    switch case has its list of statements; and no node other than a
    scope-defining one comes with a truthy [context] property. *)
Fixpoint well_formed (v : value) : bool :=
  match v with
  | Obj props =>
      let ty := lookup_prop "type" props in
      match estraverse.visitor_keys ty with
      | Ok keys =>
          (Analyzer.is_context ty || negb (truthy (lookup_prop "context" props)))
          && (negb (is_str ty syntax.SwitchCase)
              || presentb (lookup_prop "consequent" props))
          && forallb (fun '(k, v) =>
                        negb (estraverse.is_key k keys) || child_ok well_formed v)
                     props
      | Throw _ => false
      end
  | _ => false
  end.

(** ** The weight of a node *)

(** The table of scoring rules, read as a function of the node: what a
    visit of the node adds to the active scope. *)
Definition node_weight (node : value) : Z :=
  let ty := field node "type" in
  if is_str ty syntax.FunctionExpression || is_str ty syntax.FunctionDeclaration then 3
  else if is_str ty syntax.CallExpression then 1
  else if is_str ty syntax.IfStatement then
    (if truthy (field node "alternate") then 20 else 10)
  else if is_str ty syntax.SwitchCase then
    (if truthy (field (field node "consequent") "length") then 10 else 1)
  else if is_str ty syntax.LogicalExpression then
    (if is_str (field node "operator") "||" then 10 else 0)
  else if is_str ty syntax.CatchClause
       || is_str ty syntax.ConditionalExpression
       || is_str ty syntax.DoWhileStatement
       || is_str ty syntax.ForStatement
       || is_str ty syntax.ForInStatement
       || is_str ty syntax.WhileStatement
  then 10
  else 0.

(** ** Sums over the nodes of a tree *)

(** [tree_sum f node]: the sum of [f] over the nodes the walk visits from
    [node], children being found as the walk finds them. *)
Definition tree_sum_child (rec : value -> Z) (v : value) : Z :=
  match v with
  | Arr elems => sum (map (fun e => if estraverse.isNode e then rec e else 0) elems)
  | _ => if estraverse.isNode v then rec v else 0
  end.

Definition tree_sum_props (rec : value -> Z) (keys : list string)
  (props : list (string * value)) : Z :=
  sum (map (fun '(k, v) => if estraverse.is_key k keys then tree_sum_child rec v else 0)
           props).

Fixpoint tree_sum (f : value -> Z) (node : value) : Z :=
  f node +
  match node with
  | Obj props =>
      match estraverse.visitor_keys (lookup_prop "type" props) with
      | Ok keys => tree_sum_props (tree_sum f) keys props
      | Throw _ => 0
      end
  | _ => 0
  end.


(** The sum of the local scores of the records of a store. *)
Definition total (h : Context.store) : Z := sum (map Context._score h).

(** ** Stores that only grow *)

(** Every record of [h] is in [h'] with the same node, parent and depth,
    with the children it had as first children, and with a local score at
    least as large. *)
Definition grows (h h' : Context.store) : Prop :=
  forall r c, h !! r = Some c ->
    exists c', h' !! r = Some c' /\
      Context.node c' = Context.node c /\
      Context.parent c' = Context.parent c /\
      Context._depth c' = Context._depth c /\
      Context.children c `prefix_of` Context.children c' /\
      Context._score c <= Context._score c'.

(** ** Records in pre-order *)

(** [range_total h b e]: the sum of the local scores of the records of
    [h] with a handle from [b] to [e - 1]. *)
Definition range_total (h : Context.store) (b e : nat) : Z :=
  total (take (e - b) (drop b h)).

(** [closed h r e]: the records below record [r], at any depth, are the
    records with a handle from [r + 1] to [e - 1], each child being
    followed by the records below it.  [tiles h b qs e]: the records [qs]
    with the records below them are the records from [b] to [e - 1]. *)
Inductive closed (h : Context.store) : nat -> nat -> Prop :=
| closed_intro (r e : nat) (c : Context.t) :
    h !! r = Some c -> tiles h (S r) (Context.children c) e -> closed h r e
with tiles (h : Context.store) : nat -> list nat -> nat -> Prop :=
| tiles_nil (b : nat) : tiles h b [] b
| tiles_cons (b m e : nat) (qs : list nat) :
    closed h b m -> tiles h m qs e -> tiles h b (b :: qs) e.

Scheme closed_mut := Minimality for closed Sort Prop
  with tiles_mut := Minimality for tiles Sort Prop.
Combined Scheme closed_tiles_ind from closed_mut, tiles_mut.

(** [rolled w a a']: between [a] and [a'] the stack is the same, the
    active record got new children, the new records are these children
    with the records below them, the weight [w] went to the active record
    and to the new records, and no other record changed. *)
Definition rolled (w : Z) (a a' : Analyzer.t) : Prop :=
  Analyzer.stack a' = Analyzer.stack a /\
  is_Some (Analyzer.source a') /\
  exists t c c' qs,
    last (Analyzer.stack a) = Some t /\
    Analyzer.records a !! t = Some c /\
    Analyzer.records a' !! t = Some c' /\
    Context.children c' = Context.children c ++ qs /\
    tiles (Analyzer.records a') (length (Analyzer.records a)) qs
          (length (Analyzer.records a')) /\
    Context._score c' +
      range_total (Analyzer.records a') (length (Analyzer.records a))
                  (length (Analyzer.records a'))
    = Context._score c + w /\
    (forall q, (q < length (Analyzer.records a))%nat -> q <> t ->
       Analyzer.records a' !! q = Analyzer.records a !! q).

(** * Properties *)

Lemma bind_Ok {A B} (r : result A) (k : A -> result B) (b : B) :
  bind r k = Ok b -> exists a, r = Ok a /\ k a = Ok b.
Proof. destruct r as [a|e]; simpl; [eauto | discriminate]. Qed.

(** ** The score of a record *)

Section score.
Import Context.

Lemma fold_left_add (l : list Z) (z : Z) : fold_left Z.add l z = z + sum l.
Proof.
  revert z. induction l as [|x l IH]; intros z; simpl.
  - lia.
  - rewrite IH. unfold sum. simpl. lia.
Qed.

(** More fuel does not change a score. *)
Lemma score_rec_mono (h : store) (fuel : nat) :
  forall r v fuel', score_rec fuel h r = Some v -> (fuel <= fuel')%nat ->
    score_rec fuel' h r = Some v.
Proof.
  induction fuel as [|fuel IH]; intros r v fuel' Hs Hle; [discriminate|].
  destruct fuel' as [|fuel']; [lia|].
  cbn [score_rec] in *. destruct (h !! r) as [c|]; [|discriminate].
  destruct (mapM (score_rec fuel h) (children c)) as [scores|] eqn:Hm; [|discriminate].
  apply mapM_Some_1 in Hm.
  assert (Hm' : mapM (score_rec fuel' h) (children c) = Some scores).
  { apply mapM_Some_2. eapply Forall2_impl; [exact Hm|].
    intros q w Hq. apply IH; [exact Hq | lia]. }
  rewrite Hm'. exact Hs.
Qed.

(** In a store without cycles the fuel [length h - r] is enough for
    [r.score()] to return. *)
Lemma score_rec_enough (h : store) (Hwf : wf_store h) (fuel : nat) :
  forall r, (r < length h)%nat -> (length h <= r + fuel)%nat ->
    is_Some (score_rec fuel h r).
Proof.
  induction fuel as [|fuel IH]; intros r Hr Hf; [lia|].
  cbn [score_rec]. destruct (lookup_lt_is_Some_2 h r Hr) as [c Hc]. rewrite Hc.
  assert (Hm : is_Some (mapM (score_rec fuel h) (children c))).
  { apply mapM_is_Some_2. eapply Forall_impl; [exact (Hwf r c Hc)|].
    intros q [Hq1 Hq2]. simpl. apply IH; lia. }
  destruct Hm as [scores Hm]. rewrite Hm. eauto.
Qed.

Lemma score_is_Some (h : store) (Hwf : wf_store h) (r : nat) :
  (r < length h)%nat -> is_Some (score h r).
Proof. intros Hr. apply score_rec_enough; [exact Hwf | exact Hr | lia]. Qed.

(** The defining equation of [score()]. *)
Lemma score_unfold (h : store) (Hwf : wf_store h) (r : nat) (c : t) :
  h !! r = Some c ->
  exists scores,
    mapM (score h) (children c) = Some scores /\
    score h r = Some (_score c + sum scores).
Proof.
  intros Hc.
  assert (Hr : (r < length h)%nat) by (eapply lookup_lt_Some; exact Hc).
  assert (Hm : is_Some (mapM (score h) (children c))).
  { apply mapM_is_Some_2. eapply Forall_impl; [exact (Hwf r c Hc)|].
    intros q [Hq1 Hq2]. simpl. apply score_is_Some; [exact Hwf | lia]. }
  destruct Hm as [scores Hm]. exists scores. split; [exact Hm|].
  unfold score in *. destruct (length h) as [|n] eqn:Hn; [lia|].
  cbn [score_rec]. rewrite Hc.
  assert (Hm' : mapM (score_rec n h) (children c) = Some scores).
  { apply mapM_Some_2. apply mapM_Some_1 in Hm.
    pose proof (Hwf r c Hc) as Hch.
    revert Hch. induction Hm as [|q w qs ws Hq Hqs IH]; intros Hch; [constructor|].
    inversion Hch as [|? ? [Hq1 Hq2] Hch']; subst. constructor; [|auto].
    destruct (score_rec_enough h Hwf n q) as [w' Hw']; [lia | lia |].
    rewrite Hw'. rewrite (score_rec_mono h n q w' (S n) Hw') in Hq by lia.
    exact Hq. }
  rewrite Hm'. rewrite fold_left_add. reflexivity.
Qed.

(** [add] keeps a store free of cycles: it touches no [children]. *)
Lemma wf_store_add (h : store) (q : nat) (num : Z) :
  wf_store h -> wf_store (add h q num).
Proof.
  intros Hwf r c. unfold add. rewrite length_alter.
  rewrite list_lookup_alter. destruct (decide (q = r)) as [->|Hne].
  - destruct (h !! r) as [c0|] eqn:Hc0; simpl; [|discriminate].
    intros [= <-]. simpl. exact (Hwf r c0 Hc0).
  - apply Hwf.
Qed.
End score.

(** ** The walk keeps what its hooks keep *)

Ltac inv_ok :=
  repeat match goal with
  | H : bind _ _ = Ok _ |- _ =>
      let x := fresh "x" in
      let E := fresh "E" in
      apply bind_Ok in H; destruct H as (x & E & H); cbv beta in H
  | H : (let (_, _) := ?x in _) = Ok _ |- _ => destruct x
  | H : Ok _ = Ok _ |- _ => injection H as H; subst
  | H : Throw _ = Ok _ |- _ => discriminate H
  end.

Section walk_preserves.
Import estraverse.
Variable S : Type.
Variable enter : path -> option path -> value -> S -> result (list (string * value) * S).
Variable leave : value -> S -> result S.
Variable P : S -> Prop.
Hypothesis enter_P : forall p pp n s w s', P s -> enter p pp n s = Ok (w, s') -> P s'.
Hypothesis leave_P : forall n s s', P s -> leave n s = Ok s' -> P s'.

Local Abbreviation walk := (estraverse.walk S enter leave).
Local Abbreviation keeps v :=
  (forall p pp s r s', P s -> walk p pp v s = Ok (r, s') -> P s').
Local Abbreviation child_keeps v :=
  (forall p k s r s', P s -> walk_child S walk p k v s = Ok (r, s') -> P s').

Lemma walk_unfold p pp node s :
  walk p pp node s =
  let* (writes, s1) := enter p pp node s in
  let* ty := get (assign writes node) "type" in
  let* keys := visitor_keys ty in
  let* (node', s2) :=
    match node with
    | Obj props =>
        let* (props', s2) := walk_props S walk keys p props s1 in
        Ok (Obj props', s2)
    | _ => Ok (node, s1)
    end in
  let* s3 := leave (assign writes node') s2 in
  Ok (assign writes node', s3).
Proof. destruct node; reflexivity. Qed.

Lemma walk_elems_keeps elems :
  Forall (fun v => keeps v) elems ->
  forall p k i s r s', P s -> walk_elems S walk p k i elems s = Ok (r, s') -> P s'.
Proof.
  induction 1 as [|e elems He _ IH]; intros p k i s r s' Hs Hw; simpl in Hw.
  - inv_ok. exact Hs.
  - inv_ok. eapply IH; [|eassumption].
    destruct (isNode e); [eapply He; eassumption | inv_ok; exact Hs].
Qed.

Lemma walk_props_keeps props :
  Forall (fun kv => child_keeps (snd kv)) props ->
  forall keys p s r s', P s -> walk_props S walk keys p props s = Ok (r, s') -> P s'.
Proof.
  induction 1 as [|[k v] props Hv _ IH]; intros keys p s r s' Hs Hw; simpl in Hw.
  - inv_ok. exact Hs.
  - inv_ok. eapply IH; [|eassumption].
    destruct (is_key k keys); [eapply Hv; eassumption | inv_ok; exact Hs].
Qed.

Lemma walk_keeps_both (v : value) : (keeps v) /\ (child_keeps v).
Proof.
  induction v as [| | b | n | str | elems IH | props IH] using value_nested_ind.
  1-5: split;
    [ intros p pp s r s' Hs Hw; rewrite walk_unfold in Hw; inv_ok; eauto
    | intros p k s r s' Hs Hw; simpl in Hw; inv_ok; exact Hs ].
  - split.
    + intros p pp s r s' Hs Hw. rewrite walk_unfold in Hw. inv_ok. eauto.
    + intros p k s r s' Hs Hw. simpl in Hw. inv_ok.
      eapply walk_elems_keeps; [|exact Hs|eassumption].
      eapply Forall_impl; [exact IH|]. intros e [He _]. exact He.
  - assert (Hk : keeps (Obj props)).
    { intros p pp s r s' Hs Hw. rewrite walk_unfold in Hw. inv_ok.
      eapply leave_P; [|eassumption].
      eapply walk_props_keeps; [| |eassumption].
      - eapply Forall_impl; [exact IH|]. intros kv [_ Hc]. exact Hc.
      - eapply enter_P; eassumption. }
    split; [exact Hk|].
    intros p k s r s' Hs Hw. unfold walk_child in Hw.
    destruct (isNode (Obj props)); [eapply Hk; eassumption | inv_ok; exact Hs].
Qed.

(** A property of the state that [enter] and [leave] keep holds after
    the walk. *)
Lemma walk_keeps node p pp s r s' :
  P s -> walk p pp node s = Ok (r, s') -> P s'.
Proof. apply walk_keeps_both. Qed.
End walk_preserves.

(** ** What a run keeps *)

Section run_invariant.
Import Analyzer.
Variable n0 : nat.
Variable h0 : Context.store.

Lemma removelast_lookup {A} (l : list A) (i : nat) (x : A) :
  removelast l !! i = Some x -> l !! i = Some x.
Proof.
  rewrite removelast_firstn_len. intros H.
  apply lookup_take_Some in H. tauto.
Qed.

(** [add] changes a local score only. *)
Lemma add_score_lookup (h : Context.store) (q : nat) (num : Z) (i : nat) :
  Context.add h q num !! i = None /\ h !! i = None \/
  exists c c', h !! i = Some c /\ Context.add h q num !! i = Some c' /\
    Context.children c' = Context.children c /\
    Context._depth c' = Context._depth c.
Proof.
  unfold Context.add. rewrite list_lookup_alter.
  destruct (decide (q = i)) as [->|Hne]; destruct (h !! i) as [c|] eqn:Hc; simpl.
  - right. exists c. eexists. repeat split; reflexivity.
  - left. split; reflexivity.
  - right. exists c. eexists. repeat split; reflexivity.
  - left. split; reflexivity.
Qed.

Lemma add_keeps (num : Z) (a a' : t) :
  run_inv n0 h0 a -> add num a = Ok a' -> run_inv n0 h0 a'.
Proof.
  intros (Hst & Hd & Hwf & (Hr1 & Hr2 & Hr3) & Hs) Ha. unfold add in Ha.
  destruct (context a) as [q|]; [|discriminate]. injection Ha as <-.
  pose proof (add_score_lookup (records a) q num) as L.
  repeat split; simpl.
  - intros i r Hi. destruct (Hst i r Hi) as (c & Hc & Hdc).
    destruct (L r) as [[_ HN]|(c1 & c2 & H1 & H2 & _ & H4)]; [congruence|].
    exists c2. split; [exact H2|]. congruence.
  - intros p cp x Hp Hx.
    destruct (L p) as [[HN _]|(c1 & c2 & H1 & H2 & H3 & H4)]; [congruence|].
    assert (cp = c2) by congruence. subst cp. rewrite H3 in Hx.
    destruct (Hd p c1 x H1 Hx) as (cx & Hcx & Hdx).
    destruct (L x) as [[_ HN]|(d1 & d2 & G1 & G2 & _ & G4)]; [congruence|].
    exists d2. split; [exact G2|]. congruence.
  - apply wf_store_add. exact Hwf.
  - unfold Context.add. rewrite length_alter. exact Hr1.
  - unfold Context.add. rewrite length_alter. exact Hr2.
  - intros c Hc.
    destruct (L n0) as [[HN _]|(c1 & c2 & H1 & H2 & _ & H4)]; [congruence|].
    assert (c = c2) by congruence. subst c. rewrite H4. apply Hr3. exact H1.
  - intros r c Hc. destruct (Hs r c Hc) as (c' & Hc' & Hdc).
    destruct (L r) as [[_ HN]|(c1 & c2 & H1 & H2 & _ & H4)]; [congruence|].
    exists c2. split; [exact H2|]. congruence.
Qed.

Lemma popContext_keeps (a : t) : run_inv n0 h0 a -> run_inv n0 h0 (popContext a).
Proof.
  intros (Hst & Hd & Hwf & (Hr1 & Hr2 & Hr3) & Hs).
  repeat split; simpl; try assumption.
  - intros i r Hi. apply removelast_lookup in Hi. exact (Hst i r Hi).
  - intros Hn. rewrite (Hr2 Hn). reflexivity.
Qed.

(** The store after [pushContext]. *)
Local Abbreviation pushed a p pp :=
  (match context a with
   | Some q =>
       alter (Context.push_child (length (records a))) q
         (records a ++ [Context.new p pp (length (stack a))])
   | None => records a ++ [Context.new p pp (length (stack a))]
   end).

Lemma pushContext_Ok (p : path) (pp : option path) (a a' : t) :
  pushContext p pp a = Ok a' ->
  exists src, source a = Some src /\
    a' = mk (stack a ++ [length (records a)])
            (Some (SourceFile_add src (length (records a)))) (pushed a p pp).
Proof.
  unfold pushContext. destruct (source a) as [src|]; [|discriminate].
  intros [= <-]. exists src. split; reflexivity.
Qed.

Lemma pushed_length (p : path) (pp : option path) (a : t) :
  length (pushed a p pp) = S (length (records a)).
Proof.
  destruct (context a); rewrite ?length_alter, length_app; simpl; lia.
Qed.

Lemma pushed_old (p : path) (pp : option path) (a : t) (i : nat) (c : Context.t) :
  records a !! i = Some c ->
  exists c', pushed a p pp !! i = Some c' /\
    Context._depth c' = Context._depth c /\
    (Context.children c' = Context.children c \/
     context a = Some i /\
     Context.children c' = Context.children c ++ [length (records a)]).
Proof.
  intros Hc.
  assert (H1 : (records a ++ [Context.new p pp (length (stack a))]) !! i = Some c)
    by (apply lookup_app_l_Some; exact Hc).
  destruct (context a) as [q|].
  - rewrite list_lookup_alter. destruct (decide (q = i)) as [->|Hne].
    + rewrite H1. simpl. eexists. split; [reflexivity|]. split; [reflexivity|].
      right. split; reflexivity.
    + exists c. split; [exact H1|]. split; [reflexivity|]. left. reflexivity.
  - exists c. split; [exact H1|]. split; [reflexivity|]. left. reflexivity.
Qed.

Lemma pushed_new (p : path) (pp : option path) (a : t) :
  stack_ok a ->
  pushed a p pp !! length (records a) = Some (Context.new p pp (length (stack a))).
Proof.
  intros Hst.
  assert (H1 : (records a ++ [Context.new p pp (length (stack a))]) !! length (records a)
               = Some (Context.new p pp (length (stack a)))).
  { rewrite lookup_app_r by lia. rewrite Nat.sub_diag. reflexivity. }
  destruct (context a) as [q|] eqn:Hq; [|exact H1].
  rewrite list_lookup_alter_ne; [exact H1|].
  unfold context in Hq. rewrite last_lookup in Hq.
  destruct (Hst _ _ Hq) as (c & Hc & _). apply lookup_lt_Some in Hc. lia.
Qed.

Lemma pushed_inv (p : path) (pp : option path) (a : t) (i : nat) (c' : Context.t) :
  stack_ok a -> pushed a p pp !! i = Some c' ->
  i = length (records a) /\ c' = Context.new p pp (length (stack a)) \/
  exists c, records a !! i = Some c /\
    Context._depth c' = Context._depth c /\
    (Context.children c' = Context.children c \/
     context a = Some i /\
     Context.children c' = Context.children c ++ [length (records a)]).
Proof.
  intros Hst Hc'.
  assert (Hi : (i < S (length (records a)))%nat).
  { rewrite <- (pushed_length p pp a). eapply lookup_lt_Some. exact Hc'. }
  destruct (decide (i = length (records a))) as [->|Hne].
  - left. split; [reflexivity|]. rewrite (pushed_new p pp a Hst) in Hc'. congruence.
  - right. destruct (lookup_lt_is_Some_2 (records a) i) as [c Hc]; [lia|].
    exists c. split; [exact Hc|].
    destruct (pushed_old p pp a i c Hc) as (c2 & H2 & H3). congruence.
Qed.

Lemma pushContext_keeps (p : path) (pp : option path) (a a' : t) :
  run_inv n0 h0 a -> pushContext p pp a = Ok a' -> run_inv n0 h0 a'.
Proof.
  intros (Hst & Hd & Hwf & (Hr1 & Hr2 & Hr3) & Hs) Hp.
  destruct (pushContext_Ok p pp a a' Hp) as (src & _ & ->). clear Hp.
  repeat split; simpl.
  - intros i r Hi. apply lookup_app_Some in Hi as [Hi|[Hlen Hi]].
    + destruct (Hst i r Hi) as (c & Hc & Hdc).
      destruct (pushed_old p pp a r c Hc) as (c' & Hc' & Hdc' & _).
      exists c'. split; [exact Hc'|]. congruence.
    + destruct (i - length (stack a))%nat eqn:Hsub; [|destruct n; discriminate].
      simpl in Hi. injection Hi as <-.
      exists (Context.new p pp (length (stack a))). split; [apply pushed_new; exact Hst|].
      simpl. lia.
  - intros q cq x Hq Hx.
    destruct (pushed_inv p pp a q cq Hst Hq) as [[-> ->]|(c & Hc & Hdc & Hch)].
    + simpl in Hx. inversion Hx.
    + assert (Hold : x ∈ Context.children c ->
                exists cx, pushed a p pp !! x = Some cx /\
                  Context._depth cx = S (Context._depth cq)).
      { intros Hx'. destruct (Hd q c x Hc Hx') as (cx & Hcx & Hdx).
        destruct (pushed_old p pp a x cx Hcx) as (cx' & Hcx' & Hdx' & _).
        exists cx'. split; [exact Hcx'|]. congruence. }
      destruct Hch as [Hch|[Htop Hch]]; rewrite Hch in Hx; [exact (Hold Hx)|].
      apply elem_of_app in Hx as [Hx|Hx]; [exact (Hold Hx)|].
      apply list_elem_of_singleton in Hx. subst x.
      exists (Context.new p pp (length (stack a))). split; [apply pushed_new; exact Hst|].
      simpl. unfold context in Htop. rewrite last_lookup in Htop.
      destruct (Hst _ _ Htop) as (c2 & Hc2 & Hd2).
      assert (c2 = c) by congruence. subst c2.
      apply lookup_lt_Some in Htop. rewrite Hdc, Hd2. lia.
  - intros r c Hc. rewrite pushed_length.
    destruct (pushed_inv p pp a r c Hst Hc) as [[-> ->]|(c0 & Hc0 & _ & Hch)].
    + simpl. constructor.
    + pose proof (Hwf r c0 Hc0) as Hb.
      assert (Hb' : Forall (fun q => (r < q < S (length (records a)))%nat)
                      (Context.children c0)).
      { eapply Forall_impl; [exact Hb|]. simpl. intros; lia. }
      destruct Hch as [->|[_ ->]]; [exact Hb'|].
      apply Forall_app. split; [exact Hb'|].
      constructor; [|constructor]. apply lookup_lt_Some in Hc0. lia.
  - rewrite pushed_length. lia.
  - rewrite pushed_length. intros Hn. lia.
  - intros c Hc.
    destruct (pushed_inv p pp a n0 c Hst Hc) as [[-> ->]|(c0 & Hc0 & Hdc & _)].
    + simpl. rewrite Hr2 by reflexivity. reflexivity.
    + rewrite Hdc. apply Hr3. exact Hc0.
  - intros r c Hc. destruct (Hs r c Hc) as (c1 & Hc1 & Hd1).
    destruct (pushed_old p pp a r c1 Hc1) as (c2 & Hc2 & Hd2 & _).
    exists c2. split; [exact Hc2|]. congruence.
Qed.

Lemma process_keeps (node : value) (a a' : t) :
  run_inv n0 h0 a -> process node a = Ok a' -> run_inv n0 h0 a'.
Proof.
  intros Hi Hp. unfold process in Hp. inv_ok.
  repeat match type of Hp with
  | (if ?b then _ else _) = _ => destruct b
  end;
  unfold addFn, addCall, addIf, addCase, addLogical, addBranch in Hp; inv_ok;
  repeat match goal with
  | H : (if ?b then _ else _) = _ |- _ => destruct b
  end; inv_ok; eauto using add_keeps.
Qed.

Lemma enter_keeps (p : path) (pp : option path) (node : value)
  (a : t) (w : list (string * value)) (a' : t) :
  run_inv n0 h0 a -> enter p pp node a = Ok (w, a') -> run_inv n0 h0 a'.
Proof.
  intros Hi He. unfold enter in He. inv_ok.
  destruct (is_context _); inv_ok; eauto using process_keeps, pushContext_keeps.
Qed.

Lemma leave_keeps (node : value) (a a' : t) :
  run_inv n0 h0 a -> leave node a = Ok a' -> run_inv n0 h0 a'.
Proof.
  intros Hi Hl. unfold leave in Hl. inv_ok.
  destruct (truthy _); inv_ok; eauto using popContext_keeps.
Qed.

Lemma traverse_keeps (tree tree' : value) (a a' : t) :
  run_inv n0 h0 a -> traverse tree a = Ok (tree', a') -> run_inv n0 h0 a'.
Proof.
  intros Hi Ht. unfold traverse in Ht.
  destruct (negb (truthy tree)); [inv_ok; exact Hi|].
  unfold estraverse.traverse in Ht.
  eapply (walk_keeps t enter leave (run_inv n0 h0)); [| |exact Hi|exact Ht].
  - intros. eapply enter_keeps; eassumption.
  - intros. eapply leave_keeps; eassumption.
Qed.
End run_invariant.

(** ** Depth never changes *)

Section depth_stable.
Import Analyzer.

Lemma depth_stable_refl (h : Context.store) : depth_stable h h.
Proof. intros r c Hc. exists c. split; [exact Hc | reflexivity]. Qed.

Lemma depth_stable_trans (h1 h2 h3 : Context.store) :
  depth_stable h1 h2 -> depth_stable h2 h3 -> depth_stable h1 h3.
Proof.
  intros H12 H23 r c Hc. destruct (H12 r c Hc) as (c2 & Hc2 & Hd2).
  destruct (H23 r c2 Hc2) as (c3 & Hc3 & Hd3). exists c3. split; [exact Hc3 | congruence].
Qed.

Lemma add_stable (num : Z) (a a' : t) :
  add num a = Ok a' -> depth_stable (records a) (records a').
Proof.
  unfold add. destruct (context a) as [q|]; [|discriminate]. intros [= <-]. simpl.
  intros r c Hc.
  destruct (add_score_lookup (records a) q num r) as [[_ HN]|(c1 & c2 & H1 & H2 & _ & H4)];
    [congruence|].
  exists c2. split; [exact H2 | congruence].
Qed.

Lemma pushContext_stable (p : path) (pp : option path) (a a' : t) :
  pushContext p pp a = Ok a' -> depth_stable (records a) (records a').
Proof.
  intros Hp. destruct (pushContext_Ok p pp a a' Hp) as (src & _ & ->). simpl.
  intros r c Hc. destruct (pushed_old p pp a r c Hc) as (c' & Hc' & Hd & _).
  exists c'. split; assumption.
Qed.

Lemma process_stable (node : value) (a a' : t) :
  process node a = Ok a' -> depth_stable (records a) (records a').
Proof.
  intros Hp. unfold process in Hp. inv_ok.
  repeat match type of Hp with
  | (if ?b then _ else _) = _ => destruct b
  end;
  unfold addFn, addCall, addIf, addCase, addLogical, addBranch in Hp; inv_ok;
  repeat match goal with
  | H : (if ?b then _ else _) = _ |- _ => destruct b
  end; inv_ok;
  eauto using add_stable, depth_stable_refl, depth_stable_trans.
Qed.

Lemma enter_stable (p : path) (pp : option path) (node : value)
  (a : t) (w : list (string * value)) (a' : t) :
  enter p pp node a = Ok (w, a') -> depth_stable (records a) (records a').
Proof.
  intros He. unfold enter in He. inv_ok.
  destruct (is_context _); inv_ok;
    eauto using process_stable, pushContext_stable, depth_stable_trans.
Qed.

Lemma leave_stable (node : value) (a a' : t) :
  leave node a = Ok a' -> depth_stable (records a) (records a').
Proof.
  intros Hl. unfold leave in Hl. inv_ok.
  destruct (truthy _); inv_ok; apply depth_stable_refl.
Qed.

(** The invariant holds when a run starts. *)
Lemma run_inv_start (src : SourceFile) (a : t) :
  depth_ok (records a) -> wf_store (records a) ->
  run_inv (length (records a)) (records a) (mk [] (Some src) (records a)).
Proof.
  intros Hd Hwf. repeat split; simpl; try assumption.
  - intros i r Hi. destruct i; discriminate Hi.
  - lia.
  - intros c Hc. apply lookup_lt_Some in Hc. lia.
  - apply depth_stable_refl.
Qed.

Lemma analyze_keeps (src : SourceFile) (a a' : t) :
  depth_ok (records a) -> wf_store (records a) -> analyze src a = Ok a' ->
  run_inv (length (records a)) (records a) a'.
Proof.
  intros Hd Hwf Ha. unfold analyze in Ha. inv_ok.
  pose proof (traverse_keeps _ _ _ _ _ _ (run_inv_start src a Hd Hwf) E)
    as (H1 & H2 & H3 & H4 & H5).
  repeat split; simpl; try assumption; apply H4.
Qed.

(** The stores a run builds have no cycle: [score()] returns on them. *)
Lemma analyze_wf_store (src : SourceFile) (a a' : t) :
  depth_ok (records a) -> wf_store (records a) -> analyze src a = Ok a' ->
  wf_store (records a').
Proof. intros Hd Hwf Ha. apply (analyze_keeps src a a' Hd Hwf Ha). Qed.
End depth_stable.

(** ** Scoring rules *)

Section scoring.
Import Analyzer.

Lemma add_scored (num : Z) (a : t) (r : nat) (c : Context.t) :
  context a = Some r -> records a !! r = Some c ->
  exists a', add num a = Ok a' /\ scored num a a'.
Proof.
  intros Hr Hc. unfold add. rewrite Hr. eexists. split; [reflexivity|].
  split; [reflexivity|]. split; [reflexivity|].
  exists r, c. split; [exact Hr|]. split; [exact Hc|]. simpl.
  unfold Context.add. rewrite list_insert_alter.
  apply list_alter_ext; [|reflexivity].
  intros x Hx. rewrite Hc in Hx. injection Hx as <-. reflexivity.
Qed.

Lemma scored_active (num : Z) (a a' : t) :
  scored num a a' -> exists r c, context a' = Some r /\ records a' !! r = Some c.
Proof.
  intros (Hst & _ & r & c & Hr & Hc & Hh). exists r. eexists. split.
  - unfold context in *. rewrite Hst. exact Hr.
  - rewrite Hh. apply list_lookup_insert_eq. eapply lookup_lt_Some. exact Hc.
Qed.

Lemma scored_twice (n1 n2 : Z) (a a1 a2 : t) :
  scored n1 a a1 -> scored n2 a1 a2 -> scored (n1 + n2) a a2.
Proof.
  intros (Hst1 & Hso1 & r & c & Hr & Hc & Hh1) (Hst2 & Hso2 & r2 & c2 & Hr2 & Hc2 & Hh2).
  split; [congruence|]. split; [congruence|].
  exists r, c. split; [exact Hr|]. split; [exact Hc|].
  assert (r2 = r) by (unfold context in *; congruence). subst r2.
  rewrite Hh1 in Hc2. rewrite list_lookup_insert_eq in Hc2
    by (eapply lookup_lt_Some; exact Hc).
  injection Hc2 as <-. rewrite Hh2, Hh1. simpl.
  rewrite list_insert_insert_eq. do 2 f_equal. lia.
Qed.
End scoring.





(** ** The examples of the specification *)

(** C2, as the code has it.  Analyzing
    [function foo() { if (a) { bar(); } else { baz(); } }] makes two
    records.  The root record has local score 3, the function weight, added
    before the record of [foo] is pushed; its [score()] is 25, since it
    includes the score of its child.  The record of [foo] has local score
    and [score()] 22, and signature ["foo"]. *)
Theorem foo_example :
  (exists a, Examples.run Examples.foo_tree = Ok a) /\
  map Context._score (Examples.records_of (Examples.run Examples.foo_tree)) = [3; 22] /\
  map Context.children (Examples.records_of (Examples.run Examples.foo_tree)) = [[1%nat]; []] /\
  Context.score (Examples.records_of (Examples.run Examples.foo_tree)) 0 = Some 25 /\
  Context.score (Examples.records_of (Examples.run Examples.foo_tree)) 1 = Some 22 /\
  Examples.signatures (Examples.run Examples.foo_tree) = [Ok (Str "*"); Ok (Str "foo")].
Proof.
  split; [eexists; vm_compute; reflexivity|].
  repeat split; vm_compute; reflexivity.
Qed.

(** The root record of that example does not score 3: [score()] adds the
    22 of the record of [foo] to the local 3. *)
Lemma foo_example_root_score :
  Context.score (Examples.records_of (Examples.run Examples.foo_tree)) 0 = Some 25 /\
  Context.score (Examples.records_of (Examples.run Examples.foo_tree)) 0 <> Some 3.
Proof. split; [vm_compute; reflexivity | vm_compute; discriminate]. Qed.

(** C5.  Analyzing [var x = function() { return a || b; }] makes a record
    for the function whose signature is ["x"]: the function has no name of
    its own, its parent node is the declarator of [x], and [vardec()]
    gives ["x"].  Its local score is one branch weight (10), from the
    [||].  In general a logical expression with operator [||] adds one
    branch weight to the active scope, and one with operator [&&] adds
    nothing. *)
Theorem logical_or_example :
  (Examples.signatures (Examples.run Examples.var_tree) = [Ok (Str "*"); Ok (Str "x")] /\
   map Context._score (Examples.records_of (Examples.run Examples.var_tree)) = [3; 10] /\
   (forall c, Examples.records_of (Examples.run Examples.var_tree) !! 1%nat = Some c ->
      let tree := Examples.tree_of (Examples.run Examples.var_tree) in
      Context.named (deref tree (Context.node c)) = Ok Undefined /\
      get (deref_parent tree (Context.parent c)) "type" = Ok (Str syntax.VariableDeclarator) /\
      Context.vardec (deref_parent tree (Context.parent c)) = Ok (Str "x"))) /\
  (forall p pp node a r c,
     get node "type" = Ok (Str syntax.LogicalExpression) ->
     get node "operator" = Ok (Str "||") ->
     Analyzer.context a = Some r ->
     Analyzer.records a !! r = Some c ->
     exists a', Analyzer.enter p pp node a = Ok ([], a') /\ scored 10 a a') /\
  (forall p pp node a,
     get node "type" = Ok (Str syntax.LogicalExpression) ->
     get node "operator" = Ok (Str "&&") ->
     Analyzer.enter p pp node a = Ok ([], a)).
Proof.
  split; [|split].
  - split; [vm_compute; reflexivity|]. split; [vm_compute; reflexivity|].
    intros c Hc. vm_compute in Hc. injection Hc as <-.
    repeat split; vm_compute; reflexivity.
  - intros p pp node a r c Hty Hop Hr Hc.
    unfold Analyzer.enter, Analyzer.process. rewrite Hty. cbn.
    unfold Analyzer.addLogical. rewrite Hop. cbn.
    destruct (add_scored 10 a r c Hr Hc) as (a1 & Ha1 & Hs1).
    change (Analyzer.branch Analyzer.score) with 10.
    rewrite Ha1. cbn. exists a1. split; [reflexivity | exact Hs1].
  - intros p pp node a Hty Hop.
    unfold Analyzer.enter, Analyzer.process. rewrite Hty. cbn.
    unfold Analyzer.addLogical. rewrite Hop. cbn. reflexivity.
Qed.

Lemma logical_or_example_witness :
  (exists a',
     Analyzer.enter [("body", Some O)] (Some [])
       (esprima.LogicalExpression "||" (esprima.Identifier "a") (esprima.Identifier "b"))
       Examples.active = Ok ([], a') /\
     scored 10 Examples.active a') /\
  Analyzer.enter [("body", Some O)] (Some [])
    (esprima.LogicalExpression "&&" (esprima.Identifier "a") (esprima.Identifier "b"))
    Examples.active = Ok ([], Examples.active).
Proof.
  split.
  - exact (proj1 (proj2 logical_or_example) [("body", Some O)] (Some [])
             (esprima.LogicalExpression "||" (esprima.Identifier "a") (esprima.Identifier "b"))
             Examples.active O (Context.new [] None O) eq_refl eq_refl eq_refl eq_refl).
  - exact (proj2 (proj2 logical_or_example) [("body", Some O)] (Some [])
             (esprima.LogicalExpression "&&" (esprima.Identifier "a") (esprima.Identifier "b"))
             Examples.active eq_refl eq_refl).
Defined.

(** ** An absent tree *)

(** C8.  When the tree of the file is absent ([undefined], [null] or any
    other falsy value), [analyze] returns without raising: it makes no
    record, calls the collector zero times and leaves the tree as it is;
    only the stack is reset and the file remembered. *)
Theorem analyze_absent_tree (src : Analyzer.SourceFile) (a : Analyzer.t) :
  truthy (Analyzer.ast src) = false ->
  Analyzer.analyze src a = Ok (Analyzer.mk [] (Some src) (Analyzer.records a)).
Proof.
  intros Hf. unfold Analyzer.analyze, Analyzer.traverse. rewrite Hf. cbn.
  destruct src. reflexivity.
Qed.

Lemma analyze_absent_tree_witness :
  Analyzer.analyze (Analyzer.mkSourceFile Undefined []) (Analyzer.new []) =
  Ok (Analyzer.mk [] (Some (Analyzer.mkSourceFile Undefined [])) []).
Proof.
  exact (analyze_absent_tree (Analyzer.mkSourceFile Undefined []) (Analyzer.new []) eq_refl).
Defined.

(** ** Depth *)

(** C7.  In every run the first record made, the root, has depth 0; a
    record is made at the depth that is the length of the stack, so at
    depth 1 when exactly one record is on the stack; the depth of every
    record is the depth of its parent record plus 1; and no step of the
    walk changes the depth of a record. *)
Theorem depth_invariant (src : Analyzer.SourceFile) (a a' : Analyzer.t) :
  depth_ok (Analyzer.records a) ->
  wf_store (Analyzer.records a) ->
  Analyzer.analyze src a = Ok a' ->
  (forall c, Analyzer.records a' !! length (Analyzer.records a) = Some c ->
     Context._depth c = O) /\
  depth_ok (Analyzer.records a') /\
  depth_stable (Analyzer.records a) (Analyzer.records a') /\
  (forall b p pp b', stack_ok b -> Analyzer.pushContext p pp b = Ok b' ->
     Context.depth (Analyzer.records b') (length (Analyzer.records b)) =
       Some (length (Analyzer.stack b))) /\
  (forall b p pp node w b', Analyzer.enter p pp node b = Ok (w, b') ->
     depth_stable (Analyzer.records b) (Analyzer.records b')) /\
  (forall b node b', Analyzer.leave node b = Ok b' ->
     depth_stable (Analyzer.records b) (Analyzer.records b')).
Proof.
  intros Hd Hwf Ha.
  destruct (analyze_keeps src a a' Hd Hwf Ha) as (_ & H2 & _ & (_ & _ & H4) & H5).
  split; [exact H4|]. split; [exact H2|]. split; [exact H5|].
  split; [|split].
  - intros b p pp b' Hst Hp.
    destruct (pushContext_Ok p pp b b' Hp) as (f & _ & ->). simpl.
    unfold Context.depth. rewrite (pushed_new p pp b Hst). reflexivity.
  - intros b p pp node w b'. apply enter_stable.
  - intros b node b'. apply leave_stable.
Qed.

Lemma depth_invariant_witness :
  exists a',
    Examples.run Examples.foo_tree = Ok a' /\
    Context.depth (Analyzer.records a') 0 = Some O /\
    Context.depth (Analyzer.records a') 1 = Some 1%nat /\
    depth_ok (Analyzer.records a').
Proof.
  eexists. split; [vm_compute; reflexivity|].
  split; [vm_compute; reflexivity|]. split; [vm_compute; reflexivity|].
  refine (proj1 (proj2 (depth_invariant (Analyzer.mkSourceFile Examples.foo_tree [])
                          (Analyzer.new []) _ _ _ _))).
  - intros p cp q Hp. destruct p; discriminate Hp.
  - intros r c Hc. destruct r; discriminate Hc.
  - vm_compute. reflexivity.
Defined.

(** ** Score *)

(** C1.  For every record [r] of a store without cycles, [r.score()]
    returns the local score of [r] plus the sum of [score()] of each of
    its children, which obey the same equation, to any depth.  Nothing is
    cached: after any [q.add(num)] the call returns the local score plus
    the sum of the scores of the children as they are in the new store. *)
Theorem score_is_local_plus_children (h : Context.store) (r : nat) (c : Context.t) :
  wf_store h ->
  h !! r = Some c ->
  (exists scores,
     mapM (Context.score h) (Context.children c) = Some scores /\
     Context.score h r = Some (Context._score c + sum scores)) /\
  (forall q num, exists c' scores,
     Context.add h q num !! r = Some c' /\
     Context._score c' = (if decide (q = r) then Context._score c + num else Context._score c) /\
     Context.children c' = Context.children c /\
     mapM (Context.score (Context.add h q num)) (Context.children c') = Some scores /\
     Context.score (Context.add h q num) r = Some (Context._score c' + sum scores)).
Proof.
  intros Hwf Hc. split; [exact (score_unfold h Hwf r c Hc)|].
  intros q num.
  assert (Hc' : exists c', Context.add h q num !! r = Some c' /\
            Context._score c' =
              (if decide (q = r) then Context._score c + num else Context._score c) /\
            Context.children c' = Context.children c).
  { unfold Context.add. rewrite list_lookup_alter.
    destruct (decide (q = r)) as [->|Hne].
    - rewrite Hc. simpl. eexists. repeat split; reflexivity.
    - exists c. repeat split; [exact Hc]. }
  destruct Hc' as (c' & Hl & Hs & Hch).
  destruct (score_unfold _ (wf_store_add h q num Hwf) r c' Hl) as (scores & Hm & Hv).
  exists c', scores. repeat split; assumption.
Qed.

Lemma score_is_local_plus_children_witness :
  exists scores,
    mapM (Context.score [Context.mk [] None [1%nat] 3 0; Context.mk [("body", Some O)] (Some []) [] 22 1])
      [1%nat] = Some scores /\
    Context.score [Context.mk [] None [1%nat] 3 0; Context.mk [("body", Some O)] (Some []) [] 22 1] 0
      = Some (3 + sum scores).
Proof.
  refine (proj1 (score_is_local_plus_children
           [Context.mk [] None [1%nat] 3 0; Context.mk [("body", Some O)] (Some []) [] 22 1]
           O (Context.mk [] None [1%nat] 3 0) _ eq_refl)).
  intros [|[|r]] c Hc; simpl in Hc; try discriminate Hc; injection Hc as <-; simpl.
  - constructor; [lia | constructor].
  - constructor.
Defined.

(** A later [add] on a child shows in the next [score()] of its parent:
    on the records of the first example, 25 becomes 30. *)
Lemma score_sees_later_additions :
  Context.score (Examples.records_of (Examples.run Examples.foo_tree)) 0 = Some 25 /\
  Context.score
    (Context.add (Examples.records_of (Examples.run Examples.foo_tree)) 1 5) 0 = Some 30.
Proof. split; vm_compute; reflexivity. Qed.

(** The location of the record of a program is 0, whatever the node says. *)
Lemma location_root (node : value) :
  get node "type" = Ok (Str syntax.Program) -> Context.location node = Ok (Num 0).
Proof. intros Hty. unfold Context.location, Context.root. rewrite Hty. reflexivity. Qed.

(** ** Signatures *)

Section signature.
Import Context.

Lemma get_Throw (v : value) (k : string) (e : error) : get v k = Throw e -> e = TypeError.
Proof. destruct v; simpl; congruence. Qed.

Lemma get_field (v : value) (k k' : string) (x : value) :
  get v k = Ok x -> get v k' = Ok (field v k').
Proof. unfold field. destruct v; simpl; try discriminate; reflexivity. Qed.

Lemma present_get (v : value) (k : string) : present v -> get v k = Ok (field v k).
Proof. intros [H1 H2]. unfold field. destruct v; simpl; congruence. Qed.

Lemma get_present (v : value) (k : string) (x : value) : get v k = Ok x -> present v.
Proof. destruct v; simpl; try discriminate; intros _; split; discriminate. Qed.

Lemma get_Str_Obj (v : value) (s : string) :
  get v "type" = Ok (Str s) -> exists props, v = Obj props.
Proof. destruct v; simpl; try discriminate; eauto. Qed.

Lemma height_lookup (k : string) (props : list (string * value)) :
  (height (lookup_prop k props) < height (Obj props))%nat.
Proof.
  simpl. apply Nat.lt_succ_r.
  induction props as [|[k' v] props IH]; simpl; [lia|].
  destruct (String.eqb k k'); lia.
Qed.

Lemma member_chain_type (v o : value) (ps : list value) :
  member_chain v o ps -> get v "type" = Ok (Str syntax.MemberExpression).
Proof. destruct 1; assumption. Qed.

Lemma member_chain_nonempty (v o : value) (ps : list value) :
  member_chain v o ps -> exists p ps', ps = p :: ps'.
Proof.
  destruct 1 as [| ? ? ? ? ps]; [eauto|].
  destruct ps; simpl; eauto.
Qed.

(** The segment [search] pushes for a property node is [segment]. *)
Lemma search_segment {B} (p : value) (k : value -> result B) :
  present p ->
  (let* name := get p "name" in
   let* segment :=
     (if truthy name then Ok name
      else let* val := get p "value" in Ok (or_else val (Str "?"))) in
   k segment) = k (segment p).
Proof.
  intros Hp. rewrite (present_get p "name" Hp). cbn. unfold segment, or_else.
  destruct (truthy (field p "name")); [reflexivity|].
  rewrite (present_get p "value" Hp). reflexivity.
Qed.

(** [search] unwinds a member-access chain left to right. *)
Lemma search_chain (v o : value) (ps : list value) :
  member_chain v o ps ->
  forall fuel ret, (height v < fuel)%nat ->
    search fuel v ret = Ok (ret ++ field o "name" :: map segment ps).
Proof.
  induction 1 as [v o p ty Hty Ho Hoty Hnm Hp Hpp | v v' o p ps Hty Hv' Hch IH Hp Hpp];
    intros fuel ret Hf; (destruct fuel as [|fuel]; [lia|]); cbn [search].
  - rewrite Ho. cbn. rewrite Hoty. cbn. rewrite Hnm.
    rewrite (get_field o "type" "name" ty Hoty). cbn.
    rewrite Hp. cbn. rewrite (search_segment p _ Hpp).
    rewrite <- app_assoc. reflexivity.
  - rewrite Hv'. cbn. rewrite (member_chain_type _ _ _ Hch). cbn.
    destruct (get_Str_Obj _ _ Hty) as (props & ->). simpl in Hv'. injection Hv' as <-.
    rewrite IH by (pose proof (height_lookup "object" props); lia). cbn.
    change (get (Obj props) "property") with (Ok (lookup_prop "property" props)).
    simpl in Hp. injection Hp as <-. cbn.
    rewrite (search_segment _ _ Hpp).
    rewrite map_app. simpl. rewrite <- app_assoc. reflexivity.
Qed.

Lemma bind_not_fuel {A B} (r : result A) (k : A -> result B) :
  r <> Throw OutOfFuel -> (forall x, r = Ok x -> k x <> Throw OutOfFuel) ->
  bind r k <> Throw OutOfFuel.
Proof.
  intros H1 H2. destruct r as [x|e]; simpl; [apply (H2 x eq_refl)|].
  intros [= ->]. apply H1. reflexivity.
Qed.

Lemma get_not_fuel (v : value) (k : string) : get v k <> Throw OutOfFuel.
Proof. destruct v; simpl; congruence. Qed.

(** The fuel [assignment()] gives to [search] never runs out. *)
Lemma search_fuel_enough (fuel : nat) :
  forall obj ret, (height obj < fuel)%nat -> search fuel obj ret <> Throw OutOfFuel.
Proof.
  induction fuel as [|fuel IH]; intros obj ret Hf; [lia|]. cbn [search].
  apply bind_not_fuel; [apply get_not_fuel|]. intros o Ho.
  apply bind_not_fuel; [apply get_not_fuel|]. intros ty Hty.
  apply bind_not_fuel.
  - destruct (is_str ty syntax.MemberExpression) eqn:Hmem.
    + apply IH. destruct ty; try discriminate Hmem.
      destruct (get_Str_Obj _ _ Hty) as (oprops & ->).
      destruct obj; simpl in Ho; try discriminate Ho.
      injection Ho as Ho. rewrite <- Ho.
      pose proof (height_lookup "object" props). lia.
    + apply bind_not_fuel; [apply get_not_fuel|]. discriminate.
  - intros ret1 _.
    apply bind_not_fuel; [apply get_not_fuel|]. intros p _.
    apply bind_not_fuel; [apply get_not_fuel|]. intros name _.
    apply bind_not_fuel; [|discriminate].
    destruct (truthy name); [discriminate|].
    apply bind_not_fuel; [apply get_not_fuel|]. discriminate.
Qed.

Lemma concat_with_truthy (x y : string) (l : list string) :
  truthy (Str (concat_with "." (x :: y :: l))) = true.
Proof. cbn [concat_with truthy]. destruct x; reflexivity. Qed.
End signature.

(** [OutOfFuel] is an artefact of the bound on [search]: no rule of
    [signature()] ever returns it. *)
Lemma assignment_never_out_of_fuel (parent : value) :
  Context.assignment parent <> Throw OutOfFuel.
Proof.
  unfold Context.assignment.
  apply bind_not_fuel; [apply get_not_fuel|]. intros ty _.
  destruct (negb _); [discriminate|].
  apply bind_not_fuel; [apply get_not_fuel|]. intros target _.
  apply bind_not_fuel; [apply get_not_fuel|]. intros name _.
  destruct (truthy name); [discriminate|].
  apply bind_not_fuel; [|discriminate].
  apply search_fuel_enough. lia.
Qed.

Lemma signature_never_out_of_fuel (node parent : value) :
  Context.signature node parent <> Throw OutOfFuel.
Proof.
  unfold Context.signature, Context.main, Context.named, Context.vardec.
  repeat first
    [ apply get_not_fuel
    | apply assignment_never_out_of_fuel
    | discriminate
    | apply bind_not_fuel; [|intros ? _]
    | match goal with |- (if ?b then _ else _) <> _ => destruct b end ].
Qed.

#[local] Arguments Context.search : simpl never.

Section signature_rules.
Import Context.

Lemma is_str_true (v : value) (s : string) : is_str v s = true -> v = Str s.
Proof.
  destruct v; simpl; try discriminate. intros H. apply String.eqb_eq in H. congruence.
Qed.

Lemma truthy_present (v : value) : truthy v = true -> present v.
Proof. destruct v; simpl; try discriminate; intros _; split; discriminate. Qed.

Lemma main_total (node : value) :
  present node ->
  main node = Ok (if is_str (field node "type") syntax.Program then Str "*" else Undefined).
Proof.
  intros Hn. unfold main. rewrite (present_get node "type" Hn). cbn.
  destruct (is_str _ _); reflexivity.
Qed.

Lemma named_total (node : value) :
  present node ->
  named node =
    Ok (if truthy (field node "id") && truthy (field (field node "id") "name")
        then field (field node "id") "name" else Undefined).
Proof.
  intros Hn. unfold named. rewrite (present_get node "id" Hn). cbn.
  destruct (truthy (field node "id")) eqn:Hid; cbn; [|reflexivity].
  rewrite (present_get _ "name" (truthy_present _ Hid)). cbn.
  destruct (truthy (field (field node "id") "name")); reflexivity.
Qed.

Lemma vardec_total (parent : value) :
  present parent -> declarator_ok parent ->
  vardec parent =
    Ok (if is_str (field parent "type") syntax.VariableDeclarator
        then field (field parent "id") "name" else Undefined).
Proof.
  intros Hp Hok. unfold vardec. rewrite (present_get parent "type" Hp). cbn.
  destruct (is_str (field parent "type") syntax.VariableDeclarator) eqn:Hty; cbn;
    [|reflexivity].
  apply is_str_true in Hty.
  assert (Hid : present (field parent "id")).
  { apply Hok. rewrite (present_get parent "type" Hp). congruence. }
  rewrite (present_get parent "id" Hp). cbn. apply present_get. exact Hid.
Qed.

Lemma assignment_chain (parent target o : value) (ps : list value) :
  get parent "type" = Ok (Str syntax.AssignmentExpression) ->
  get parent "left" = Ok target ->
  truthy (field target "name") = false ->
  member_chain target o ps ->
  assignment parent = Ok (Str (dotted_path o ps)).
Proof.
  intros Hty Hl Hn Hch. unfold assignment. rewrite Hty. cbn. rewrite Hl. cbn.
  rewrite (get_field target "type" "name" _ (member_chain_type _ _ _ Hch)). cbn.
  rewrite Hn. rewrite (search_chain _ _ _ Hch) by lia. reflexivity.
Qed.

Lemma assignment_total (parent : value) :
  present parent -> assignment_ok parent ->
  exists s, assignment parent = Ok s /\
    (is_str (field parent "type") syntax.AssignmentExpression = false -> s = Undefined).
Proof.
  intros Hp Hok. unfold assignment. rewrite (present_get parent "type" Hp). cbn.
  destruct (is_str (field parent "type") syntax.AssignmentExpression) eqn:Hty; cbn;
    [|exists Undefined; split; [reflexivity | reflexivity]].
  apply is_str_true in Hty.
  assert (Hty' : get parent "type" = Ok (Str syntax.AssignmentExpression))
    by (rewrite (present_get parent "type" Hp); congruence).
  destruct (Hok Hty') as (Hl & Hcase).
  rewrite (present_get parent "left" Hp). cbn.
  rewrite (present_get _ "name" Hl). cbn.
  destruct (truthy (field (field parent "left") "name")) eqn:Hn.
  - eexists. split; [reflexivity | discriminate].
  - destruct Hcase as [Hc|(o & ps & Hch)]; [discriminate Hc|].
    rewrite (search_chain _ _ _ Hch) by lia. cbn.
    eexists. split; [reflexivity | discriminate].
Qed.
End signature_rules.

(** C6.  A literal value that is falsy is taken for a missing one.  On
    [a[0] = function() {}] the target is the chain of [a] and the literal
    [0], for which the words of the specification give the path ["a.0"]
    (the segment contributes its literal value); [signature()] is
    ["a.?"], alone and after a run on the program.  On
    [a.b.c = function() {}] the signature is ["a.b.c"]. *)
Theorem zero_index_assignment_signature :
  member_chain Examples.index_target (esprima.Identifier "a") [esprima.Literal (Num 0)] /\
  spec_dotted_path (esprima.Identifier "a") [esprima.Literal (Num 0)] = "a.0" /\
  Context.assignment Examples.index_assignment = Ok (Str "a.?") /\
  Context.signature (esprima.FunctionExpression Null []) Examples.index_assignment
  = Ok (Str "a.?") /\
  Examples.signatures (Examples.run Examples.index_tree) = [Ok (Str "*"); Ok (Str "a.?")] /\
  Examples.signatures (Examples.run Examples.abc_tree) = [Ok (Str "*"); Ok (Str "a.b.c")].
Proof.
  split.
  { apply (chain_last _ _ _ (Str "Identifier")); try reflexivity. split; discriminate. }
  repeat split; vm_compute; reflexivity.
Qed.

(** A function that has a name of its own keeps it when it is the
    right-hand side of an assignment: the signature of the function of
    [x = function foo() {}] is ["foo"], not the name of the target. *)
Lemma named_function_assignment_signature :
  get Examples.named_assignment "type" = Ok (Str syntax.AssignmentExpression) /\
  Context.assignment Examples.named_assignment = Ok (Str "x") /\
  Context.signature (field Examples.named_assignment "right") Examples.named_assignment
  = Ok (Str "foo") /\
  Context.signature (field Examples.named_assignment "right") Examples.named_assignment
  <> Ok (Str "x").
Proof. repeat split; try (vm_compute; reflexivity). vm_compute. discriminate. Qed.

(** C9, as the code has it.  When the node and the parent node of a
    record are present, a declarator parent has an id, and the target of
    an assignment parent is present and is named or a member-access chain,
    no rule of [signature()] raises: each returns a value or [undefined]
    ([named()] on a node without id, [vardec()] and [assignment()] on a
    parent of another type or of no type), [signature()] returns the first
    truthy result and ['anonymous'] when there is none. *)
Theorem signature_permissive (node parent : value) :
  present node -> present parent ->
  declarator_ok parent -> assignment_ok parent ->
  exists m n v s,
    Context.main node = Ok m /\
    Context.named node = Ok n /\
    Context.vardec parent = Ok v /\
    Context.assignment parent = Ok s /\
    Context.signature node parent =
      Ok (or_else m (or_else n (or_else v (or_else s (Str "anonymous"))))) /\
    (truthy (field node "id") = false -> n = Undefined) /\
    (is_str (field parent "type") syntax.VariableDeclarator = false -> v = Undefined) /\
    (is_str (field parent "type") syntax.AssignmentExpression = false -> s = Undefined) /\
    (truthy m = false -> truthy n = false -> truthy v = false -> truthy s = false ->
     Context.signature node parent = Ok (Str "anonymous")).
Proof.
  intros Hn Hp Hdec Hass.
  pose proof (main_total node Hn) as Hm.
  pose proof (named_total node Hn) as Hnm.
  pose proof (vardec_total parent Hp Hdec) as Hv.
  destruct (assignment_total parent Hp Hass) as (s & Hs & Hs').
  do 3 eexists. exists s.
  split; [exact Hm|]. split; [exact Hnm|]. split; [exact Hv|]. split; [exact Hs|].
  assert (Hsig : Context.signature node parent =
    Ok (or_else (if is_str (field node "type") syntax.Program then Str "*" else Undefined)
       (or_else (if truthy (field node "id") && truthy (field (field node "id") "name")
                 then field (field node "id") "name" else Undefined)
       (or_else (if is_str (field parent "type") syntax.VariableDeclarator
                 then field (field parent "id") "name" else Undefined)
       (or_else s (Str "anonymous")))))).
  { unfold Context.signature. rewrite Hm. cbn [bind]. unfold or_else at 1.
    destruct (truthy (if is_str (field node "type") syntax.Program then _ else _));
      [reflexivity|].
    rewrite Hnm. cbn [bind]. unfold or_else at 1.
    destruct (truthy (if truthy (field node "id") && _ then _ else _)); [reflexivity|].
    rewrite Hv. cbn [bind]. unfold or_else at 1.
    destruct (truthy (if is_str (field parent "type") syntax.VariableDeclarator
                      then _ else _)); [reflexivity|].
    rewrite Hs. cbn [bind]. unfold or_else.
    destruct (truthy s); reflexivity. }
  split; [exact Hsig|].
  split; [intros ->; reflexivity|].
  split; [intros ->; reflexivity|].
  split; [exact Hs'|].
  intros H1 H2 H3 H4. rewrite Hsig. unfold or_else. rewrite H1, H2, H3, H4. reflexivity.
Qed.

Lemma signature_permissive_witness :
  Context.signature (Obj [("type", Str "FunctionExpression")]) (Obj [])
  = Ok (Str "anonymous").
Proof.
  destruct (signature_permissive (Obj [("type", Str "FunctionExpression")]) (Obj []))
    as (m & n & v & s & Hm & Hn & Hv & Hs & Hsig & _).
  - split; discriminate.
  - split; discriminate.
  - intros H. discriminate H.
  - intros H. discriminate H.
  - vm_compute in Hm, Hn, Hv, Hs.
    injection Hm as <-. injection Hn as <-. injection Hv as <-. injection Hs as <-.
    exact Hsig.
Defined.

(** With no parent node the variable-declarator rule raises: it reads
    the type of [null].  So does the assignment rule on a target that has
    no name and no object. *)
Lemma signature_raises_without_parent :
  Context.named (esprima.FunctionExpression Null []) = Ok Undefined /\
  Context.vardec Null = Throw TypeError /\
  Context.signature (esprima.FunctionExpression Null []) Null = Throw TypeError /\
  Context.signature (esprima.FunctionExpression Null [])
    (esprima.AssignmentExpression (Obj [("type", Str "ArrayPattern"); ("elements", Arr [])])
       (esprima.FunctionExpression Null []))
  = Throw TypeError.
Proof. repeat split; vm_compute; reflexivity. Qed.

(** ** The marks on the tree *)

Section marks.
Import estraverse Analyzer.

Local Abbreviation walk := (estraverse.walk Analyzer.t enter leave).

Lemma lookup_assign_ne (k k' : string) (x : value) (props : list (string * value)) :
  String.eqb k k' = false ->
  lookup_prop k (assign_prop k' x props) = lookup_prop k props.
Proof.
  intros Hne. induction props as [|[k0 v0] props IH]; simpl.
  - rewrite Hne. reflexivity.
  - destruct (String.eqb k' k0) eqn:E1; simpl; [|rewrite IH; reflexivity].
    destruct (String.eqb k k0) eqn:E2; [|reflexivity].
    apply String.eqb_eq in E1, E2. subst. rewrite String.eqb_refl in Hne. discriminate.
Qed.

(** The only property [enter] assigns is [context], on a scope-defining
    node. *)
Lemma enter_writes (p : path) (pp : option path) (node : value) (a : t)
  (w : list (string * value)) (a' : t) :
  enter p pp node a = Ok (w, a') ->
  w = if is_context (field node "type") then [("context", Bool true)] else [].
Proof.
  intros He. unfold enter in He. inv_ok. unfold field. rewrite E0.
  destruct (is_context _); inv_ok; reflexivity.
Qed.

Lemma walk_elems_marks (elems : list value) :
  Forall (fun v => forall p pp a r a', walk p pp v a = Ok (r, a') -> r = mark v) elems ->
  forall p k i a r a', walk_elems t walk p k i elems a = Ok (r, a') ->
    r = map (fun e => if isNode e then mark e else e) elems.
Proof.
  induction 1 as [|e elems He _ IH]; intros p k i a r a' Hw; simpl in Hw.
  - inv_ok. reflexivity.
  - inv_ok. simpl. f_equal; [|eapply IH; eassumption].
    destruct (isNode e); [eapply He; eassumption | inv_ok; reflexivity].
Qed.

Lemma walk_props_marks (props : list (string * value)) :
  Forall (fun kv => forall p k a r a',
            walk_child t walk p k (snd kv) a = Ok (r, a') -> r = mark_child mark (snd kv))
         props ->
  forall keys p a r a', walk_props t walk keys p props a = Ok (r, a') ->
    r = mark_props mark keys props.
Proof.
  induction 1 as [|[k v] props Hv _ IH]; intros keys p a r a' Hw; simpl in Hw.
  - inv_ok. reflexivity.
  - inv_ok. simpl. f_equal; [|eapply IH; eassumption].
    destruct (is_key k keys); [|inv_ok; reflexivity].
    f_equal. eapply Hv. eassumption.
Qed.

Lemma walk_marks_both (v : value) :
  (forall p pp a r a', walk p pp v a = Ok (r, a') -> r = mark v) /\
  (forall p k a r a', walk_child t walk p k v a = Ok (r, a') -> r = mark_child mark v).
Proof.
  induction v as [| | b | n | str | elems IH | props IH] using value_nested_ind.
  1-5: split;
    [ intros p pp a r a' Hw; rewrite walk_unfold in Hw; inv_ok;
      apply enter_writes in E; subst; reflexivity
    | intros p k a r a' Hw; simpl in Hw; inv_ok; reflexivity ].
  - split.
    + intros p pp a r a' Hw. rewrite walk_unfold in Hw. inv_ok.
      apply enter_writes in E. subst. reflexivity.
    + intros p k a r a' Hw. simpl in Hw. inv_ok. simpl. f_equal.
      eapply walk_elems_marks; [|eassumption].
      eapply Forall_impl; [exact IH|]. intros e [He _]. exact He.
  - assert (Hk : forall p pp a r a', walk p pp (Obj props) a = Ok (r, a') ->
                   r = mark (Obj props)).
    { intros p pp a r a' Hw. rewrite walk_unfold in Hw. inv_ok.
      apply enter_writes in E. subst.
      match goal with
      | H : walk_props _ _ _ _ _ _ = Ok _ |- _ =>
          apply walk_props_marks in H;
          [|eapply Forall_impl; [exact IH|]; intros kv [_ Hc]; exact Hc]
      end.
      subst. cbn [mark]. change (field (Obj props) "type") with (lookup_prop "type" props) in *.
      destruct (is_context (lookup_prop "type" props)); simpl in E0.
      - rewrite lookup_assign_ne in E0 by reflexivity. injection E0 as <-.
        rewrite E1. reflexivity.
      - injection E0 as <-. rewrite E1. reflexivity. }
    split; [exact Hk|].
    intros p k a r a' Hw. unfold walk_child in Hw. unfold mark_child.
    destruct (isNode (Obj props)); [eapply Hk; eassumption | inv_ok; reflexivity].
Qed.

Lemma process_source (node : value) (a a' : t) :
  process node a = Ok a' -> source a' = source a.
Proof.
  intros Hp. unfold process in Hp. inv_ok.
  repeat match type of Hp with
  | (if ?b then _ else _) = _ => destruct b
  end;
  unfold addFn, addCall, addIf, addCase, addLogical, addBranch, add in Hp; inv_ok;
  repeat match goal with
  | H : (if ?b then _ else _) = _ |- _ => destruct b
  | H : match ?o with Some _ => _ | None => _ end = _ |- _ => destruct o
  end; inv_ok; reflexivity.
Qed.

Lemma traverse_source (tree tree' : value) (a a' : t) :
  traverse tree a = Ok (tree', a') ->
  (exists f, source a = Some f) -> exists f, source a' = Some f.
Proof.
  intros Ht Hs. unfold traverse in Ht.
  destruct (negb (truthy tree)); [inv_ok; exact Hs|].
  unfold estraverse.traverse in Ht.
  eapply (walk_keeps t enter leave (fun b => exists f, source b = Some f));
    [| |exact Hs|exact Ht].
  - intros p pp n s w s' [f Hf] He. unfold enter in He. inv_ok.
    match goal with
    | H : process _ _ = Ok _ |- _ => apply process_source in H; rename H into Hx
    end.
    destruct (is_context _); inv_ok; [|rewrite Hx; eauto].
    match goal with
    | H : pushContext _ _ _ = Ok _ |- _ => apply pushContext_Ok in H as (f' & _ & ->)
    end.
    simpl. eauto.
  - intros n s s' [f Hf] Hl. unfold leave in Hl. inv_ok.
    destruct (truthy _); inv_ok; simpl; eauto.
Qed.

Lemma traverse_marks (tree tree' : value) (a a' : t) :
  traverse tree a = Ok (tree', a') -> tree' = mark tree.
Proof.
  intros Ht. unfold traverse in Ht.
  destruct (truthy tree) eqn:Hty; simpl in Ht.
  - unfold estraverse.traverse in Ht.
    exact (proj1 (walk_marks_both tree) _ _ _ _ _ Ht).
  - inv_ok. destruct tree'; simpl in Hty; try discriminate; reflexivity.
Qed.

Lemma lookup_assign_eq (k : string) (x : value) (props : list (string * value)) :
  lookup_prop k (assign_prop k x props) = x.
Proof.
  induction props as [|[k0 v0] props IH]; simpl.
  - rewrite String.eqb_refl. reflexivity.
  - destruct (String.eqb k k0) eqn:E; simpl; rewrite E; [reflexivity | exact IH].
Qed.

(** What [mark] does to one node: a scope-defining node gets [context]
    set to [true], and a property that is neither [context] nor a visitor
    key keeps its value. *)
Lemma mark_sets_context (props : list (string * value)) :
  is_context (lookup_prop "type" props) = true ->
  field (mark (Obj props)) "context" = Bool true.
Proof.
  intros Hctx. cbn [mark]. rewrite Hctx. unfold field. cbn [get].
  apply lookup_assign_eq.
Qed.

Lemma mark_props_lookup (keys : list string) (k : string)
  (props : list (string * value)) :
  is_key k keys = false ->
  lookup_prop k (mark_props mark keys props) = lookup_prop k props.
Proof.
  intros Hk. induction props as [|[k0 v0] props IH]; [reflexivity|].
  cbn [mark_props map lookup_prop]. fold (mark_props mark keys props).
  destruct (is_key k0 keys) eqn:Hk0; cbn [lookup_prop];
    destruct (String.eqb k k0) eqn:E; try exact IH; try reflexivity.
  apply String.eqb_eq in E. subst. congruence.
Qed.

Lemma mark_keeps_fields (props : list (string * value)) (keys : list string) (k : string) :
  visitor_keys (lookup_prop "type" props) = Ok keys ->
  is_key k keys = false -> String.eqb k "context" = false ->
  field (mark (Obj props)) k = field (Obj props) k.
Proof.
  intros Hkeys Hk Hne. cbn [mark]. rewrite Hkeys. unfold field.
  destruct (is_context _); cbn [get];
    rewrite ?(lookup_assign_ne _ _ _ _ Hne); apply mark_props_lookup; exact Hk.
Qed.
End marks.

(** ** Reads on a marked tree *)

Section mark_reads.
Import estraverse Analyzer.

Lemma keys_of_not_key (k : string) (table : list (string * list string)) (s : string)
  (keys : list string) :
  forallb (fun e => negb (is_key k (snd e))) table = true ->
  keys_of s table = Some keys -> is_key k keys = false.
Proof.
  induction table as [|[s' ks] table IH]; simpl; [discriminate|].
  intros Hall Hk. apply andb_true_iff in Hall as [H1 H2].
  destruct (String.eqb s s').
  - injection Hk as <-. apply negb_true_iff. exact H1.
  - apply IH; assumption.
Qed.

Lemma visitor_keys_not_key (k : string) (ty : value) (keys : list string) :
  forallb (fun e => negb (is_key k (snd e))) VisitorKeys = true ->
  visitor_keys ty = Ok keys -> is_key k keys = false.
Proof.
  intros Hall. destruct ty; try discriminate. unfold visitor_keys.
  destruct (keys_of s VisitorKeys) as [ks|] eqn:Hk; [|discriminate].
  intros [= <-]. eapply keys_of_not_key; [exact Hall|exact Hk].
Qed.

Lemma type_not_key (ty : value) (keys : list string) :
  visitor_keys ty = Ok keys -> is_key "type" keys = false.
Proof. apply visitor_keys_not_key. reflexivity. Qed.

Lemma length_not_key (ty : value) (keys : list string) :
  visitor_keys ty = Ok keys -> is_key "length" keys = false.
Proof. apply visitor_keys_not_key. reflexivity. Qed.

Lemma mark_eq (props : list (string * value)) :
  mark (Obj props) =
    Obj (let props' :=
           match visitor_keys (lookup_prop "type" props) with
           | Ok keys => mark_props mark keys props
           | Throw _ => props
           end in
         if is_context (lookup_prop "type" props)
         then assign_prop "context" (Bool true) props'
         else props').
Proof. cbn [mark]. destruct (is_context _); reflexivity. Qed.

Lemma mark_obj (props : list (string * value)) :
  exists props', mark (Obj props) = Obj props'.
Proof. rewrite mark_eq. eexists. reflexivity. Qed.

Lemma lookup_mark_props (rec : value -> value) (keys : list string) (k : string)
  (props : list (string * value)) :
  lookup_prop k (mark_props rec keys props) =
    if is_key k keys then mark_child rec (lookup_prop k props) else lookup_prop k props.
Proof.
  induction props as [|[k0 v0] props IH].
  - destruct (is_key k keys); reflexivity.
  - cbn [mark_props map lookup_prop]. fold (mark_props rec keys props).
    destruct (String.eqb k k0) eqn:E.
    + apply String.eqb_eq in E. subst k0.
      destruct (is_key k keys); cbn [lookup_prop]; rewrite String.eqb_refl; reflexivity.
    + destruct (is_key k0 keys); cbn [lookup_prop]; rewrite E; exact IH.
Qed.

(** What a read finds on a marked node. *)
Lemma mark_lookup (props : list (string * value)) (k : string) :
  String.eqb k "context" = false ->
  field (mark (Obj props)) k =
    match visitor_keys (lookup_prop "type" props) with
    | Ok keys => if is_key k keys then mark_child mark (lookup_prop k props)
                 else lookup_prop k props
    | Throw _ => lookup_prop k props
    end.
Proof.
  intros Hk. rewrite mark_eq. unfold field. cbn [get]. cbv zeta.
  destruct (is_context _); rewrite ?(lookup_assign_ne _ _ _ _ Hk);
    destruct (visitor_keys _); try reflexivity; apply lookup_mark_props.
Qed.

Lemma mark_type (props : list (string * value)) :
  field (mark (Obj props)) "type" = lookup_prop "type" props.
Proof.
  rewrite mark_lookup by reflexivity.
  destruct (visitor_keys _) eqn:Hk; [|reflexivity].
  rewrite (type_not_key _ _ Hk). reflexivity.
Qed.

Lemma mark_isNode (v : value) : isNode (mark v) = isNode v.
Proof.
  destruct v; try reflexivity.
  pose proof (mark_type props) as H. rewrite mark_eq in *.
  unfold field in H. cbn [get] in H. cbn [isNode]. rewrite H. reflexivity.
Qed.

Lemma context_not_key (ty : value) (keys : list string) :
  visitor_keys ty = Ok keys -> is_key "context" keys = false.
Proof. apply visitor_keys_not_key. reflexivity. Qed.

Lemma key_is_not_context (k : string) (ty : value) (keys : list string) :
  visitor_keys ty = Ok keys -> is_key k keys = true -> String.eqb k "context" = false.
Proof.
  intros Hk Hkey. destruct (String.eqb k "context") eqn:E; [|reflexivity].
  apply String.eqb_eq in E. subst k. rewrite (context_not_key _ _ Hk) in Hkey.
  discriminate Hkey.
Qed.

(** A node that is not scope-defining keeps the [context] it had. *)
Lemma mark_context_kept (props : list (string * value)) :
  is_context (lookup_prop "type" props) = false ->
  field (mark (Obj props)) "context" = lookup_prop "context" props.
Proof.
  intros Hc. rewrite mark_eq. cbv zeta. rewrite Hc. unfold field. cbn [get].
  destruct (visitor_keys _) eqn:Hk; [|reflexivity].
  apply mark_props_lookup. exact (context_not_key _ _ Hk).
Qed.

Lemma is_context_types (ty : value) :
  is_context ty = true <->
  ty = Str "FunctionDeclaration" \/ ty = Str "FunctionExpression" \/ ty = Str "Program".
Proof.
  unfold is_context, contexts. cbn [existsb]. rewrite orb_false_r. split.
  - intros H. apply orb_true_iff in H as [H|H]; [|apply orb_true_iff in H as [H|H]];
      apply is_str_true in H; subst ty; auto.
  - intros [-> | [-> | ->]]; reflexivity.
Qed.

(** A value that is not a node is left as it is, under a visitor key
    too. *)
Lemma deref_step_kept (props : list (string * value)) (k : string) (i : option nat) :
  String.eqb k "context" = false ->
  isNode (deref (Obj props) [(k, i)]) = false ->
  (i = None -> forall elems, deref (Obj props) [(k, i)] <> Arr elems) ->
  deref (mark (Obj props)) [(k, i)] = deref (Obj props) [(k, i)].
Proof.
  intros Hne Hnode Harr. pose proof (mark_lookup props k Hne) as H.
  destruct (mark_obj props) as [Q HQ]. rewrite HQ in *.
  unfold field in H. cbn [get] in H. cbn [deref] in *.
  assert (Hcases : lookup_prop k Q = lookup_prop k props \/
                   lookup_prop k Q = mark_child mark (lookup_prop k props)).
  { rewrite H. destruct (visitor_keys _); [destruct (is_key k _)|]; auto. }
  destruct Hcases as [-> | ->]; [reflexivity|].
  destruct i as [n|].
  - destruct (lookup_prop k props) as [| | | | |elems|props0]; try reflexivity.
    + cbn [mark_child].
      change Undefined with ((fun e => if isNode e then mark e else e) Undefined) at 1.
      rewrite map_nth. rewrite Hnode. reflexivity.
    + cbn [mark_child]. destruct (isNode (Obj props0)); [|reflexivity].
      destruct (mark_obj props0) as [Q0 ->]. reflexivity.
  - destruct (lookup_prop k props) as [| | | | |elems|props0]; try reflexivity.
    + exfalso. exact (Harr eq_refl elems eq_refl).
    + cbn [mark_child]. rewrite Hnode. reflexivity.
Qed.

(** What a read finds on a node after the walk. *)
Lemma mark_node_reads (n : value) :
  field (mark n) "type" = field n "type" /\
  (field n "type" = Str "FunctionDeclaration" \/
   field n "type" = Str "FunctionExpression" \/
   field n "type" = Str "Program" -> field (mark n) "context" = Bool true) /\
  (field n "type" <> Str "FunctionDeclaration" ->
   field n "type" <> Str "FunctionExpression" ->
   field n "type" <> Str "Program" -> field (mark n) "context" = field n "context") /\
  (forall k keys, visitor_keys (field n "type") = Ok keys ->
     is_key k keys = false -> k <> "context" -> field (mark n) k = field n k) /\
  (forall k i, k <> "context" ->
     isNode (deref n [(k, i)]) = false ->
     (i = None -> forall elems, deref n [(k, i)] <> Arr elems) ->
     deref (mark n) [(k, i)] = deref n [(k, i)]).
Proof.
  destruct n as [| | | | | |props];
    try (split; [reflexivity|]; split;
         [intros H; vm_compute in H; destruct H as [H|[H|H]]; discriminate H|];
         repeat split; reflexivity).
  split; [apply mark_type|]. split.
  { intros H. apply mark_sets_context. apply is_context_types. exact H. }
  split.
  { intros H1 H2 H3. apply mark_context_kept.
    destruct (is_context (lookup_prop "type" props)) eqn:E; [|reflexivity].
    apply is_context_types in E. destruct E as [E|[E|E]]; contradiction. }
  split.
  { intros k keys Hk Hkey Hne. apply (mark_keeps_fields props keys k Hk Hkey).
    apply String.eqb_neq. exact Hne. }
  intros k i Hne Hnode Harr. apply deref_step_kept; [|exact Hnode|exact Harr].
  apply String.eqb_neq. exact Hne.
Qed.

Lemma deref_undefined (p : path) : deref Undefined p = Undefined.
Proof. destruct p as [|[k i] p]; reflexivity. Qed.

Lemma deref_cons (tree : value) (s : string * option nat) (p : path) :
  deref tree (s :: p) = deref (deref tree [s]) p.
Proof.
  destruct s as [k i]. cbn [deref].
  destruct tree; try (symmetry; apply deref_undefined).
  destruct i; [|reflexivity].
  destruct (lookup_prop k props); try (symmetry; apply deref_undefined). reflexivity.
Qed.

(** The child of a visited node, in the tree after the walk. *)
Lemma deref_step_mark (props : list (string * value)) (k : string) (i : option nat)
  (keys : list string) :
  visitor_keys (lookup_prop "type" props) = Ok keys ->
  is_key k keys = true ->
  isNode (deref (Obj props) [(k, i)]) = true ->
  deref (mark (Obj props)) [(k, i)] = mark (deref (Obj props) [(k, i)]).
Proof.
  intros Hk Hkey Hnode.
  pose proof (mark_lookup props k (key_is_not_context _ _ _ Hk Hkey)) as H.
  rewrite Hk, Hkey in H.
  destruct (mark_obj props) as [Q HQ]. rewrite HQ in *.
  unfold field in H. cbn [get] in H. cbn [deref] in *. rewrite H.
  destruct i as [n|].
  - destruct (lookup_prop k props) as [| | | | |elems|props0]; try discriminate Hnode.
    cbn [mark_child].
    change Undefined with ((fun e => if isNode e then mark e else e) Undefined) at 1.
    rewrite map_nth. rewrite Hnode. reflexivity.
  - destruct (lookup_prop k props) as [| | | | |elems|props0]; try discriminate Hnode.
    cbn [mark_child]. rewrite Hnode. reflexivity.
Qed.

(** The walk keeps the shape of the tree: a node it visits is at the
    same place after the walk, as [mark] leaves it. *)
Lemma visits_deref_mark (p : path) (tree : value) :
  visits tree p = true ->
  deref (mark tree) p = mark (deref tree p) /\ visits (mark tree) p = true.
Proof.
  revert tree. induction p as [|[k i] p IH]; intros tree Hv; [split; reflexivity|].
  cbn [visits] in Hv. destruct tree as [| | | | | |props]; try discriminate Hv.
  destruct (visitor_keys (lookup_prop "type" props)) as [keys|] eqn:Hk;
    [|discriminate Hv].
  apply andb_true_iff in Hv as [Hv Hrest]. apply andb_true_iff in Hv as [Hkey Hnode].
  destruct (IH _ Hrest) as [IH1 IH2].
  pose proof (deref_step_mark props k i keys Hk Hkey Hnode) as Hstep.
  split.
  - rewrite deref_cons, Hstep, IH1, <- deref_cons. reflexivity.
  - pose proof (mark_type props) as Hty.
    destruct (mark_obj props) as [Q HQ]. rewrite HQ in *.
    unfold field in Hty. cbn [get] in Hty.
    cbn [visits]. rewrite Hty, Hk, Hkey, Hstep, mark_isNode, Hnode, IH2. reflexivity.
Qed.
End mark_reads.

(** C10.  A run writes on the tree it is given, and the marks stay on
    it: after [analyze], on every scope-defining node the walk visited
    (function declaration, function expression, program), [context]
    reads [true] in the tree of the file; no other field of a visited
    node is written: its [type] and every field that is not a visitor
    key read as before, and so does [context] on a node that is not
    scope-defining; under a visitor key, a value or an array element that
    is not a node reads as before, and the nodes are the visited nodes,
    at the same places.  The whole tree is [mark] of the tree given. *)
Theorem analyze_marks_tree (src : Analyzer.SourceFile) (a a' : Analyzer.t) :
  Analyzer.analyze src a = Ok a' ->
  exists f,
    Analyzer.source a' = Some f /\
    Analyzer.ast f = mark (Analyzer.ast src) /\
    forall p, visits (Analyzer.ast src) p = true ->
      let n := deref (Analyzer.ast src) p in
      let n' := deref (Analyzer.ast f) p in
      visits (Analyzer.ast f) p = true /\
      field n' "type" = field n "type" /\
      (field n "type" = Str "FunctionDeclaration" \/
       field n "type" = Str "FunctionExpression" \/
       field n "type" = Str "Program" -> field n' "context" = Bool true) /\
      (field n "type" <> Str "FunctionDeclaration" ->
       field n "type" <> Str "FunctionExpression" ->
       field n "type" <> Str "Program" -> field n' "context" = field n "context") /\
      (forall k keys, estraverse.visitor_keys (field n "type") = Ok keys ->
         estraverse.is_key k keys = false -> k <> "context" -> field n' k = field n k) /\
      (forall k i, k <> "context" ->
         estraverse.isNode (deref n [(k, i)]) = false ->
         (i = None -> forall elems, deref n [(k, i)] <> Arr elems) ->
         deref n' [(k, i)] = deref n [(k, i)]).
Proof.
  intros Ha. unfold Analyzer.analyze in Ha.
  apply bind_Ok in Ha as ([tree a2] & Ht & Ha). injection Ha as <-. simpl.
  pose proof (traverse_marks _ _ _ _ Ht) as ->.
  destruct (traverse_source _ _ _ _ Ht) as [f Hf]; [simpl; eauto|].
  rewrite Hf. simpl. eexists. split; [reflexivity|]. simpl.
  split; [reflexivity|].
  intros p Hv. destruct (visits_deref_mark p _ Hv) as [Hd Hv'].
  rewrite Hd. split; [exact Hv'|]. apply mark_node_reads.
Qed.

Lemma analyze_marks_tree_witness :
  exists a' f,
    Examples.run Examples.foo_tree = Ok a' /\
    Analyzer.source a' = Some f /\
    Analyzer.ast f = mark Examples.foo_tree /\
    field (Analyzer.ast f) "context" = Bool true /\
    field (deref (Analyzer.ast f) [("body", Some O)]) "type" = Str "FunctionDeclaration" /\
    field (deref (Analyzer.ast f) [("body", Some O)]) "context" = Bool true /\
    field (deref Examples.foo_tree [("body", Some O)]) "context" = Undefined.
Proof.
  assert (H : exists a', Examples.run Examples.foo_tree = Ok a')
    by (eexists; vm_compute; reflexivity).
  destruct H as [a' Ha].
  destruct (analyze_marks_tree (Analyzer.mkSourceFile Examples.foo_tree [])
              (Analyzer.new []) a' Ha) as (f & Hf & Hm & Hr).
  exists a', f. split; [exact Ha|]. split; [exact Hf|]. split; [exact Hm|].
  destruct (Hr [] eq_refl) as (_ & _ & Hroot & _).
  destruct (Hr [("body", Some O)] eq_refl) as (_ & Hty & Hfn & _).
  split; [exact (Hroot (or_intror (or_intror eq_refl)))|]. split; [exact Hty|].
  split; [exact (Hfn (or_introl eq_refl))|]. reflexivity.
Defined.

(** ** Runs that reach the end *)

Section total.
Import estraverse Analyzer.

Local Abbreviation walk := (estraverse.walk Analyzer.t enter leave).

Lemma keys_of_no_context (table : list (string * list string)) (s : string)
  (keys : list string) :
  forallb (fun e => negb (is_key "context" (snd e))) table = true ->
  keys_of s table = Some keys -> is_key "context" keys = false.
Proof.
  induction table as [|[s' ks] table IH]; simpl; [discriminate|].
  intros Hall Hk. apply andb_true_iff in Hall as [H1 H2].
  destruct (String.eqb s s').
  - injection Hk as <-. apply negb_true_iff. exact H1.
  - apply IH; assumption.
Qed.

(** No visitor key is called [context]. *)
Lemma visitor_keys_no_context (ty : value) (keys : list string) :
  visitor_keys ty = Ok keys -> is_key "context" keys = false.
Proof.
  destruct ty; try discriminate. unfold visitor_keys.
  destruct (keys_of s VisitorKeys) as [ks|] eqn:Hk; [|discriminate].
  intros [= <-]. eapply keys_of_no_context; [|exact Hk]. reflexivity.
Qed.

Lemma add_total (num : Z) (a : t) :
  stack a <> [] ->
  exists a', add num a = Ok a' /\ stack a' = stack a /\ source a' = source a.
Proof.
  intros Hs. unfold add, context. destruct (last (stack a)) as [r|] eqn:Hl.
  - eexists. repeat split.
  - apply last_None in Hl. contradiction.
Qed.

Lemma process_total (props : list (string * value)) (a : t) :
  stack a <> [] ->
  negb (is_str (lookup_prop "type" props) syntax.SwitchCase)
    || presentb (lookup_prop "consequent" props) = true ->
  exists a', process (Obj props) a = Ok a' /\ stack a' = stack a /\ source a' = source a.
Proof.
  intros Hs Hcase. unfold process. cbn [get bind].
  assert (Hadd : forall num b, stack b = stack a -> source b = source a ->
            exists a', add num b = Ok a' /\ stack a' = stack a /\ source a' = source a).
  { intros num b Hb1 Hb2. destruct (add_total num b) as (a' & Ha' & H1 & H2);
      [congruence|]. exists a'. repeat split; congruence. }
  destruct (is_str _ syntax.FunctionExpression || is_str _ syntax.FunctionDeclaration);
    [apply Hadd; reflexivity|].
  destruct (is_str _ syntax.CallExpression); [apply Hadd; reflexivity|].
  destruct (is_str _ syntax.IfStatement).
  { unfold addIf. cbn [get bind].
    destruct (truthy (lookup_prop "alternate" props)).
    - destruct (Hadd (branch score) a eq_refl eq_refl) as (a1 & Ha1 & H1 & H2).
      rewrite Ha1. cbn [bind]. apply Hadd; assumption.
    - cbn [bind]. apply Hadd; reflexivity. }
  destruct (is_str _ syntax.SwitchCase) eqn:Hsc.
  { unfold addCase. cbn [get bind]. simpl in Hcase.
    destruct (lookup_prop "consequent" props); try discriminate Hcase;
      cbn [get bind]; apply Hadd; reflexivity. }
  destruct (is_str _ syntax.LogicalExpression).
  { unfold addLogical. cbn [get bind].
    destruct (is_str (lookup_prop "operator" props) "||");
      [apply Hadd; reflexivity | exists a; repeat split]. }
  clear Hcase.
  destruct (_ || _)%bool; [apply Hadd; reflexivity | exists a; repeat split].
Qed.

Lemma process_program (props : list (string * value)) (a : t) :
  is_str (lookup_prop "type" props) syntax.Program = true ->
  process (Obj props) a = Ok a.
Proof.
  intros Hty. apply is_str_true in Hty. unfold process. cbn [get bind].
  rewrite Hty. reflexivity.
Qed.

Lemma walk_elems_total (elems : list value) :
  Forall (fun v => well_formed v = true -> forall p pp a,
            stack a <> [] -> is_Some (source a) ->
            exists r a', walk p pp v a = Ok (r, a') /\
              stack a' = stack a /\ is_Some (source a')) elems ->
  forallb (fun e => negb (isNode e) || well_formed e) elems = true ->
  forall p k i a, stack a <> [] -> is_Some (source a) ->
    exists r a', walk_elems t walk p k i elems a = Ok (r, a') /\
      stack a' = stack a /\ is_Some (source a').
Proof.
  induction 1 as [|e elems He _ IH]; intros Hall p k i a Hs Hsrc; simpl.
  - exists [], a. repeat split. exact Hsrc.
  - simpl in Hall. apply andb_true_iff in Hall as [H1 H2].
    assert (Hfirst : exists e' a1,
              (if isNode e then walk (p ++ [(k, Some i)]) (Some p) e a else Ok (e, a))
              = Ok (e', a1) /\ stack a1 = stack a /\ is_Some (source a1)).
    { destruct (isNode e); [|exists e, a; repeat split; exact Hsrc].
      apply He; assumption. }
    destruct Hfirst as (e' & a1 & -> & Hs1 & Hsrc1). cbn [bind].
    destruct (IH H2 p k (S i) a1) as (r & a2 & -> & Hs2 & Hsrc2);
      [congruence | exact Hsrc1 |].
    cbn [bind]. exists (e' :: r), a2. repeat split; [congruence | exact Hsrc2].
Qed.

Lemma walk_props_total (props : list (string * value)) :
  Forall (fun kv => child_ok well_formed (snd kv) = true -> forall p k a,
            stack a <> [] -> is_Some (source a) ->
            exists r a', walk_child t walk p k (snd kv) a = Ok (r, a') /\
              stack a' = stack a /\ is_Some (source a')) props ->
  forall keys,
  forallb (fun '(k, v) => negb (is_key k keys) || child_ok well_formed v) props = true ->
  forall p a, stack a <> [] -> is_Some (source a) ->
    exists r a', walk_props t walk keys p props a = Ok (r, a') /\
      stack a' = stack a /\ is_Some (source a') /\
      (forall k, is_key k keys = false -> lookup_prop k r = lookup_prop k props).
Proof.
  induction 1 as [|[k v] props Hv _ IH]; intros keys Hall p a Hs Hsrc; simpl.
  - exists [], a. repeat split. exact Hsrc.
  - simpl in Hall. apply andb_true_iff in Hall as [H1 H2].
    assert (Hfirst : exists v' a1,
              (if is_key k keys then walk_child t walk p k v a else Ok (v, a))
              = Ok (v', a1) /\ stack a1 = stack a /\ is_Some (source a1) /\
              (is_key k keys = false -> v' = v)).
    { destruct (is_key k keys); [|exists v, a; repeat split; exact Hsrc].
      destruct (Hv H1 p k a Hs Hsrc) as (v' & a1 & Hw & Hs1 & Hsrc1).
      exists v', a1. repeat split; try assumption. discriminate. }
    destruct Hfirst as (v' & a1 & -> & Hs1 & Hsrc1 & Hv'). cbn [bind].
    destruct (IH keys H2 p a1) as (r & a2 & -> & Hs2 & Hsrc2 & Hr);
      [congruence | exact Hsrc1 |].
    cbn [bind]. exists ((k, v') :: r), a2.
    repeat split; [congruence | exact Hsrc2 |].
    intros k0 Hk0. simpl. destruct (String.eqb k0 k) eqn:E; [|apply Hr; exact Hk0].
    apply String.eqb_eq in E. subst k0. apply Hv'. exact Hk0.
Qed.

Lemma program_is_context (ty : value) :
  is_str ty syntax.Program = true -> is_context ty = true.
Proof. intros H. apply is_str_true in H. subst. reflexivity. Qed.

Lemma enter_total (props : list (string * value)) (a : t) (p : path) (pp : option path) :
  stack a <> [] \/ is_str (lookup_prop "type" props) syntax.Program = true ->
  negb (is_str (lookup_prop "type" props) syntax.SwitchCase)
    || presentb (lookup_prop "consequent" props) = true ->
  is_Some (source a) ->
  exists a1,
    enter p pp (Obj props) a =
      Ok (if is_context (lookup_prop "type" props) then [("context", Bool true)] else [],
          a1) /\
    is_Some (source a1) /\
    (if is_context (lookup_prop "type" props)
     then exists n, stack a1 = stack a ++ [n]
     else stack a1 = stack a).
Proof.
  intros Hready Hcase Hsrc.
  assert (Hproc : exists a1, process (Obj props) a = Ok a1 /\
            stack a1 = stack a /\ source a1 = source a).
  { destruct Hready as [Hs|Hprog]; [apply process_total; assumption|].
    exists a. rewrite (process_program props a Hprog). repeat split. }
  destruct Hproc as (a1 & Hp & Hs1 & Hsrc1).
  unfold enter. rewrite Hp. cbn [bind get].
  destruct (is_context (lookup_prop "type" props)).
  - destruct Hsrc as [f Hf]. unfold pushContext. rewrite Hsrc1, Hf. cbn [bind].
    eexists. split; [reflexivity|]. simpl. split; [eauto|].
    exists (length (records a1)). rewrite Hs1. reflexivity.
  - exists a1. split; [reflexivity|]. split; [rewrite Hsrc1; exact Hsrc | exact Hs1].
Qed.

Lemma walk_total_both (v : value) :
  (well_formed v = true -> forall p pp a,
     stack a <> [] \/ is_str (field v "type") syntax.Program = true ->
     is_Some (source a) ->
     exists r a', walk p pp v a = Ok (r, a') /\
       stack a' = stack a /\ is_Some (source a')) /\
  (child_ok well_formed v = true -> forall p k a,
     stack a <> [] -> is_Some (source a) ->
     exists r a', walk_child t walk p k v a = Ok (r, a') /\
       stack a' = stack a /\ is_Some (source a')).
Proof.
  induction v as [| | b | n | str | elems IH | props IH] using value_nested_ind.
  1-5: split; [discriminate|]; intros _ p k a Hs Hsrc; simpl;
    eexists _, a; split; [reflexivity|]; split; [reflexivity | exact Hsrc].
  - split; [discriminate|]. intros Hc p k a Hs Hsrc. simpl in Hc. simpl.
    destruct (walk_elems_total elems) with (p := p) (k := k) (i := O) (a := a)
      as (r & a' & -> & Hs' & Hsrc'); try assumption.
    { eapply Forall_impl; [exact IH|]. intros e [He _] Hwf p0 pp0 a0 Hs0 Hsrc0.
      apply He; [exact Hwf | left; exact Hs0 | exact Hsrc0]. }
    cbn [bind]. eexists _, a'. split; [reflexivity|]. split; assumption.
  - assert (Hk : well_formed (Obj props) = true -> forall p pp a,
              stack a <> [] \/ is_str (field (Obj props) "type") syntax.Program = true ->
              is_Some (source a) ->
              exists r a', walk p pp (Obj props) a = Ok (r, a') /\
                stack a' = stack a /\ is_Some (source a')).
    { intros Hwf p pp a Hready Hsrc. cbn [well_formed] in Hwf.
      change (field (Obj props) "type") with (lookup_prop "type" props) in Hready.
      destruct (visitor_keys (lookup_prop "type" props)) as [keys|] eqn:Hkeys;
        [|discriminate].
      apply andb_true_iff in Hwf as [Hwf H3]. apply andb_true_iff in Hwf as [H1 H2].
      assert (IH' : Forall (fun kv => child_ok well_formed (snd kv) = true ->
                 forall p k a, stack a <> [] -> is_Some (source a) ->
                 exists r a', walk_child t walk p k (snd kv) a = Ok (r, a') /\
                   stack a' = stack a /\ is_Some (source a')) props).
      { eapply Forall_impl; [exact IH|]. intros kv [_ Hc]. exact Hc. }
      destruct (enter_total props a p pp Hready H2 Hsrc) as (a1 & He & Hsrc1 & Hst1).
      rewrite walk_unfold. rewrite He. cbn [bind].
      destruct (is_context (lookup_prop "type" props)) eqn:Hctx.
      - destruct Hst1 as [n Hst1].
        cbn [assign fold_left set fst snd get].
        rewrite lookup_assign_ne by reflexivity. cbn [bind]. rewrite Hkeys. cbn [bind].
        destruct (walk_props_total props IH' keys H3 p a1)
          as (props' & a3 & Hw & Hs3 & Hsrc3 & Hlk);
          [rewrite Hst1; intros Hnil; apply app_eq_nil in Hnil as [_ Hnil];
           discriminate Hnil
          | exact Hsrc1 |].
        rewrite Hw. cbn [bind assign fold_left set fst snd].
        unfold leave. cbn [get bind]. rewrite lookup_assign_eq. cbn [truthy bind].
        eexists _, _. split; [reflexivity|]. simpl. split; [|exact Hsrc3].
        rewrite Hs3, Hst1. apply removelast_last.
      - assert (Hs : stack a <> []).
        { destruct Hready as [Hs|Hprog]; [exact Hs|].
          rewrite (program_is_context _ Hprog) in Hctx. discriminate. }
        cbn [bind assign fold_left get]. rewrite Hkeys. cbn [bind].
        destruct (walk_props_total props IH' keys H3 p a1)
          as (props' & a3 & Hw & Hs3 & Hsrc3 & Hlk);
          [congruence | exact Hsrc1 |].
        rewrite Hw. cbn [bind assign fold_left].
        unfold leave. cbn [get bind].
        rewrite (Hlk "context" (visitor_keys_no_context _ _ Hkeys)).
        simpl in H1. apply negb_true_iff in H1. rewrite H1.
        eexists _, _. split; [reflexivity|]. split; [congruence | exact Hsrc3]. }
    split; [exact Hk|].
    intros Hc p k a Hs Hsrc. unfold walk_child. unfold child_ok in Hc.
    destruct (isNode (Obj props)).
    + apply Hk; [exact Hc | left; exact Hs | exact Hsrc].
    + eexists _, a. split; [reflexivity|]. split; [reflexivity | exact Hsrc].
Qed.

(** A run on a well-formed program reaches the end, with the stack empty
    again. *)
Lemma analyze_total (src : SourceFile) (a : t) :
  well_formed (ast src) = true ->
  is_str (field (ast src) "type") syntax.Program = true ->
  exists a', analyze src a = Ok a' /\ stack a' = [].
Proof.
  intros Hwf Hprog. unfold analyze, traverse.
  assert (Ht : truthy (ast src) = true) by (destruct (ast src); try discriminate; reflexivity).
  rewrite Ht. cbn [negb]. unfold estraverse.traverse.
  destruct (proj1 (walk_total_both (ast src)) Hwf [] None (mk [] (Some src) (records a)))
    as (r & a' & Hw & Hs & Hsrc); [right; exact Hprog | simpl; eauto |].
  rewrite Hw. cbn [bind]. eexists. split; [reflexivity|]. simpl. exact Hs.
Qed.
End total.

(** The trees of the examples are well formed. *)
Lemma examples_well_formed :
  well_formed Examples.foo_tree = true /\
  well_formed Examples.var_tree = true /\
  well_formed Examples.abc_tree = true.
Proof. repeat split; vm_compute; reflexivity. Qed.

(** On the records of a run [score()] returns, and is the sum stated
    above. *)
Lemma score_after_analyze (src : Analyzer.SourceFile) (a a' : Analyzer.t)
  (r : nat) (c : Context.t) :
  depth_ok (Analyzer.records a) -> wf_store (Analyzer.records a) ->
  Analyzer.analyze src a = Ok a' ->
  Analyzer.records a' !! r = Some c ->
  exists scores,
    mapM (Context.score (Analyzer.records a')) (Context.children c) = Some scores /\
    Context.score (Analyzer.records a') r = Some (Context._score c + sum scores).
Proof.
  intros Hd Hwf Ha Hc.
  exact (score_unfold _ (analyze_wf_store src a a' Hd Hwf Ha) r c Hc).
Qed.

(** * Further properties of the code *)

(** ** Signatures, locations and reports *)

Section signature_more.
Import Context.

Lemma search_unfold (fuel : nat) (obj : value) (ret : list value) :
  search (S fuel) obj ret =
  let* object := get obj "object" in
  let* ty := get object "type" in
  let* ret1 :=
    (if is_str ty syntax.MemberExpression then search fuel object ret
     else let* name := get object "name" in Ok (ret ++ [name])) in
  let* property := get obj "property" in
  let* name := get property "name" in
  let* segment :=
    (if truthy name then Ok name else
     let* val := get property "value" in
     Ok (or_else val (Str "?"))) in
  Ok (ret1 ++ [segment]).
Proof. reflexivity. Qed.

Lemma bind_type_error {A B} (r : result A) (k : A -> result B) :
  (forall e, r = Throw e -> e = TypeError) ->
  (forall x e, r = Ok x -> k x = Throw e -> e = TypeError) ->
  forall e, bind r k = Throw e -> e = TypeError.
Proof.
  intros H1 H2 e. destruct r as [x|e']; simpl.
  - apply H2. reflexivity.
  - intros [= <-]. apply H1. reflexivity.
Qed.

Lemma search_type_error (fuel : nat) :
  forall obj ret e, (height obj < fuel)%nat ->
    search fuel obj ret = Throw e -> e = TypeError.
Proof.
  intros obj ret e Hf Hs.
  destruct e; [reflexivity| |exfalso; exact (search_fuel_enough fuel obj ret Hf Hs)].
  exfalso. revert obj ret Hf Hs.
  induction fuel as [|fuel IH]; intros obj ret Hf Hs; [lia|]. rewrite search_unfold in Hs.
  destruct (get obj "object") as [o|e1] eqn:Ho; cbn [bind] in Hs;
    [|apply get_Throw in Ho; congruence].
  destruct (get o "type") as [ty|e2] eqn:Hty; cbn [bind] in Hs;
    [|apply get_Throw in Hty; congruence].
  destruct (is_str ty syntax.MemberExpression) eqn:Hmem.
  - destruct (search fuel o ret) as [ret1|e3] eqn:Hrec; cbn [bind] in Hs.
    + destruct (get obj "property") as [p|e4] eqn:Hp; cbn [bind] in Hs;
        [|apply get_Throw in Hp; congruence].
      destruct (get p "name") as [n|e5] eqn:Hn; cbn [bind] in Hs;
        [|apply get_Throw in Hn; congruence].
      destruct (truthy n); cbn [bind] in Hs; [discriminate|].
      destruct (get p "value") as [x|e6] eqn:Hv; cbn [bind] in Hs;
        [discriminate | apply get_Throw in Hv; congruence].
    + injection Hs as ->. apply (IH o ret); [|exact Hrec].
      destruct ty; try discriminate Hmem.
      destruct (get_Str_Obj _ _ Hty) as (oprops & ->).
      destruct obj; simpl in Ho; try discriminate Ho.
      injection Ho as Ho. rewrite <- Ho.
      pose proof (height_lookup "object" props). lia.
  - destruct (get o "name") as [n0|e3] eqn:Hn0; cbn [bind] in Hs;
      [|apply get_Throw in Hn0; congruence].
    destruct (get obj "property") as [p|e4] eqn:Hp; cbn [bind] in Hs;
      [|apply get_Throw in Hp; congruence].
    destruct (get p "name") as [n|e5] eqn:Hn; cbn [bind] in Hs;
      [|apply get_Throw in Hn; congruence].
    destruct (truthy n); cbn [bind] in Hs; [discriminate|].
    destruct (get p "value") as [x|e6] eqn:Hv; cbn [bind] in Hs;
      [discriminate | apply get_Throw in Hv; congruence].
Qed.

(** The only error [signature()] raises is a [TypeError]. *)
Lemma signature_type_error (node parent : value) (e : error) :
  signature node parent = Throw e -> e = TypeError.
Proof.
  revert e. unfold signature, main, named, vardec, assignment.
  repeat first
    [ match goal with
      | |- forall e, (if ?b then _ else _) = Throw e -> _ => destruct b
      | |- forall e, get _ _ = Throw e -> _ => intros e; apply get_Throw
      | |- forall e, search _ _ _ = Throw e -> _ =>
          intros e; apply search_type_error; lia
      | |- forall e, Ok _ = Throw e -> _ => discriminate
      end
    | apply bind_type_error; [|intros ? e _; revert e] ].
Qed.
End signature_more.

(** X1.  A function with a declared name has that name for signature,
    whatever its parent node is, also when there is none: the parent is
    not read. *)
Theorem signature_named (node parent ty id name : value) :
  get node "type" = Ok ty ->
  is_str ty syntax.Program = false ->
  get node "id" = Ok id ->
  get id "name" = Ok name ->
  truthy name = true ->
  Context.signature node parent = Ok name.
Proof.
  intros Hty Hprog Hid Hname Ht.
  assert (Htid : truthy id = true).
  { destruct id; simpl in Hname; try discriminate Hname; try reflexivity;
      injection Hname as <-; try discriminate Ht;
      destruct (String.eqb "name" "length"); discriminate Ht. }
  unfold Context.signature, Context.main, Context.named.
  rewrite Hty. cbn [bind]. rewrite Hprog. cbn [bind truthy].
  rewrite Hid. cbn [bind]. rewrite Htid. cbn [negb]. rewrite Hname. cbn [bind].
  rewrite Ht. cbn [negb bind]. rewrite Ht. reflexivity.
Qed.

Lemma signature_named_witness :
  Context.signature (esprima.FunctionExpression (esprima.Identifier "foo") []) Null
  = Ok (Str "foo").
Proof.
  exact (signature_named (esprima.FunctionExpression (esprima.Identifier "foo") []) Null
           (Str "FunctionExpression") (esprima.Identifier "foo") (Str "foo")
           eq_refl eq_refl eq_refl eq_refl eq_refl).
Defined.

(** X2.  For a function with no declared name whose parent node is a
    variable declarator with an id, the signature is the name of the id
    when it has one, and ['anonymous'] when it has none (the id is a
    pattern): the assignment rule does not apply to a declarator. *)
Theorem signature_declarator (node parent ty id : value) :
  get node "type" = Ok ty ->
  is_str ty syntax.Program = false ->
  Context.named node = Ok Undefined ->
  get parent "type" = Ok (Str syntax.VariableDeclarator) ->
  get parent "id" = Ok id ->
  present id ->
  Context.signature node parent = Ok (or_else (field id "name") (Str "anonymous")).
Proof.
  intros Hty Hprog Hnamed Hpty Hid Hpres.
  unfold Context.signature, Context.main, Context.vardec, Context.assignment.
  rewrite Hty. cbn [bind]. rewrite Hprog. cbn [bind truthy].
  rewrite Hnamed. cbn [bind truthy]. rewrite Hpty. cbn. rewrite Hid. cbn [bind].
  rewrite (present_get id "name" Hpres). cbn [bind]. unfold or_else.
  destruct (truthy (field id "name")); reflexivity.
Qed.

Lemma signature_declarator_witness :
  Context.signature (esprima.FunctionExpression Null [])
    (esprima.VariableDeclarator
       (Obj [("type", Str "ObjectPattern"); ("properties", Arr [])])
       (esprima.FunctionExpression Null []))
  = Ok (Str "anonymous").
Proof.
  refine (signature_declarator (esprima.FunctionExpression Null [])
            (esprima.VariableDeclarator
               (Obj [("type", Str "ObjectPattern"); ("properties", Arr [])])
               (esprima.FunctionExpression Null []))
            (Str "FunctionExpression")
            (Obj [("type", Str "ObjectPattern"); ("properties", Arr [])])
            eq_refl eq_refl eq_refl eq_refl eq_refl _).
  split; discriminate.
Defined.

(** X3.  Whenever [signature()] returns, it returns a truthy value: never
    [undefined], [null] or the empty string. *)
Theorem signature_truthy (node parent v : value) :
  Context.signature node parent = Ok v -> truthy v = true.
Proof.
  unfold Context.signature. intros H.
  repeat match type of H with
  | bind _ _ = Ok _ =>
      let x := fresh "x" in
      let E := fresh "E" in
      let T := fresh "T" in
      apply bind_Ok in H as (x & E & H); cbv beta in H;
      destruct (truthy x) eqn:T; [injection H as <-; exact T|]
  end.
  injection H as <-. reflexivity.
Qed.

Lemma signature_truthy_witness :
  Context.signature (esprima.FunctionExpression Null []) Examples.abc_assignment
  = Ok (Str "a.b.c") /\
  truthy (Str "a.b.c") = true.
Proof.
  split; [reflexivity|].
  exact (signature_truthy (esprima.FunctionExpression Null []) Examples.abc_assignment
           (Str "a.b.c") eq_refl).
Defined.

(** X4.  The report of the record of a program never reads the parent
    node or the location of the node: on a store without cycles
    [toJSON()] returns the score, ['*'] and 0. *)
Theorem toJSON_program (h : Context.store) (tree : value) (r : nat) (c : Context.t) :
  wf_store h ->
  h !! r = Some c ->
  get (deref tree (Context.node c)) "type" = Ok (Str syntax.Program) ->
  exists s,
    Context.score h r = Some s /\
    Context.toJSON h tree r =
      Some (Ok (Obj [("score", Num s); ("signature", Str "*"); ("location", Num 0)])).
Proof.
  intros Hwf Hc Hty.
  destruct (score_unfold h Hwf r c Hc) as (scores & _ & Hs).
  eexists. split; [exact Hs|].
  unfold Context.toJSON. rewrite Hc, Hs.
  unfold Context.signature_of, Context.signature, Context.main,
    Context.location, Context.root.
  rewrite Hty. reflexivity.
Qed.

Lemma toJSON_program_witness :
  exists s,
    Context.score (Examples.records_of (Examples.run Examples.foo_tree)) 0 = Some s /\
    Context.toJSON (Examples.records_of (Examples.run Examples.foo_tree))
      (Examples.tree_of (Examples.run Examples.foo_tree)) 0 =
      Some (Ok (Obj [("score", Num s); ("signature", Str "*"); ("location", Num 0)])).
Proof.
  refine (toJSON_program (Examples.records_of (Examples.run Examples.foo_tree))
            (Examples.tree_of (Examples.run Examples.foo_tree)) O
            (Context.mk [] None [1%nat] 3 0) _ eq_refl eq_refl).
  intros [|[|r]] c Hc; vm_compute in Hc; try discriminate Hc; injection Hc as <-;
    vm_compute; repeat constructor.
Defined.

(** X5.  When the node of a record is not a program and carries no
    location data (no [loc] property), [toJSON()] raises a [TypeError]:
    [location()] reads [loc.start] without a guard. *)
Theorem toJSON_without_loc (h : Context.store) (tree : value) (r : nat)
  (c : Context.t) (ty : value) :
  wf_store h ->
  h !! r = Some c ->
  get (deref tree (Context.node c)) "type" = Ok ty ->
  is_str ty syntax.Program = false ->
  get (deref tree (Context.node c)) "loc" = Ok Undefined ->
  Context.location (deref tree (Context.node c)) = Throw TypeError /\
  Context.toJSON h tree r = Some (Throw TypeError).
Proof.
  intros Hwf Hc Hty Hprog Hloc.
  assert (Hl : Context.location (deref tree (Context.node c)) = Throw TypeError).
  { unfold Context.location, Context.root. rewrite Hty. cbn [bind]. rewrite Hprog.
    rewrite Hloc. reflexivity. }
  split; [exact Hl|].
  destruct (score_unfold h Hwf r c Hc) as (scores & _ & Hs).
  unfold Context.toJSON. rewrite Hc, Hs. f_equal.
  destruct (Context.signature_of tree c) as [sig|e] eqn:Hsig; cbn [bind].
  - rewrite Hl. reflexivity.
  - apply signature_type_error in Hsig. subst. reflexivity.
Qed.

Lemma toJSON_without_loc_witness :
  Context.location (deref (Examples.tree_of (Examples.run Examples.foo_tree))
                      [("body", Some O)]) = Throw TypeError /\
  Context.toJSON (Examples.records_of (Examples.run Examples.foo_tree))
    (Examples.tree_of (Examples.run Examples.foo_tree)) 1 = Some (Throw TypeError).
Proof.
  refine (toJSON_without_loc (Examples.records_of (Examples.run Examples.foo_tree))
            (Examples.tree_of (Examples.run Examples.foo_tree)) 1
            (Context.mk [("body", Some O)] (Some []) [] 22 1)
            (Str "FunctionDeclaration") _ eq_refl eq_refl eq_refl eq_refl).
  intros [|[|r]] c Hc; vm_compute in Hc; try discriminate Hc; injection Hc as <-;
    vm_compute; repeat constructor.
Defined.

(** ** The table of scoring rules *)

Section weights.
Import Analyzer.

Lemma node_weight_nonneg (node : value) : 0 <= node_weight node.
Proof.
  unfold node_weight.
  repeat match goal with |- context [if ?b then _ else _] => destruct b end; lia.
Qed.

(** With an active record, [process] adds the weight of the node. *)
Lemma process_weight (node : value) (a : t) (r : nat) (c : Context.t) :
  present node ->
  (is_str (field node "type") syntax.SwitchCase = true ->
   present (field node "consequent")) ->
  context a = Some r ->
  records a !! r = Some c ->
  exists a', process node a = Ok a' /\
    (node_weight node = 0 -> a' = a) /\
    (node_weight node <> 0 -> scored (node_weight node) a a').
Proof.
  intros Hn Hcase Hr Hc.
  assert (Hadd : forall num, num <> 0 ->
            exists a', add num a = Ok a' /\ (num = 0 -> a' = a) /\
              (num <> 0 -> scored num a a')).
  { intros num Hnum. destruct (add_scored num a r c Hr Hc) as (a' & Ha & Hs).
    exists a'. split; [exact Ha|]. split; [contradiction | intros _; exact Hs]. }
  unfold process, node_weight. rewrite (present_get node "type" Hn). cbn [bind].
  destruct (is_str _ syntax.FunctionExpression || is_str _ syntax.FunctionDeclaration);
    [apply Hadd; discriminate|].
  destruct (is_str _ syntax.CallExpression); [apply Hadd; discriminate|].
  destruct (is_str _ syntax.IfStatement).
  { unfold addIf. rewrite (present_get node "alternate" Hn). cbn [bind].
    destruct (truthy (field node "alternate")).
    - destruct (add_scored 10 a r c Hr Hc) as (a1 & Ha1 & Hs1).
      change (branch score) with 10. rewrite Ha1. cbn [bind].
      destruct (scored_active 10 a a1 Hs1) as (r1 & c1 & Hr1 & Hc1).
      destruct (add_scored 10 a1 r1 c1 Hr1 Hc1) as (a2 & Ha2 & Hs2).
      exists a2. split; [exact Ha2|]. split; [discriminate|]. intros _.
      exact (scored_twice 10 10 a a1 a2 Hs1 Hs2).
    - cbn [bind]. apply Hadd. discriminate. }
  destruct (is_str _ syntax.SwitchCase) eqn:Hsc.
  { unfold addCase. rewrite (present_get node "consequent" Hn). cbn [bind].
    rewrite (present_get _ "length" (Hcase eq_refl)). cbn [bind].
    destruct (truthy _); apply Hadd; discriminate. }
  destruct (is_str _ syntax.LogicalExpression).
  { unfold addLogical. rewrite (present_get node "operator" Hn). cbn [bind].
    destruct (is_str (field node "operator") "||"); [apply Hadd; discriminate|].
    exists a. split; [reflexivity|]. split; [reflexivity | contradiction]. }
  clear Hcase.
  destruct (_ || _)%bool; [apply Hadd; discriminate|].
  exists a. split; [reflexivity|]. split; [reflexivity | contradiction].
Qed.
End weights.





Section without_scope.
Import Analyzer.

Lemma add_without_scope (num : Z) (a : t) :
  stack a = [] -> add num a = Throw TypeError.
Proof. intros Hs. unfold add, context. rewrite Hs. reflexivity. Qed.

Lemma process_without_scope (node : value) (a : t) :
  stack a = [] -> node_weight node <> 0 -> process node a = Throw TypeError.
Proof.
  intros Hs Hw. pose proof (add_without_scope) as Hadd.
  assert (Hn : present node).
  { destruct node; try (split; discriminate); exfalso; apply Hw; reflexivity. }
  unfold process. unfold node_weight in Hw.
  rewrite (present_get node "type" Hn). cbn [bind].
  destruct (is_str _ syntax.FunctionExpression || is_str _ syntax.FunctionDeclaration);
    [apply Hadd; exact Hs|].
  destruct (is_str _ syntax.CallExpression); [apply Hadd; exact Hs|].
  destruct (is_str _ syntax.IfStatement).
  { unfold addIf. rewrite (present_get node "alternate" Hn). cbn [bind].
    destruct (truthy _); [rewrite (Hadd _ a Hs); reflexivity|].
    cbn [bind]. apply Hadd; exact Hs. }
  destruct (is_str _ syntax.SwitchCase).
  { unfold addCase. rewrite (present_get node "consequent" Hn). cbn [bind].
    destruct (get (field node "consequent") "length") as [len|e] eqn:Hlen; cbn [bind].
    - apply Hadd; exact Hs.
    - apply get_Throw in Hlen. subst. reflexivity. }
  destruct (is_str _ syntax.LogicalExpression).
  { unfold addLogical. rewrite (present_get node "operator" Hn). cbn [bind].
    destruct (is_str (field node "operator") "||"); [apply Hadd; exact Hs|].
    exfalso. apply Hw. reflexivity. }
  destruct (_ || _)%bool; [apply Hadd; exact Hs|].
  exfalso. apply Hw. reflexivity.
Qed.
End without_scope.

(** X8.  A scored construct needs an enclosing scope.  When the stack is
    empty, visiting a node of non-zero weight raises a [TypeError]; so
    [analyze] raises on a tree whose root is a scored node (a function, a
    call, a branch) instead of a program. *)
Theorem analyze_without_program (src : Analyzer.SourceFile) (a : Analyzer.t) :
  node_weight (Analyzer.ast src) <> 0 ->
  (forall p pp b, Analyzer.stack b = [] ->
     Analyzer.enter p pp (Analyzer.ast src) b = Throw TypeError) /\
  Analyzer.analyze src a = Throw TypeError.
Proof.
  intros Hw.
  assert (He : forall p pp b, Analyzer.stack b = [] ->
            Analyzer.enter p pp (Analyzer.ast src) b = Throw TypeError).
  { intros p pp b Hs. unfold Analyzer.enter.
    rewrite (process_without_scope _ b Hs Hw). reflexivity. }
  split; [exact He|].
  assert (Ht : truthy (Analyzer.ast src) = true).
  { destruct (Analyzer.ast src); try reflexivity; exfalso; apply Hw; reflexivity. }
  unfold Analyzer.analyze, Analyzer.traverse. rewrite Ht. cbn [negb].
  unfold estraverse.traverse. rewrite walk_unfold. rewrite He by reflexivity.
  reflexivity.
Qed.

Lemma analyze_without_program_witness :
  Examples.run (esprima.FunctionDeclaration "foo" []) = Throw TypeError.
Proof.
  refine (proj2 (analyze_without_program
            (Analyzer.mkSourceFile (esprima.FunctionDeclaration "foo" []) [])
            (Analyzer.new []) _)).
  vm_compute. discriminate.
Defined.

(** ** What a walk adds up *)

Section walk_sums.
Import estraverse.
Variable S : Type.
Variable enter : path -> option path -> value -> S -> result (list (string * value) * S).
Variable leave : value -> S -> result S.
Variable P : S -> Prop.
Variable m : S -> Z.
Variable f : value -> Z.
Hypothesis enter_P : forall p pp n s w s', P s -> enter p pp n s = Ok (w, s') -> P s'.
Hypothesis leave_P : forall n s s', P s -> leave n s = Ok s' -> P s'.
Hypothesis enter_m : forall p pp n s w s',
  P s -> enter p pp n s = Ok (w, s') -> m s' = m s + f n.
Hypothesis leave_m : forall n s s', P s -> leave n s = Ok s' -> m s' = m s.
Hypothesis enter_type : forall p pp n s w s',
  enter p pp n s = Ok (w, s') -> get (assign w n) "type" = get n "type".

Local Abbreviation walk := (estraverse.walk S enter leave).

Lemma walk_elems_sum (elems : list value) :
  Forall (fun v => forall p pp s r s', P s -> walk p pp v s = Ok (r, s') ->
            m s' = m s + tree_sum f v) elems ->
  forall p k i s r s', P s -> walk_elems S walk p k i elems s = Ok (r, s') ->
    m s' = m s + sum (map (fun e => if isNode e then tree_sum f e else 0) elems).
Proof.
  induction 1 as [|e elems He _ IH]; intros p k i s r s' Hs Hw; simpl in Hw.
  - inv_ok. unfold sum. simpl. lia.
  - inv_ok. cbn [map]. unfold sum. cbn [foldr]. fold (sum (map
      (fun e => if isNode e then tree_sum f e else 0) elems)).
    match goal with
    | H : walk_elems _ _ _ _ _ _ ?s1 = Ok _ |- _ =>
        assert (Hs1 : P s1 /\ m s1 = m s + (if isNode e then tree_sum f e else 0))
    end.
    { destruct (isNode e).
      - split; [eapply (walk_keeps S enter leave P enter_P leave_P); eassumption|].
        eapply He; eassumption.
      - inv_ok. split; [exact Hs | lia]. }
    destruct Hs1 as [Hs1 Hm1].
    erewrite IH; [|exact Hs1|eassumption]. lia.
Qed.

Lemma walk_child_keeps (v : value) p k s r s' :
  P s -> walk_child S walk p k v s = Ok (r, s') -> P s'.
Proof. apply (proj2 (walk_keeps_both S enter leave P enter_P leave_P v)). Qed.

Lemma walk_props_sum (props : list (string * value)) :
  Forall (fun kv => forall p k s r s', P s ->
            walk_child S walk p k (snd kv) s = Ok (r, s') ->
            m s' = m s + tree_sum_child (tree_sum f) (snd kv)) props ->
  forall keys p s r s', P s -> walk_props S walk keys p props s = Ok (r, s') ->
    m s' = m s + tree_sum_props (tree_sum f) keys props.
Proof.
  induction 1 as [|[k v] props Hv _ IH]; intros keys p s r s' Hs Hw; simpl in Hw.
  - inv_ok. unfold tree_sum_props, sum. simpl. lia.
  - inv_ok. unfold tree_sum_props. cbn [map]. unfold sum. cbn [foldr].
    fold (sum (map (fun '(k, v) => if is_key k keys
                                  then tree_sum_child (tree_sum f) v else 0) props)).
    fold (tree_sum_props (tree_sum f) keys props).
    match goal with
    | H : walk_props _ _ _ _ _ ?s1 = Ok _ |- _ =>
        assert (Hs1 : P s1 /\
                  m s1 = m s + (if is_key k keys
                                then tree_sum_child (tree_sum f) v else 0))
    end.
    { destruct (is_key k keys).
      - split; [eapply walk_child_keeps; eassumption|].
        eapply Hv; eassumption.
      - inv_ok. split; [exact Hs | lia]. }
    destruct Hs1 as [Hs1 Hm1].
    erewrite IH; [|exact Hs1|eassumption]. lia.
Qed.

Lemma walk_sum_both (v : value) :
  (forall p pp s r s', P s -> walk p pp v s = Ok (r, s') -> m s' = m s + tree_sum f v) /\
  (forall p k s r s', P s -> walk_child S walk p k v s = Ok (r, s') ->
     m s' = m s + tree_sum_child (tree_sum f) v).
Proof.
  induction v as [| | b | n | str | elems IH | props IH] using value_nested_ind.
  1-5: split;
    [ intros p pp s r s' Hs Hw; rewrite walk_unfold in Hw; inv_ok;
      match goal with
      | He : enter _ _ _ _ = Ok _, Hl : leave _ _ = Ok _ |- _ =>
          rewrite (leave_m _ _ _ (enter_P _ _ _ _ _ _ Hs He) Hl);
          rewrite (enter_m _ _ _ _ _ _ Hs He); cbn [tree_sum]; lia
      end
    | intros p k s r s' Hs Hw; simpl in Hw; inv_ok; simpl; lia ].
  - split.
    + intros p pp s r s' Hs Hw. rewrite walk_unfold in Hw. inv_ok.
      match goal with
      | He : enter _ _ _ _ = Ok _, Hl : leave _ _ = Ok _ |- _ =>
          rewrite (leave_m _ _ _ (enter_P _ _ _ _ _ _ Hs He) Hl);
          rewrite (enter_m _ _ _ _ _ _ Hs He); cbn [tree_sum]; lia
      end.
    + intros p k s r s' Hs Hw. simpl in Hw. inv_ok. cbn [tree_sum_child].
      eapply walk_elems_sum; [|exact Hs|eassumption].
      eapply Forall_impl; [exact IH|]. intros e [He _]. exact He.
  - assert (Hk : forall p pp s r s', P s -> walk p pp (Obj props) s = Ok (r, s') ->
                   m s' = m s + tree_sum f (Obj props)).
    { intros p pp s r s' Hs Hw. rewrite walk_unfold in Hw. inv_ok.
      match goal with
      | He : enter _ _ _ _ = Ok _, Hl : leave _ _ = Ok _,
        Hg : get (assign _ _) "type" = Ok _, Hv : visitor_keys _ = Ok _,
        Hp : walk_props _ _ _ _ _ _ = Ok _ |- _ =>
          rewrite (enter_type _ _ _ _ _ _ He) in Hg; simpl in Hg;
          injection Hg as <-;
          pose proof (enter_P _ _ _ _ _ _ Hs He) as Hs1;
          pose proof (enter_m _ _ _ _ _ _ Hs He) as Hm1;
          pose proof (walk_props_keeps S enter leave P props
                        (Forall_true _ props (fun kv => walk_child_keeps (snd kv)))
                        _ _ _ _ _ Hs1 Hp) as Hs2;
          apply walk_props_sum in Hp;
            [|eapply Forall_impl; [exact IH|]; intros kv [_ Hc]; exact Hc | exact Hs1];
          rewrite (leave_m _ _ _ Hs2 Hl); cbn [tree_sum]; rewrite Hv; lia
      end. }
    split; [exact Hk|].
    intros p k s r s' Hs Hw. unfold walk_child in Hw. unfold tree_sum_child.
    destruct (isNode (Obj props)); [eapply Hk; eassumption | inv_ok; lia].
Qed.

(** When [enter] adds [f node] to a measure of the state and [leave]
    keeps it, a walk adds the sum of [f] over the nodes it visits. *)
Lemma walk_sum node p pp s r s' :
  P s -> walk p pp node s = Ok (r, s') -> m s' = m s + tree_sum f node.
Proof. apply walk_sum_both. Qed.
End walk_sums.

(** ** A walk only adds *)

Section grows.
Import Analyzer.

Lemma grows_refl (h : Context.store) : grows h h.
Proof.
  intros r c Hc. exists c. repeat split; try reflexivity; try exact Hc; try lia.
Qed.

Lemma grows_trans (h1 h2 h3 : Context.store) :
  grows h1 h2 -> grows h2 h3 -> grows h1 h3.
Proof.
  intros H12 H23 r c Hc.
  destruct (H12 r c Hc) as (c2 & Hc2 & Hn2 & Hp2 & Hd2 & Hch2 & Hs2).
  destruct (H23 r c2 Hc2) as (c3 & Hc3 & Hn3 & Hp3 & Hd3 & Hch3 & Hs3).
  exists c3. repeat split; try congruence; try lia. etrans; eassumption.
Qed.

Lemma add_grows (num : Z) (a a' : t) :
  0 <= num -> add num a = Ok a' -> grows (records a) (records a').
Proof.
  intros Hnum. unfold add. destruct (context a) as [q|]; [|discriminate].
  intros [= <-]. simpl. intros r c Hc. unfold Context.add.
  rewrite list_lookup_alter. destruct (decide (q = r)) as [->|Hne].
  - rewrite Hc. simpl. eexists. split; [reflexivity|].
    repeat split; simpl; try reflexivity; try lia.
  - exists c. repeat split; try reflexivity; try exact Hc; try lia.
Qed.

Lemma pushContext_grows (p : path) (pp : option path) (a a' : t) :
  pushContext p pp a = Ok a' -> grows (records a) (records a').
Proof.
  intros Hp. destruct (pushContext_Ok p pp a a' Hp) as (src & _ & ->). simpl.
  intros r c Hc.
  destruct (pushed_old p pp a r c Hc) as (c' & Hc' & Hd & Hch).
  assert (H1 : (records a ++ [Context.new p pp (length (stack a))]) !! r = Some c)
    by (apply lookup_app_l_Some; exact Hc).
  destruct (context a) as [q|].
  - rewrite list_lookup_alter in Hc'. destruct (decide (q = r)) as [->|Hne].
    + rewrite H1 in Hc'. simpl in Hc'. injection Hc' as <-.
      eexists. split; [rewrite list_lookup_alter_eq, H1; reflexivity|].
      repeat split; simpl; try reflexivity; try lia. eexists; reflexivity.
    + exists c. split; [rewrite list_lookup_alter_ne by exact Hne; exact H1|].
      repeat split; try reflexivity; try lia.
  - exists c. split; [exact H1|]. repeat split; try reflexivity; try lia.
Qed.

Lemma process_grows (node : value) (a a' : t) :
  process node a = Ok a' -> grows (records a) (records a').
Proof.
  intros Hp. unfold process in Hp. inv_ok.
  repeat match type of Hp with
  | (if ?b then _ else _) = _ => destruct b
  end;
  unfold addFn, addCall, addIf, addCase, addLogical, addBranch in Hp; inv_ok;
  repeat match goal with
  | H : (if ?b then _ else _) = _ |- _ => destruct b
  end; inv_ok;
  repeat match goal with
  | H : add _ _ = Ok _ |- _ =>
      apply add_grows in H; [|try destruct (truthy _); cbv; congruence]
  end;
  eauto using grows_refl, grows_trans.
Qed.

Lemma enter_grows (p : path) (pp : option path) (node : value)
  (a : t) (w : list (string * value)) (a' : t) :
  enter p pp node a = Ok (w, a') -> grows (records a) (records a').
Proof.
  intros He. unfold enter in He. inv_ok.
  destruct (is_context _); inv_ok;
    eauto using process_grows, pushContext_grows, grows_trans.
Qed.

Lemma leave_grows (node : value) (a a' : t) :
  leave node a = Ok a' -> grows (records a) (records a').
Proof.
  intros Hl. unfold leave in Hl. inv_ok.
  destruct (truthy _); inv_ok; apply grows_refl.
Qed.
End grows.

(** X9.  A walk only adds to the records: from any state, after
    [traverse] every record that existed is still there with the same
    node, parent and depth, its children list has only been extended at
    the end, and its local score has not gone down. *)
Theorem traverse_grows (tree tree' : value) (a a' : Analyzer.t) :
  Analyzer.traverse tree a = Ok (tree', a') ->
  grows (Analyzer.records a) (Analyzer.records a').
Proof.
  intros Ht. unfold Analyzer.traverse in Ht.
  destruct (negb (truthy tree)); [inv_ok; apply grows_refl|].
  unfold estraverse.traverse in Ht.
  eapply (walk_keeps Analyzer.t Analyzer.enter Analyzer.leave
            (fun b => grows (Analyzer.records a) (Analyzer.records b)));
    [| |apply grows_refl|exact Ht].
  - intros p pp n s w s' Hg He. eapply grows_trans; [exact Hg|].
    eapply enter_grows; exact He.
  - intros n s s' Hg Hl. eapply grows_trans; [exact Hg|].
    eapply leave_grows; exact Hl.
Qed.

Lemma traverse_grows_witness :
  grows (Analyzer.records Examples.active)
    [Context.mk [] None [1%nat] 3 0; Context.mk [] None [] 0 1].
Proof.
  refine (traverse_grows (esprima.FunctionDeclaration "foo" []) _ Examples.active
            (Analyzer.mk [O]
               (Some (Analyzer.mkSourceFile (esprima.Program []) [O; 1%nat]))
               [Context.mk [] None [1%nat] 3 0;
                Context.mk [] None [] 0 1]) _).
  vm_compute. reflexivity.
Defined.

(** ** Records and collector after a run *)

Section run_frame.
Import Analyzer.

Lemma process_frame (node : value) (a a' : t) :
  process node a = Ok a' ->
  stack a' = stack a /\ source a' = source a /\
  length (records a') = length (records a).
Proof.
  intros Hp. unfold process in Hp. inv_ok.
  repeat match type of Hp with
  | (if ?b then _ else _) = _ => destruct b
  end;
  unfold addFn, addCall, addIf, addCase, addLogical, addBranch, add in Hp; inv_ok;
  repeat match goal with
  | H : (if ?b then _ else _) = _ |- _ => destruct b
  | H : match ?o with Some _ => _ | None => _ end = _ |- _ => destruct o
  end; inv_ok; simpl; unfold Context.add; rewrite ?length_alter; auto.
Qed.

Lemma removelast_elem_of {A} (l : list A) (x : A) : x ∈ removelast l -> x ∈ l.
Proof.
  intros Hx. apply list_elem_of_lookup in Hx as [i Hi].
  apply list_elem_of_lookup. exists i. apply removelast_lookup. exact Hi.
Qed.

(** The records a run starts from are not on its stack, so they stay as
    they are. *)
Lemma earlier_records_kept (n0 : nat) (h0 : Context.store) (tree tree' : value)
  (a a' : t) :
  (forall r, r ∈ stack a -> (n0 <= r)%nat) ->
  take n0 (records a) = h0 -> (n0 <= length (records a))%nat ->
  traverse tree a = Ok (tree', a') ->
  take n0 (records a') = h0.
Proof.
  intros Hst Htk Hlen Ht. unfold traverse in Ht.
  destruct (negb (truthy tree)); [injection Ht as _ <-; exact Htk|].
  unfold estraverse.traverse in Ht.
  assert (Hadd : forall num b b',
            ((forall r, r ∈ stack b -> (n0 <= r)%nat) /\
             take n0 (records b) = h0 /\ (n0 <= length (records b))%nat) ->
            add num b = Ok b' ->
            (forall r, r ∈ stack b' -> (n0 <= r)%nat) /\
            take n0 (records b') = h0 /\ (n0 <= length (records b'))%nat).
  { intros num b b' (H1 & H2 & H3) Hb. unfold add, context in Hb.
    destruct (last (stack b)) as [q|] eqn:Hq; [|discriminate]. injection Hb as <-.
    simpl. unfold Context.add. rewrite length_alter. repeat split; try assumption.
    rewrite take_alter_ge; [exact H2|]. apply H1. eapply last_Some_elem_of. exact Hq. }
  assert (Hproc : forall node b b',
            ((forall r, r ∈ stack b -> (n0 <= r)%nat) /\
             take n0 (records b) = h0 /\ (n0 <= length (records b))%nat) ->
            process node b = Ok b' ->
            (forall r, r ∈ stack b' -> (n0 <= r)%nat) /\
            take n0 (records b') = h0 /\ (n0 <= length (records b'))%nat).
  { intros node b b' Hb Hp. unfold process in Hp. inv_ok.
    repeat match type of Hp with
    | (if ?b then _ else _) = _ => destruct b
    end;
    unfold addFn, addCall, addIf, addCase, addLogical, addBranch in Hp; inv_ok;
    repeat match goal with
    | H : (if ?b then _ else _) = _ |- _ => destruct b
    end; inv_ok; eauto. }
  refine (proj1 (proj2 (walk_keeps t enter leave
            (fun b => (forall r, r ∈ stack b -> (n0 <= r)%nat) /\
                      take n0 (records b) = h0 /\ (n0 <= length (records b))%nat)
            _ _ tree [] None a tree' a' (conj Hst (conj Htk Hlen)) Ht))).
  - intros p pp n s w s' Hs He. unfold enter in He. inv_ok.
    match goal with
    | H : process _ _ = Ok _ |- _ => apply (Hproc _ _ _ Hs) in H as (H1 & H2 & H3)
    end.
    destruct (is_context _); inv_ok; [|repeat split; assumption].
    match goal with
    | H : pushContext _ _ _ = Ok _ |- _ =>
        apply pushContext_Ok in H as (f' & _ & ->)
    end.
    simpl. rewrite pushed_length. repeat split; [| |lia].
    + intros r Hr. apply elem_of_app in Hr as [Hr|Hr]; [apply H1; exact Hr|].
      apply list_elem_of_singleton in Hr. subst. exact H3.
    + unfold context. destruct (last (stack x)) as [q|] eqn:Hq.
      * rewrite take_alter_ge by (apply H1; eapply last_Some_elem_of; exact Hq).
        rewrite take_app_le by exact H3. exact H2.
      * rewrite take_app_le by exact H3. exact H2.
  - intros n s s' (H1 & H2 & H3) Hl. unfold leave in Hl. inv_ok.
    destruct (truthy _); inv_ok; simpl; repeat split; try assumption.
    intros r Hr. apply H1. apply removelast_elem_of. exact Hr.
Qed.

(** The collector is given each record once, when it is made. *)
Lemma collector_kept (n0 : nat) (c0 : list nat) (tree tree' : value) (a a' : t) :
  (exists f, source a = Some f /\
     contexts_of f = c0 ++ seq n0 (length (records a) - n0)) ->
  (n0 <= length (records a))%nat ->
  traverse tree a = Ok (tree', a') ->
  (exists f, source a' = Some f /\
     contexts_of f = c0 ++ seq n0 (length (records a') - n0)) /\
  (n0 <= length (records a'))%nat.
Proof.
  intros Hsrc Hlen Ht. unfold traverse in Ht.
  destruct (negb (truthy tree)); [injection Ht as _ <-; split; assumption|].
  unfold estraverse.traverse in Ht.
  refine (walk_keeps t enter leave
            (fun b => (exists f, source b = Some f /\
                         contexts_of f = c0 ++ seq n0 (length (records b) - n0)) /\
                      (n0 <= length (records b))%nat)
            _ _ tree [] None a tree' a' (conj Hsrc Hlen) Ht).
  - intros p pp n s w s' [(f & Hf & Hc) Hn] He. unfold enter in He. inv_ok.
    match goal with
    | H : process _ _ = Ok _ |- _ => apply process_frame in H as (H1 & H2 & H3)
    end.
    destruct (is_context _); inv_ok;
      [|rewrite H2, H3; split; [exists f; split; assumption | exact Hn]].
    match goal with
    | H : pushContext _ _ _ = Ok _ |- _ =>
        apply pushContext_Ok in H as (f' & Hf' & ->)
    end.
    simpl. rewrite pushed_length. split; [|lia].
    eexists. split; [reflexivity|]. simpl.
    assert (f' = f) by congruence. subst f'. rewrite Hc, H3.
    replace (S (length (records s)) - n0)%nat with (S (length (records s) - n0)) by lia.
    rewrite seq_S, app_assoc. do 2 f_equal. lia.
  - intros n s s' Hs Hl. unfold leave in Hl. inv_ok.
    destruct (truthy _); inv_ok; exact Hs.
Qed.
End run_frame.

(** X10.  A run does not touch the records of earlier runs: the store
    after [analyze] is the store before it, followed by the records the
    run made. *)
Theorem analyze_keeps_earlier_records (src : Analyzer.SourceFile) (a a' : Analyzer.t) :
  Analyzer.analyze src a = Ok a' ->
  exists new, Analyzer.records a' = Analyzer.records a ++ new.
Proof.
  intros Ha. unfold Analyzer.analyze in Ha.
  apply bind_Ok in Ha as ([tree a2] & Ht & Ha). injection Ha as <-. simpl.
  pose proof (earlier_records_kept (length (Analyzer.records a)) (Analyzer.records a)
                (Analyzer.ast src) tree
                (Analyzer.mk [] (Some src) (Analyzer.records a)) a2) as Hk.
  specialize (Hk (fun r Hr => match proj1 (elem_of_nil r) Hr with end)
                 (firstn_all (Analyzer.records a)) (le_n _) Ht).
  exists (drop (length (Analyzer.records a)) (Analyzer.records a2)).
  transitivity (take (length (Analyzer.records a)) (Analyzer.records a2) ++
                drop (length (Analyzer.records a)) (Analyzer.records a2));
    [symmetry; apply take_drop | rewrite Hk; reflexivity].
Qed.

Lemma analyze_keeps_earlier_records_witness :
  exists a' new,
    Analyzer.analyze (Analyzer.mkSourceFile Examples.var_tree [])
      (Analyzer.mk [] None (Examples.records_of (Examples.run Examples.foo_tree)))
    = Ok a' /\
    Analyzer.records a' = Examples.records_of (Examples.run Examples.foo_tree) ++ new.
Proof.
  assert (H : exists a',
            Analyzer.analyze (Analyzer.mkSourceFile Examples.var_tree [])
              (Analyzer.mk [] None (Examples.records_of (Examples.run Examples.foo_tree)))
            = Ok a') by (eexists; vm_compute; reflexivity).
  destruct H as [a' Ha].
  destruct (analyze_keeps_earlier_records _ _ _ Ha) as [new Hnew].
  exists a', new. split; [exact Ha | exact Hnew].
Defined.

(** X11.  The collector is given every record of a run once, in the
    order in which the records are made: after [analyze] the file holds
    what it held, followed by the handles of the new records in
    increasing order. *)
Theorem analyze_collects_in_order (src : Analyzer.SourceFile) (a a' : Analyzer.t) :
  Analyzer.analyze src a = Ok a' ->
  exists f,
    Analyzer.source a' = Some f /\
    Analyzer.contexts_of f =
      Analyzer.contexts_of src ++
      seq (length (Analyzer.records a))
          (length (Analyzer.records a') - length (Analyzer.records a)).
Proof.
  intros Ha. unfold Analyzer.analyze in Ha.
  apply bind_Ok in Ha as ([tree a2] & Ht & Ha). injection Ha as <-. simpl.
  destruct (collector_kept (length (Analyzer.records a)) (Analyzer.contexts_of src)
              (Analyzer.ast src) tree
              (Analyzer.mk [] (Some src) (Analyzer.records a)) a2)
    as [(f & Hf & Hc) _]; [| |exact Ht|].
  - simpl. eexists. split; [reflexivity|]. rewrite Nat.sub_diag, app_nil_r. reflexivity.
  - simpl. lia.
  - rewrite Hf. simpl. eexists. split; [reflexivity|]. exact Hc.
Qed.

Lemma analyze_collects_in_order_witness :
  exists a' f,
    Examples.run Examples.foo_tree = Ok a' /\
    Analyzer.source a' = Some f /\
    Analyzer.contexts_of f = [O; 1%nat].
Proof.
  assert (H : exists a', Examples.run Examples.foo_tree = Ok a')
    by (eexists; vm_compute; reflexivity).
  destruct H as [a' Ha].
  destruct (analyze_collects_in_order _ _ _ Ha) as (f & Hf & Hc).
  exists a', f. split; [exact Ha|]. split; [exact Hf|].
  rewrite Hc. vm_compute in Ha. injection Ha as <-. reflexivity.
Defined.

(** ** Counting records and weights *)

Section run_sums.
Import Analyzer.

Local Abbreviation pushed a p pp :=
  (match context a with
   | Some q =>
       alter (Context.push_child (length (records a))) q
         (records a ++ [Context.new p pp (length (stack a))])
   | None => records a ++ [Context.new p pp (length (stack a))]
   end).

Lemma enter_type_kept (p : path) (pp : option path) (n : value) (s : t)
  (w : list (string * value)) (s' : t) :
  enter p pp n s = Ok (w, s') -> get (estraverse.assign w n) "type" = get n "type".
Proof.
  intros He. apply enter_writes in He. subst w.
  destruct (is_context (field n "type")); [|reflexivity].
  destruct n; try reflexivity. simpl. rewrite lookup_assign_ne by reflexivity.
  reflexivity.
Qed.



Lemma total_app (h1 h2 : Context.store) : total (h1 ++ h2) = total h1 + total h2.
Proof.
  unfold total, sum. induction h1 as [|c h1 IH]; simpl; [reflexivity|].
  rewrite IH. lia.
Qed.

Lemma total_alter (f : Context.t -> Context.t) (h : Context.store) :
  forall r c, h !! r = Some c ->
    total (alter f r h) = total h - Context._score c + Context._score (f c).
Proof.
  unfold total, sum. induction h as [|c0 h IH]; intros r c Hc; [discriminate|].
  destruct r as [|r].
  - simpl in Hc. injection Hc as <-.
    change (alter f O (c0 :: h)) with (f c0 :: h). cbn [map foldr]. lia.
  - change (alter f (S r) (c0 :: h)) with (c0 :: alter f r h). cbn [map foldr].
    rewrite (IH r c Hc). lia.
Qed.

Lemma add_total_score (n0 : nat) (h0 : Context.store) (num : Z) (a a' : t) :
  run_inv n0 h0 a -> add num a = Ok a' ->
  total (records a') = total (records a) + num.
Proof.
  intros (Hst & _) Ha. unfold add in Ha.
  destruct (context a) as [q|] eqn:Hq; [|discriminate]. injection Ha as <-. simpl.
  unfold context in Hq. rewrite last_lookup in Hq.
  destruct (Hst _ _ Hq) as (c & Hc & _).
  unfold Context.add. rewrite (total_alter _ _ q c Hc). simpl. lia.
Qed.

Lemma pushed_total (p : path) (pp : option path) (a : t) :
  stack_ok a -> total (pushed a p pp) = total (records a).
Proof.
  intros Hst.
  assert (H1 : total (records a ++ [Context.new p pp (length (stack a))])
               = total (records a)).
  { rewrite total_app. unfold total at 2, sum. simpl. lia. }
  destruct (context a) as [q|] eqn:Hq; [|exact H1].
  unfold context in Hq. rewrite last_lookup in Hq.
  destruct (Hst _ _ Hq) as (c & Hc & _).
  rewrite (total_alter _ _ q c (lookup_app_l_Some _ _ _ _ Hc)). simpl. lia.
Qed.

Lemma process_total_weight (n0 : nat) (h0 : Context.store) (node : value) (a a' : t) :
  run_inv n0 h0 a -> process node a = Ok a' ->
  total (records a') = total (records a) + node_weight node.
Proof.
  intros Hi Hp. unfold process in Hp.
  apply bind_Ok in Hp as (ty & Hty & Hp). cbv beta in Hp.
  pose proof (get_present _ _ _ Hty) as Hn.
  unfold node_weight.
  assert (Hf : field node "type" = ty) by (unfold field; rewrite Hty; reflexivity).
  rewrite Hf. clear Hf.
  destruct (is_str ty syntax.FunctionExpression || is_str ty syntax.FunctionDeclaration);
    [exact (add_total_score n0 h0 _ _ _ Hi Hp)|].
  destruct (is_str ty syntax.CallExpression);
    [exact (add_total_score n0 h0 _ _ _ Hi Hp)|].
  destruct (is_str ty syntax.IfStatement).
  { unfold addIf in Hp. rewrite (present_get node "alternate" Hn) in Hp.
    cbn [bind] in Hp. destruct (truthy (field node "alternate")).
    - apply bind_Ok in Hp as (a1 & Ha1 & Hp). cbv beta in Hp.
      rewrite (add_total_score n0 h0 _ _ _ (add_keeps n0 h0 _ _ _ Hi Ha1) Hp).
      rewrite (add_total_score n0 h0 _ _ _ Hi Ha1). simpl. lia.
    - cbn [bind] in Hp. exact (add_total_score n0 h0 _ _ _ Hi Hp). }
  destruct (is_str ty syntax.SwitchCase).
  { unfold addCase in Hp. rewrite (present_get node "consequent" Hn) in Hp.
    cbn [bind] in Hp. apply bind_Ok in Hp as (len & Hlen & Hp). cbv beta in Hp.
    assert (Hf : field (field node "consequent") "length" = len)
      by (unfold field at 1; rewrite Hlen; reflexivity).
    rewrite Hf. rewrite (add_total_score n0 h0 _ _ _ Hi Hp).
    destruct (truthy len); reflexivity. }
  destruct (is_str ty syntax.LogicalExpression).
  { unfold addLogical in Hp. rewrite (present_get node "operator" Hn) in Hp.
    cbn [bind] in Hp. destruct (is_str (field node "operator") "||").
    - exact (add_total_score n0 h0 _ _ _ Hi Hp).
    - injection Hp as <-. lia. }
  destruct (_ || _)%bool.
  - exact (add_total_score n0 h0 _ _ _ Hi Hp).
  - injection Hp as <-. lia.
Qed.

Lemma enter_total_weight (n0 : nat) (h0 : Context.store) (p : path) (pp : option path)
  (node : value) (a : t) (w : list (string * value)) (a' : t) :
  run_inv n0 h0 a -> enter p pp node a = Ok (w, a') ->
  total (records a') = total (records a) + node_weight node.
Proof.
  intros Hi He. unfold enter in He.
  apply bind_Ok in He as (a1 & Hp & He). cbv beta in He.
  rewrite <- (process_total_weight n0 h0 node a a1 Hi Hp).
  pose proof (process_keeps n0 h0 node a a1 Hi Hp) as Hi1.
  apply bind_Ok in He as (ty & _ & He). cbv beta in He.
  destruct (is_context ty); [|injection He as _ <-; reflexivity].
  apply bind_Ok in He as (a2 & Hpush & He). injection He as _ <-.
  destruct (pushContext_Ok p pp a1 a2 Hpush) as (f & _ & ->). simpl.
  apply pushed_total. apply Hi1.
Qed.

Lemma leave_total_weight (node : value) (a a' : t) :
  leave node a = Ok a' -> total (records a') = total (records a).
Proof.
  intros Hl. unfold leave in Hl. inv_ok. destruct (truthy _); inv_ok; reflexivity.
Qed.
End run_sums.



(** X13.  No weight is lost or counted twice: the local scores of the
    records after a run add up to what they added up to before it plus
    the weights of all the nodes of the tree. *)
Theorem analyze_total_weight (src : Analyzer.SourceFile) (a a' : Analyzer.t) :
  depth_ok (Analyzer.records a) ->
  wf_store (Analyzer.records a) ->
  Analyzer.analyze src a = Ok a' ->
  total (Analyzer.records a') =
    total (Analyzer.records a) + tree_sum node_weight (Analyzer.ast src).
Proof.
  intros Hd Hwf Ha. unfold Analyzer.analyze in Ha.
  apply bind_Ok in Ha as ([tree a2] & Ht & Ha). injection Ha as <-. simpl.
  unfold Analyzer.traverse in Ht.
  destruct (truthy (Analyzer.ast src)) eqn:Htr; simpl in Ht.
  - unfold estraverse.traverse in Ht.
    apply (walk_sum Analyzer.t Analyzer.enter Analyzer.leave
             (run_inv (length (Analyzer.records a)) (Analyzer.records a))
             (fun b => total (Analyzer.records b)) node_weight)
      in Ht.
    + exact Ht.
    + intros. eapply enter_keeps; eassumption.
    + intros. eapply leave_keeps; eassumption.
    + intros p pp n s w s' Hi He. eapply enter_total_weight; eassumption.
    + intros n s s' _ Hl. apply leave_total_weight in Hl. exact Hl.
    + intros p pp n s w s' He. eapply enter_type_kept. exact He.
    + apply run_inv_start; assumption.
  - injection Ht as _ <-. simpl.
    destruct (Analyzer.ast src); try discriminate Htr; cbn; lia.
Qed.

Lemma analyze_total_weight_witness :
  exists a',
    Examples.run Examples.foo_tree = Ok a' /\
    total (Analyzer.records a') = 25.
Proof.
  assert (H : exists a', Examples.run Examples.foo_tree = Ok a')
    by (eexists; vm_compute; reflexivity).
  destruct H as [a' Ha]. exists a'. split; [exact Ha|].
  rewrite (analyze_total_weight (Analyzer.mkSourceFile Examples.foo_tree [])
             (Analyzer.new []) a').
  - reflexivity.
  - intros p cp q Hp. destruct p; discriminate Hp.
  - intros r c Hc. destruct r; discriminate Hc.
  - exact Ha.
Defined.

(** ** Scores roll up *)

Section preorder.
Import Analyzer.

Lemma range_total_nil (h : Context.store) (b : nat) : range_total h b b = 0.
Proof. unfold range_total. rewrite Nat.sub_diag. reflexivity. Qed.

Lemma range_total_split (h : Context.store) (b m e : nat) :
  (b <= m)%nat -> (m <= e)%nat ->
  range_total h b e = range_total h b m + range_total h m e.
Proof.
  intros Hbm Hme. unfold range_total.
  replace (e - b)%nat with ((m - b) + (e - m))%nat by lia.
  rewrite <- take_take_drop, total_app, drop_drop.
  replace (b + (m - b))%nat with m by lia. reflexivity.
Qed.

Lemma range_total_cons (h : Context.store) (r e : nat) (c : Context.t) :
  h !! r = Some c -> (r < e)%nat ->
  range_total h r e = Context._score c + range_total h (S r) e.
Proof.
  intros Hc Hre. rewrite (range_total_split h r (S r) e) by lia. f_equal.
  unfold range_total. replace (S r - r)%nat with 1%nat by lia.
  rewrite (drop_S _ _ _ Hc). unfold total, sum. simpl. lia.
Qed.

Lemma range_total_agree (h h' : Context.store) (b e : nat) :
  (forall q, (b <= q < e)%nat -> h' !! q = h !! q) ->
  range_total h' b e = range_total h b e.
Proof.
  intros Hag. unfold range_total. f_equal. apply list_eq. intros i.
  destruct (decide (i < e - b)%nat) as [Hi|Hi].
  - rewrite !lookup_take_lt by exact Hi. rewrite !lookup_drop. apply Hag. lia.
  - rewrite !lookup_take_ge by lia. reflexivity.
Qed.

(** A closed range is not empty, and stays closed when the records
    outside of it change. *)
Lemma closed_tiles_agree (h : Context.store) :
  (forall r e, closed h r e ->
     (r < e)%nat /\
     forall h', (forall q, (r <= q < e)%nat -> h' !! q = h !! q) -> closed h' r e) /\
  (forall b qs e, tiles h b qs e ->
     (b <= e)%nat /\
     forall h', (forall q, (b <= q < e)%nat -> h' !! q = h !! q) -> tiles h' b qs e).
Proof.
  apply closed_tiles_ind.
  - intros r e c Hc _ [Hle IH]. split; [lia|]. intros h' Hag.
    apply (closed_intro h' r e c); [rewrite Hag by lia; exact Hc|].
    apply IH. intros q Hq. apply Hag. lia.
  - intros b. split; [lia|]. intros h' _. constructor.
  - intros b m e qs _ [Hbm IHc] _ [Hme IHt]. split; [lia|]. intros h' Hag.
    apply (tiles_cons h' b m e qs).
    + apply IHc. intros q Hq. apply Hag. lia.
    + apply IHt. intros q Hq. apply Hag. lia.
Qed.

Lemma tiles_app (h : Context.store) (b m e : nat) (qs qs' : list nat) :
  tiles h b qs m -> tiles h m qs' e -> tiles h b (qs ++ qs') e.
Proof.
  revert b. induction qs as [|q qs IH]; intros b H1 H2.
  - inversion H1; subst. exact H2.
  - inversion H1 as [|? m0 ? ? Hc Ht]; subst. simpl.
    apply (tiles_cons h q m0 e); [exact Hc | apply IH; assumption].
Qed.

(** The score of a closed record is the sum of the local scores of its
    range. *)
Lemma closed_tiles_score (h : Context.store) (Hwf : wf_store h) :
  (forall r e, closed h r e -> Context.score h r = Some (range_total h r e)) /\
  (forall b qs e, tiles h b qs e ->
     exists scores, mapM (Context.score h) qs = Some scores /\
       sum scores = range_total h b e).
Proof.
  apply closed_tiles_ind.
  - intros r e c Hc Ht (scores & Hm & Hsum).
    destruct (score_unfold h Hwf r c Hc) as (scores' & Hm' & Hs).
    rewrite Hm in Hm'. injection Hm' as <-. rewrite Hs, Hsum.
    rewrite (range_total_cons h r e c Hc); [reflexivity|].
    apply (proj2 (closed_tiles_agree h)) in Ht. lia.
  - intros b. exists []. split; [reflexivity|]. rewrite range_total_nil. reflexivity.
  - intros b m e qs Hc Hs Ht (scores & Hm & Hsum).
    exists (range_total h b m :: scores). split.
    + cbn. rewrite Hs. cbn. rewrite Hm. reflexivity.
    + unfold sum in *. cbn [foldr]. rewrite Hsum.
      apply (proj1 (closed_tiles_agree h)) in Hc.
      apply (proj2 (closed_tiles_agree h)) in Ht.
      rewrite (range_total_split h b m e); lia.
Qed.

Lemma tiles_length (h : Context.store) (b e : nat) (qs : list nat) :
  tiles h b qs e -> (b <= e)%nat.
Proof. intros Ht. apply (proj2 (closed_tiles_agree h)) in Ht. lia. Qed.

Lemma rolled_refl (a : t) (r : nat) (c : Context.t) :
  last (stack a) = Some r -> records a !! r = Some c -> is_Some (source a) ->
  rolled 0 a a.
Proof.
  intros Hr Hc Hs. split; [reflexivity|]. split; [exact Hs|].
  exists r, c, c, []. rewrite app_nil_r, range_total_nil.
  repeat split; try assumption; try constructor; try lia.
Qed.

Lemma rolled_trans (w1 w2 : Z) (a a1 a2 : t) :
  rolled w1 a a1 -> rolled w2 a1 a2 -> rolled (w1 + w2) a a2.
Proof.
  intros (Hst1 & Hs1 & r & c & c1 & qs1 & Hr & Hc & Hc1 & Hch1 & Ht1 & Hsc1 & Hf1)
         (Hst2 & Hs2 & r2 & c1' & c2 & qs2 & Hr2 & Hc1' & Hc2 & Hch2 & Ht2 & Hsc2 & Hf2).
  assert (r2 = r) by congruence. subst r2.
  assert (c1' = c1) by congruence. subst c1'.
  pose proof (tiles_length _ _ _ _ Ht1) as HL1.
  pose proof (tiles_length _ _ _ _ Ht2) as HL2.
  assert (Hrl : (r < length (records a))%nat) by (eapply lookup_lt_Some; exact Hc).
  assert (Hag : forall q, (length (records a) <= q < length (records a1))%nat ->
                  records a2 !! q = records a1 !! q).
  { intros q Hq. apply Hf2; lia. }
  split; [congruence|]. split; [exact Hs2|].
  exists r, c, c2, (qs1 ++ qs2).
  split; [exact Hr|]. split; [exact Hc|]. split; [exact Hc2|].
  split; [rewrite Hch2, Hch1, app_assoc; reflexivity|].
  split; [|split].
  - eapply tiles_app; [|exact Ht2].
    apply (proj2 (proj2 (closed_tiles_agree (records a1)) _ _ _ Ht1)). exact Hag.
  - rewrite (range_total_split _ _ (length (records a1))) by lia.
    rewrite (range_total_agree (records a1) (records a2) _ _ Hag). lia.
  - intros q Hq Hne. rewrite Hf2 by lia. apply Hf1; assumption.
Qed.

(** The state after [process], with an active record. *)
Lemma process_state (node : value) (a : t) (r : nat) (c : Context.t) :
  present node ->
  (is_str (field node "type") syntax.SwitchCase = true ->
   present (field node "consequent")) ->
  last (stack a) = Some r ->
  records a !! r = Some c ->
  process node a =
    Ok (mk (stack a) (source a)
          (<[r := Context.add_score (node_weight node) c]> (records a))).
Proof.
  intros Hn Hcase Hr Hc.
  destruct (process_weight node a r c Hn Hcase Hr Hc) as (a' & Hp & H0 & H1).
  rewrite Hp. f_equal.
  destruct (decide (node_weight node = 0)) as [Hz|Hnz].
  - rewrite (H0 Hz), Hz. destruct a as [st so h]. simpl in *. f_equal.
    symmetry. apply list_insert_id. rewrite Hc. f_equal.
    destruct c. unfold Context.add_score. simpl. f_equal. lia.
  - destruct (H1 Hnz) as (Hst & Hso & r' & c' & Hr' & Hc' & Hh).
    assert (r' = r) by (unfold context in Hr'; congruence). subst r'.
    assert (c' = c) by congruence. subst c'.
    destruct a' as [st so h]. simpl in *. subst. reflexivity.
Qed.

Lemma process_rolled (node : value) (a : t) (r : nat) (c : Context.t) :
  is_Some (source a) ->
  last (stack a) = Some r -> records a !! r = Some c ->
  rolled (node_weight node) a
    (mk (stack a) (source a)
       (<[r := Context.add_score (node_weight node) c]> (records a))).
Proof.
  intros Hs Hr Hc.
  assert (Hrl : (r < length (records a))%nat) by (eapply lookup_lt_Some; exact Hc).
  split; [reflexivity|]. split; [exact Hs|].
  exists r, c, (Context.add_score (node_weight node) c), []. simpl.
  rewrite length_insert, app_nil_r, range_total_nil.
  repeat split; try assumption; try constructor; try lia.
  - apply list_lookup_insert_eq. exact Hrl.
  - intros q _ Hne. apply list_lookup_insert_ne. congruence.
Qed.
End preorder.

Section rollup.
Import estraverse Analyzer.

Local Abbreviation walk := (estraverse.walk Analyzer.t enter leave).

Lemma presentb_present (v : value) : presentb v = true -> present v.
Proof. destruct v; simpl; try discriminate; intros _; split; discriminate. Qed.

Lemma rolled_active (w : Z) (a a' : t) :
  rolled w a a' ->
  is_Some (source a') /\
  exists r c', last (stack a') = Some r /\ records a' !! r = Some c'.
Proof.
  intros (Hst & Hs & r & c & c' & qs & Hr & Hc & Hc' & _).
  split; [exact Hs|]. exists r, c'. split; [rewrite Hst; exact Hr | exact Hc'].
Qed.

(** Pushing a record, rolling weight up to it and popping it rolls the
    weight up to the enclosing record. *)
Lemma push_pop_rolled (W w : Z) (p : path) (pp : option path) (a a2 a3 : t)
  (r : nat) (c : Context.t) :
  last (stack a) = Some r ->
  records a !! r = Some c ->
  pushContext p pp (mk (stack a) (source a)
                      (<[r := Context.add_score W c]> (records a))) = Ok a2 ->
  rolled w a2 a3 ->
  rolled (W + w) a (popContext a3).
Proof.
  intros Hr Hc Hpush Hin.
  assert (Hrl : (r < length (records a))%nat) by (eapply lookup_lt_Some; exact Hc).
  apply pushContext_Ok in Hpush as (src & _ & ->).
  unfold context in Hin. cbn [stack records source] in Hin. rewrite Hr in Hin.
  rewrite length_insert in Hin.
  set (L := length (records a)) in *.
  set (new := Context.new p pp (length (stack a))) in *.
  set (h2 := alter (Context.push_child L) r
               (<[r := Context.add_score W c]> (records a) ++ [new])) in *.
  assert (HL2 : length h2 = S L).
  { unfold h2. rewrite length_alter, length_app, length_insert. simpl. unfold L. lia. }
  assert (Hh2r : h2 !! r = Some (Context.push_child L (Context.add_score W c))).
  { unfold h2. rewrite list_lookup_alter_eq.
    rewrite lookup_app_l by (rewrite length_insert; exact Hrl).
    rewrite list_lookup_insert_eq by exact Hrl. reflexivity. }
  assert (Hh2L : h2 !! L = Some new).
  { unfold h2. rewrite list_lookup_alter_ne by (unfold L; lia).
    rewrite lookup_app_r by (rewrite length_insert; unfold L; lia).
    rewrite length_insert. unfold L. rewrite Nat.sub_diag. reflexivity. }
  assert (Hh2q : forall q, (q < L)%nat -> q <> r -> h2 !! q = records a !! q).
  { intros q Hq Hne. unfold h2. rewrite list_lookup_alter_ne by congruence.
    rewrite lookup_app_l by (rewrite length_insert; exact Hq).
    apply list_lookup_insert_ne. congruence. }
  destruct Hin as (Hst & Hs & t' & cL & cL' & qs & Ht' & HcL & HcL' & Hch & Htl & Hsc & Hf).
  cbn [stack records] in *. rewrite last_snoc in Ht'. injection Ht' as <-.
  rewrite Hh2L in HcL. injection HcL as <-. rewrite HL2 in *.
  simpl in Hch, Hsc.
  pose proof (tiles_length _ _ _ _ Htl) as HL3.
  split; [simpl; rewrite Hst; apply removelast_last|]. split; [exact Hs|].
  exists r, c, (Context.push_child L (Context.add_score W c)), [L].
  split; [exact Hr|]. split; [exact Hc|].
  split; [simpl; rewrite Hf by lia; exact Hh2r|].
  split; [reflexivity|]. simpl. fold L. split; [|split].
  - apply (tiles_cons _ L (length (records a3)) _ []); [|constructor].
    apply (closed_intro _ L _ cL'); [exact HcL'|]. rewrite Hch. exact Htl.
  - rewrite (range_total_cons _ L _ cL' HcL') by lia. lia.
  - intros q Hq Hne. rewrite Hf by lia. apply Hh2q; assumption.
Qed.

Lemma walk_elems_rolled (elems : list value) :
  Forall (fun v => well_formed v = true -> forall p pp a x a',
            is_Some (source a) ->
            (exists r c, last (stack a) = Some r /\ records a !! r = Some c) ->
            walk p pp v a = Ok (x, a') ->
            rolled (tree_sum node_weight v) a a') elems ->
  forallb (fun e => negb (isNode e) || well_formed e) elems = true ->
  forall p k i a x a',
    is_Some (source a) ->
    (exists r c, last (stack a) = Some r /\ records a !! r = Some c) ->
    walk_elems t walk p k i elems a = Ok (x, a') ->
    rolled (sum (map (fun e => if isNode e then tree_sum node_weight e else 0) elems))
      a a'.
Proof.
  induction 1 as [|e elems He _ IH]; intros Hall p k i a x a' Hs Hact Hw; simpl in Hw.
  - injection Hw as _ <-. destruct Hact as (r & c & Hr & Hc).
    exact (rolled_refl a r c Hr Hc Hs).
  - simpl in Hall. apply andb_true_iff in Hall as [H1 H2].
    apply bind_Ok in Hw as ([e' a1] & He1 & Hw).
    apply bind_Ok in Hw as ([rest' a2] & Hrest & Hw). injection Hw as _ <-.
    cbn [map]. unfold sum. cbn [foldr].
    fold (sum (map (fun e => if isNode e then tree_sum node_weight e else 0) elems)).
    assert (Hfirst : rolled (if isNode e then tree_sum node_weight e else 0) a a1).
    { destruct (isNode e).
      - eapply He; eassumption.
      - injection He1 as _ <-. destruct Hact as (r & c & Hr & Hc).
        exact (rolled_refl a r c Hr Hc Hs). }
    destruct (rolled_active _ _ _ Hfirst) as [Hs1 Hact1].
    eapply rolled_trans; [exact Hfirst|]. eapply IH; eassumption.
Qed.

Lemma walk_props_rolled (props : list (string * value)) :
  Forall (fun kv => child_ok well_formed (snd kv) = true -> forall p k a x a',
            is_Some (source a) ->
            (exists r c, last (stack a) = Some r /\ records a !! r = Some c) ->
            walk_child t walk p k (snd kv) a = Ok (x, a') ->
            rolled (tree_sum_child (tree_sum node_weight) (snd kv)) a a') props ->
  forall keys,
  forallb (fun '(k, v) => negb (is_key k keys) || child_ok well_formed v) props = true ->
  forall p a x a',
    is_Some (source a) ->
    (exists r c, last (stack a) = Some r /\ records a !! r = Some c) ->
    walk_props t walk keys p props a = Ok (x, a') ->
    rolled (tree_sum_props (tree_sum node_weight) keys props) a a'.
Proof.
  induction 1 as [|[k v] props Hv _ IH]; intros keys Hall p a x a' Hs Hact Hw;
    simpl in Hw.
  - injection Hw as _ <-. destruct Hact as (r & c & Hr & Hc).
    exact (rolled_refl a r c Hr Hc Hs).
  - simpl in Hall. apply andb_true_iff in Hall as [H1 H2].
    apply bind_Ok in Hw as ([v' a1] & Hv1 & Hw).
    apply bind_Ok in Hw as ([rest' a2] & Hrest & Hw). injection Hw as _ <-.
    unfold tree_sum_props. cbn [map]. unfold sum. cbn [foldr].
    fold (sum (map (fun '(k, v) => if is_key k keys
                                  then tree_sum_child (tree_sum node_weight) v
                                  else 0) props)).
    fold (tree_sum_props (tree_sum node_weight) keys props).
    assert (Hfirst : rolled (if is_key k keys
                             then tree_sum_child (tree_sum node_weight) v else 0) a a1).
    { destruct (is_key k keys).
      - eapply Hv; eassumption.
      - injection Hv1 as _ <-. destruct Hact as (r & c & Hr & Hc).
        exact (rolled_refl a r c Hr Hc Hs). }
    destruct (rolled_active _ _ _ Hfirst) as [Hs1 Hact1].
    eapply rolled_trans; [exact Hfirst|]. eapply IH; eassumption.
Qed.

(** What the walk of the properties of a node leaves in [props']. *)
Lemma walk_props_context (keys : list string) (ty : value) (p : path)
  (props props' : list (string * value)) (a a' : t) :
  visitor_keys ty = Ok keys ->
  walk_props t walk keys p props a = Ok (props', a') ->
  lookup_prop "context" props' = lookup_prop "context" props.
Proof.
  intros Hkeys Hw. apply walk_props_marks in Hw.
  - subst props'. apply mark_props_lookup. eapply visitor_keys_no_context. exact Hkeys.
  - apply Forall_true. intros kv. apply (proj2 (walk_marks_both (snd kv))).
Qed.

Lemma walk_rolled_both (v : value) :
  (well_formed v = true -> forall p pp a x a',
     is_Some (source a) ->
     (exists r c, last (stack a) = Some r /\ records a !! r = Some c) ->
     walk p pp v a = Ok (x, a') ->
     rolled (tree_sum node_weight v) a a') /\
  (child_ok well_formed v = true -> forall p k a x a',
     is_Some (source a) ->
     (exists r c, last (stack a) = Some r /\ records a !! r = Some c) ->
     walk_child t walk p k v a = Ok (x, a') ->
     rolled (tree_sum_child (tree_sum node_weight) v) a a').
Proof.
  induction v as [| | b | n | str | elems IH | props IH] using value_nested_ind.
  1-5: split; [discriminate|]; intros _ p k a x a' Hs (r & c & Hr & Hc) Hw;
    simpl in Hw; injection Hw as _ <-; exact (rolled_refl a r c Hr Hc Hs).
  - split; [discriminate|]. intros Hc p k a x a' Hs Hact Hw. simpl in Hc, Hw.
    apply bind_Ok in Hw as ([elems' a1] & Hw & Heq). injection Heq as _ <-.
    cbn [tree_sum_child]. eapply walk_elems_rolled; try eassumption.
    eapply Forall_impl; [exact IH|]. intros e [He _]. exact He.
  - assert (Hk : well_formed (Obj props) = true -> forall p pp a x a',
              is_Some (source a) ->
              (exists r c, last (stack a) = Some r /\ records a !! r = Some c) ->
              walk p pp (Obj props) a = Ok (x, a') ->
              rolled (tree_sum node_weight (Obj props)) a a').
    { intros Hwf p pp a x a' Hs (r & c & Hr & Hc) Hw. cbn [well_formed] in Hwf.
      cbn [tree_sum].
      destruct (visitor_keys (lookup_prop "type" props)) as [keys|] eqn:Hkeys;
        [|discriminate].
      apply andb_true_iff in Hwf as [Hwf H3]. apply andb_true_iff in Hwf as [H1 H2].
      assert (IH' : Forall (fun kv => child_ok well_formed (snd kv) = true ->
                 forall p k a x a', is_Some (source a) ->
                 (exists r c, last (stack a) = Some r /\ records a !! r = Some c) ->
                 walk_child t walk p k (snd kv) a = Ok (x, a') ->
                 rolled (tree_sum_child (tree_sum node_weight) (snd kv)) a a') props).
      { eapply Forall_impl; [exact IH|]. intros kv [_ Hc0]. exact Hc0. }
      assert (Hpres : present (Obj props)) by (split; discriminate).
      assert (Hcase : is_str (field (Obj props) "type") syntax.SwitchCase = true ->
                      present (field (Obj props) "consequent")).
      { intros Hsc. change (field (Obj props) "type") with (lookup_prop "type" props) in Hsc.
        rewrite Hsc in H2. simpl in H2. apply presentb_present. exact H2. }
      rewrite walk_unfold in Hw. unfold enter in Hw.
      rewrite (process_state (Obj props) a r c Hpres Hcase Hr Hc) in Hw.
      cbn [bind get] in Hw.
      destruct (is_context (lookup_prop "type" props)) eqn:Hctx.
      - apply bind_Ok in Hw as ([w a2] & He & Hw).
        apply bind_Ok in He as (a2' & Hpush & He). injection He as <- <-.
        cbn [assign fold_left set fst snd get] in Hw.
        rewrite lookup_assign_ne in Hw by reflexivity. cbn [bind] in Hw.
        rewrite Hkeys in Hw. cbn [bind] in Hw.
        apply bind_Ok in Hw as ([node' a3] & Hprops & Hw).
        apply bind_Ok in Hprops as ([props' a3'] & Hprops & Heq).
        injection Heq as <- <-.
        cbv beta iota in Hw. unfold leave in Hw.
        cbn [assign fold_left set fst snd get bind] in Hw.
        rewrite lookup_assign_eq in Hw. cbn [truthy bind] in Hw.
        injection Hw as _ <-.
        eapply push_pop_rolled; [exact Hr | exact Hc | exact Hpush |].
        pose proof Hpush as Hpush'.
        apply pushContext_Ok in Hpush' as (src & _ & Ha2).
        eapply (walk_props_rolled props IH' keys H3 p a2' _ a3'); [| |exact Hprops].
        + rewrite Ha2. simpl. eauto.
        + rewrite Ha2. cbn [stack records]. rewrite last_snoc.
          eexists _, _. split; [reflexivity|].
          unfold context. cbn [stack records]. rewrite Hr.
          rewrite list_lookup_alter_ne
            by (rewrite length_insert; apply lookup_lt_Some in Hc; lia).
          rewrite lookup_app_r by (rewrite length_insert; lia).
          rewrite length_insert, Nat.sub_diag. reflexivity.
      - cbn [assign fold_left bind] in Hw. cbn [get] in Hw. cbn [bind] in Hw.
        rewrite Hkeys in Hw. cbn [bind] in Hw.
        apply bind_Ok in Hw as ([node' a3] & Hprops & Hw).
        apply bind_Ok in Hprops as ([props' a3'] & Hprops & Heq).
        injection Heq as <- <-.
        cbv beta iota in Hw. unfold leave in Hw. cbn [get bind] in Hw.
        rewrite (walk_props_context _ _ _ _ _ _ _ Hkeys Hprops) in Hw.
        simpl in H1. apply negb_true_iff in H1. rewrite H1 in Hw.
        cbn [bind] in Hw. injection Hw as _ <-.
        pose proof (process_rolled (Obj props) a r c Hs Hr Hc) as Hfirst.
        destruct (rolled_active _ _ _ Hfirst) as [Hs1 Hact1].
        eapply rolled_trans; [exact Hfirst|].
        eapply (walk_props_rolled props IH' keys H3); eassumption. }
    split; [exact Hk|].
    intros Hc p k a x a' Hs Hact Hw. unfold walk_child in Hw.
    unfold child_ok in Hc. unfold tree_sum_child.
    destruct (isNode (Obj props)).
    + eapply Hk; eassumption.
    + injection Hw as _ <-. destruct Hact as (r & c & Hr & Hcc).
      exact (rolled_refl a r c Hr Hcc Hs).
Qed.
End rollup.

(** The records of a run fill a range of the store that is closed from
    the record of the program, and their local scores add up to the
    weights of the nodes. *)
Lemma program_range (src : Analyzer.SourceFile) (a a' : Analyzer.t) :
  well_formed (Analyzer.ast src) = true ->
  is_str (field (Analyzer.ast src) "type") syntax.Program = true ->
  Analyzer.analyze src a = Ok a' ->
  closed (Analyzer.records a') (length (Analyzer.records a))
         (length (Analyzer.records a')) /\
  range_total (Analyzer.records a') (length (Analyzer.records a))
              (length (Analyzer.records a')) =
    tree_sum node_weight (Analyzer.ast src).
Proof.
  intros Hwf Hprog Ha.
  unfold Analyzer.analyze in Ha.
  apply bind_Ok in Ha as ([tree a2] & Ht & Ha). injection Ha as <-.
  cbn [Analyzer.records] in *.
  destruct (Analyzer.ast src) as [| | | | | |props] eqn:Hast; try discriminate Hwf.
  change (field (Obj props) "type") with (lookup_prop "type" props) in Hprog.
  unfold Analyzer.traverse in Ht. cbn [truthy negb] in Ht.
  unfold estraverse.traverse in Ht. rewrite walk_unfold in Ht.
  unfold Analyzer.enter in Ht. rewrite (process_program props _ Hprog) in Ht.
  cbn [bind get] in Ht. rewrite (program_is_context _ Hprog) in Ht.
  unfold Analyzer.pushContext, Analyzer.context in Ht.
  cbn [Analyzer.stack Analyzer.records Analyzer.source last bind] in Ht.
  cbn [estraverse.assign fold_left set fst snd get] in Ht.
  rewrite lookup_assign_ne in Ht by reflexivity. cbn [bind] in Ht.
  cbn [well_formed] in Hwf. cbn [tree_sum].
  destruct (estraverse.visitor_keys (lookup_prop "type" props)) as [keys|] eqn:Hkeys;
    [|discriminate].
  apply andb_true_iff in Hwf as [_ H3]. cbn [bind] in Ht.
  apply bind_Ok in Ht as ([node' a3] & Hprops & Ht).
  apply bind_Ok in Hprops as ([props' a3'] & Hprops & Heq). injection Heq as <- <-.
  cbv beta iota in Ht. unfold Analyzer.leave in Ht.
  cbn [estraverse.assign fold_left set fst snd get bind] in Ht.
  rewrite lookup_assign_eq in Ht. cbn [truthy bind] in Ht. injection Ht as _ <-.
  cbn [Analyzer.popContext Analyzer.records] in *.
  apply walk_props_rolled in Hprops; [| |exact H3| |].
  - destruct Hprops as (_ & _ & r & c & c' & qs & Hr & Hc & Hc' & Hch & Htl & Hsc & _).
    cbn [Analyzer.stack Analyzer.records last] in *.
    injection Hr as <-.
    rewrite lookup_app_r in Hc by lia. rewrite Nat.sub_diag in Hc.
    injection Hc as <-. rewrite length_app in *. cbn [length] in *.
    replace (length (Analyzer.records a) + 1)%nat
      with (S (length (Analyzer.records a))) in * by lia.
    simpl in Hch, Hsc.
    assert (Hcl : closed (Analyzer.records a3') (length (Analyzer.records a))
                    (length (Analyzer.records a3'))).
    { apply (closed_intro _ _ _ c'); [exact Hc'|]. rewrite Hch. exact Htl. }
    split; [exact Hcl|].
    rewrite (range_total_cons _ _ _ c' Hc')
      by (apply tiles_length in Htl; lia).
    rewrite Hsc. apply is_str_true in Hprog.
    unfold node_weight. change (field (Obj props) "type") with (lookup_prop "type" props).
    rewrite Hprog. cbn. reflexivity.
  - apply Forall_true. intros kv. apply (proj2 (walk_rolled_both (snd kv))).
  - simpl. eauto.
  - cbn [Analyzer.stack Analyzer.records last]. eexists _, _. split; [reflexivity|].
    rewrite lookup_app_r by lia. rewrite Nat.sub_diag. reflexivity.
Qed.

(** X14.  Scores roll up without loss: after a run on a well-formed
    program, [score()] of the record of the program is the sum of the
    weights of all the nodes of the tree. *)
Theorem root_score_is_tree_weight (src : Analyzer.SourceFile) (a a' : Analyzer.t) :
  well_formed (Analyzer.ast src) = true ->
  is_str (field (Analyzer.ast src) "type") syntax.Program = true ->
  depth_ok (Analyzer.records a) ->
  wf_store (Analyzer.records a) ->
  Analyzer.analyze src a = Ok a' ->
  Context.score (Analyzer.records a') (length (Analyzer.records a)) =
    Some (tree_sum node_weight (Analyzer.ast src)).
Proof.
  intros Hwf Hprog Hd Hwfs Ha.
  pose proof (analyze_wf_store src a a' Hd Hwfs Ha) as Hwf'.
  destruct (program_range src a a' Hwf Hprog Ha) as [Hcl Hsum].
  rewrite (proj1 (closed_tiles_score _ Hwf') _ _ Hcl).
  rewrite Hsum. reflexivity.
Qed.

Lemma root_score_is_tree_weight_witness :
  exists a',
    Examples.run Examples.foo_tree = Ok a' /\
    Context.score (Analyzer.records a') 0 = Some 25 /\
    tree_sum node_weight Examples.foo_tree = 25.
Proof.
  assert (H : exists a', Examples.run Examples.foo_tree = Ok a')
    by (eexists; vm_compute; reflexivity).
  destruct H as [a' Ha]. exists a'. split; [exact Ha|].
  split; [|vm_compute; reflexivity].
  refine (eq_trans (root_score_is_tree_weight
                      (Analyzer.mkSourceFile Examples.foo_tree [])
                      (Analyzer.new []) a' _ _ _ _ Ha) _).
  - vm_compute. reflexivity.
  - vm_compute. reflexivity.
  - intros p cp q Hp. destruct p; discriminate Hp.
  - intros r c Hc. destruct r; discriminate Hc.
  - vm_compute. reflexivity.
Defined.

(** X15.  Pushes and pops balance: a run on a well-formed program, whose
    nodes have a type of the table, returns without raising and leaves the
    stack empty. *)
Theorem analyze_reaches_end (src : Analyzer.SourceFile) (a : Analyzer.t) :
  well_formed (Analyzer.ast src) = true ->
  is_str (field (Analyzer.ast src) "type") syntax.Program = true ->
  exists a', Analyzer.analyze src a = Ok a' /\ Analyzer.stack a' = [].
Proof.
  intros Hwf Hprog. unfold Analyzer.analyze, Analyzer.traverse.
  assert (Ht : truthy (Analyzer.ast src) = true)
    by (destruct (Analyzer.ast src); try discriminate; reflexivity).
  rewrite Ht. cbn [negb]. unfold estraverse.traverse.
  destruct (proj1 (walk_total_both (Analyzer.ast src)) Hwf [] None
              (Analyzer.mk [] (Some src) (Analyzer.records a)))
    as (r & a' & Hw & Hs & Hsrc); [right; exact Hprog | simpl; eauto |].
  rewrite Hw. cbn [bind]. eexists. split; [reflexivity|]. simpl. exact Hs.
Qed.

Lemma analyze_reaches_end_witness :
  exists a', Examples.run Examples.var_tree = Ok a' /\ Analyzer.stack a' = [].
Proof.
  exact (analyze_reaches_end (Analyzer.mkSourceFile Examples.var_tree [])
           (Analyzer.new []) eq_refl eq_refl).
Defined.

(** X16.  The records of a run form no cycle: after [analyze], from a
    store without cycles, [score()] returns for every record, and is its
    local score plus the scores of its children. *)
Theorem score_returns_after_analyze (src : Analyzer.SourceFile) (a a' : Analyzer.t)
  (r : nat) (c : Context.t) :
  depth_ok (Analyzer.records a) -> wf_store (Analyzer.records a) ->
  Analyzer.analyze src a = Ok a' ->
  Analyzer.records a' !! r = Some c ->
  wf_store (Analyzer.records a') /\
  exists scores,
    mapM (Context.score (Analyzer.records a')) (Context.children c) = Some scores /\
    Context.score (Analyzer.records a') r = Some (Context._score c + sum scores).
Proof.
  intros Hd Hwf Ha Hc. split; [exact (analyze_wf_store src a a' Hd Hwf Ha)|].
  exact (score_after_analyze src a a' r c Hd Hwf Ha Hc).
Qed.

Lemma score_returns_after_analyze_witness :
  exists a' scores,
    Examples.run Examples.var_tree = Ok a' /\
    mapM (Context.score (Analyzer.records a')) [1%nat] = Some scores /\
    Context.score (Analyzer.records a') 0 = Some (3 + sum scores).
Proof.
  assert (H : exists a', Examples.run Examples.var_tree = Ok a')
    by (eexists; vm_compute; reflexivity).
  destruct H as [a' Ha].
  destruct (score_returns_after_analyze
              (Analyzer.mkSourceFile Examples.var_tree []) (Analyzer.new []) a'
              O (Context.mk [] None [1%nat] 3 0)) as (_ & scores & Hm & Hs).
  - intros p cp q Hp. destruct p; discriminate Hp.
  - intros r c Hc. destruct r; discriminate Hc.
  - exact Ha.
  - vm_compute in Ha. injection Ha as <-. reflexivity.
  - exists a', scores. split; [exact Ha|]. split; assumption.
Defined.

(** ** A second run on the same tree *)

Section rerun.
Import estraverse Analyzer.

Lemma mark_child_is_str (v : value) (s : string) :
  is_str (mark_child mark v) s = is_str v s.
Proof.
  destruct v; try reflexivity. cbn [mark_child].
  destruct (isNode (Obj props)); [rewrite mark_eq|]; reflexivity.
Qed.

Lemma mark_child_truthy (v : value) : truthy (mark_child mark v) = truthy v.
Proof.
  destruct v; try reflexivity. cbn [mark_child].
  destruct (isNode (Obj props)); [rewrite mark_eq|]; reflexivity.
Qed.

Lemma mark_child_presentb (v : value) : presentb (mark_child mark v) = presentb v.
Proof.
  destruct v; try reflexivity. cbn [mark_child].
  destruct (isNode (Obj props)); [rewrite mark_eq|]; reflexivity.
Qed.

Lemma mark_child_length (v : value) :
  field (mark_child mark v) "length" = field v "length".
Proof.
  destruct v; try reflexivity.
  - unfold field. cbn [mark_child get String.eqb]. rewrite length_map. reflexivity.
  - cbn [mark_child]. destruct (isNode (Obj props)); [|reflexivity].
    rewrite mark_lookup by reflexivity.
    destruct (visitor_keys _) eqn:Hk; [|reflexivity].
    rewrite (length_not_key _ _ Hk). reflexivity.
Qed.

(** The weight of a node does not depend on the marks. *)
Lemma node_weight_mark (v : value) : node_weight (mark v) = node_weight v.
Proof.
  destruct v; try reflexivity. unfold node_weight.
  rewrite mark_type. change (field (Obj props) "type") with (lookup_prop "type" props).
  assert (Halt : truthy (field (mark (Obj props)) "alternate") =
                 truthy (field (Obj props) "alternate")).
  { rewrite mark_lookup by reflexivity.
    destruct (visitor_keys _); [|reflexivity].
    destruct (is_key _ _); [apply mark_child_truthy | reflexivity]. }
  assert (Hcons : field (field (mark (Obj props)) "consequent") "length" =
                  field (field (Obj props) "consequent") "length").
  { rewrite mark_lookup by reflexivity.
    destruct (visitor_keys _); [|reflexivity].
    destruct (is_key _ _); [apply mark_child_length | reflexivity]. }
  assert (Hop : is_str (field (mark (Obj props)) "operator") "||" =
                is_str (field (Obj props) "operator") "||").
  { rewrite mark_lookup by reflexivity.
    destruct (visitor_keys _); [|reflexivity].
    destruct (is_key _ _); [apply mark_child_is_str | reflexivity]. }
  rewrite Halt, Hcons, Hop. reflexivity.
Qed.

Lemma assign_prop_twice (k : string) (x : value) (props : list (string * value)) :
  assign_prop k x (assign_prop k x props) = assign_prop k x props.
Proof.
  induction props as [|[k0 v0] props IH]; simpl.
  - rewrite String.eqb_refl. reflexivity.
  - destruct (String.eqb k k0) eqn:E; simpl; rewrite E; [reflexivity|].
    f_equal. exact IH.
Qed.

Lemma mark_props_assign (rec : value -> value) (keys : list string) (k : string)
  (x : value) (props : list (string * value)) :
  is_key k keys = false ->
  mark_props rec keys (assign_prop k x props) =
    assign_prop k x (mark_props rec keys props).
Proof.
  intros Hk. induction props as [|[k0 v0] props IH].
  - cbn [assign_prop mark_props map]. rewrite Hk. reflexivity.
  - cbn [assign_prop]. destruct (String.eqb k k0) eqn:E.
    + apply String.eqb_eq in E. subst k0.
      cbn [mark_props map]. rewrite Hk. cbn [assign_prop].
      rewrite String.eqb_refl. reflexivity.
    + cbn [mark_props map]. fold (mark_props rec keys props).
      fold (mark_props rec keys (assign_prop k x props)).
      destruct (is_key k0 keys); cbn [assign_prop]; rewrite E; f_equal; exact IH.
Qed.

Lemma mark_props_twice (keys : list string) (props : list (string * value)) :
  Forall (fun kv => mark_child mark (mark_child mark (snd kv)) = mark_child mark (snd kv))
         props ->
  mark_props mark keys (mark_props mark keys props) = mark_props mark keys props.
Proof.
  induction 1 as [|[k v] props Hv _ IH]; [reflexivity|].
  cbn [mark_props map]. fold (mark_props mark keys props).
  destruct (is_key k keys) eqn:E; cbn [map]; rewrite E;
    fold (mark_props mark keys (mark_props mark keys props)); rewrite IH;
    [simpl in Hv; rewrite Hv|]; reflexivity.
Qed.

(** Marking is idempotent. *)
Lemma mark_twice_both (v : value) :
  mark (mark v) = mark v /\
  mark_child mark (mark_child mark v) = mark_child mark v.
Proof.
  induction v as [| |b|n|s|elems IH|props IH] using value_nested_ind;
    try (split; reflexivity).
  - split; [reflexivity|]. cbn [mark_child]. f_equal. rewrite map_map.
    induction IH as [|e elems [He _] _ IHl]; [reflexivity|].
    cbn [map]. f_equal; [|exact IHl].
    destruct (isNode e) eqn:E; [rewrite mark_isNode, E; exact He | rewrite E; reflexivity].
  - assert (Hfirst : mark (mark (Obj props)) = mark (Obj props)).
    { rewrite (mark_eq props). cbv zeta.
      set (Q := if is_context (lookup_prop "type" props) then _ else _).
      assert (Hty : lookup_prop "type" Q = lookup_prop "type" props).
      { pose proof (mark_type props) as H. rewrite mark_eq in H. exact H. }
      rewrite (mark_eq Q). cbv zeta. rewrite Hty. f_equal. subst Q.
      destruct (visitor_keys (lookup_prop "type" props)) as [keys|] eqn:Hk;
        destruct (is_context (lookup_prop "type" props)).
      - rewrite mark_props_assign by exact (visitor_keys_no_context _ _ Hk).
        rewrite mark_props_twice, assign_prop_twice; [reflexivity|].
        eapply Forall_impl; [exact IH|]. intros kv H. exact (proj2 H).
      - apply mark_props_twice.
        eapply Forall_impl; [exact IH|]. intros kv H. exact (proj2 H).
      - apply assign_prop_twice.
      - reflexivity. }
    split; [exact Hfirst|].
    cbn [mark_child]. destruct (isNode (Obj props)) eqn:E.
    + pose proof (mark_isNode (Obj props)) as Hn. rewrite E in Hn.
      destruct (mark_obj props) as [Q HQ]. rewrite HQ in *.
      cbn [mark_child]. rewrite Hn. exact Hfirst.
    + cbn [mark_child]. rewrite E. reflexivity.
Qed.

Lemma forallb_assign (f : string * value -> bool) (k : string) (x : value)
  (props : list (string * value)) :
  (forall y, f (k, y) = f (k, x)) ->
  f (k, x) = true -> forallb f props = true ->
  forallb f (assign_prop k x props) = true.
Proof.
  intros Hf Hx. induction props as [|[k0 v0] props IH]; cbn [assign_prop forallb].
  - intros _. rewrite Hx. reflexivity.
  - intros H. apply andb_true_iff in H as [H1 H2].
    destruct (String.eqb k k0) eqn:E; cbn [forallb].
    + apply String.eqb_eq in E. subst k0. rewrite Hx, H2. reflexivity.
    + rewrite H1. exact (IH H2).
Qed.

(** Marking keeps a tree well formed. *)
Lemma mark_well_formed_both (v : value) :
  (well_formed v = true -> well_formed (mark v) = true) /\
  (child_ok well_formed v = true -> child_ok well_formed (mark_child mark v) = true).
Proof.
  induction v as [| |b|n|s|elems IH|props IH] using value_nested_ind;
    try (split; intros H; exact H).
  - split; [intros H; exact H|]. cbn [mark_child child_ok].
    induction IH as [|e elems [He _] _ IHl]; [reflexivity|].
    cbn [map forallb]. intros H. apply andb_true_iff in H as [H1 H2].
    rewrite (IHl H2), andb_true_r.
    destruct (isNode e) eqn:E; [|rewrite E; reflexivity].
    rewrite mark_isNode, E in *. exact (He H1).
  - assert (Hfirst : well_formed (Obj props) = true -> well_formed (mark (Obj props)) = true).
    { intros Hwf. cbn [well_formed] in Hwf.
      destruct (visitor_keys (lookup_prop "type" props)) as [keys|] eqn:Hk; [|discriminate].
      apply andb_true_iff in Hwf as [Hwf H3]. apply andb_true_iff in Hwf as [H1 H2].
      pose proof (mark_type props) as Hty.
      pose proof (mark_lookup props "consequent" eq_refl) as Hcons.
      rewrite Hk in Hcons.
      rewrite mark_eq in *. cbv zeta in *. rewrite Hk in *.
      unfold field in Hty, Hcons. cbn [get] in Hty, Hcons.
      cbn [well_formed]. rewrite Hty, Hk, Hcons.
      assert (H3' : forallb (fun '(k, v) => negb (is_key k keys) || child_ok well_formed v)
                      (mark_props mark keys props) = true).
      { clear -IH H3. induction IH as [|[k v] props [_ Hv] _ IHl]; [reflexivity|].
        cbn [forallb mark_props map] in *. fold (mark_props mark keys props).
        apply andb_true_iff in H3 as [Ha Hb].
        destruct (is_key k keys) eqn:E; rewrite E; cbn [negb orb] in *;
          rewrite (IHl Hb), andb_true_r; [exact (Hv Ha) | reflexivity]. }
      apply andb_true_iff. split; [apply andb_true_iff; split|].
      - destruct (is_context (lookup_prop "type" props)) eqn:Hc; [reflexivity|].
        cbn [orb] in *.
        rewrite mark_props_lookup by exact (visitor_keys_no_context _ _ Hk). exact H1.
      - destruct (is_key "consequent" keys);
          rewrite ?mark_child_presentb; exact H2.
      - destruct (is_context (lookup_prop "type" props)); [|exact H3'].
        apply forallb_assign; [| |exact H3'].
        + intros y. rewrite (visitor_keys_no_context _ _ Hk). reflexivity.
        + rewrite (visitor_keys_no_context _ _ Hk). reflexivity. }
    split; [exact Hfirst|].
    cbn [mark_child child_ok]. destruct (isNode (Obj props)) eqn:E;
      [|cbn [child_ok]; rewrite E; intros H; exact H].
    cbn [negb orb]. intros Hwf. apply Hfirst in Hwf.
    pose proof (mark_isNode (Obj props)) as Hn. rewrite E in Hn.
    destruct (mark_obj props) as [Q HQ]. rewrite HQ in *.
    cbn [child_ok]. rewrite Hn. exact Hwf.
Qed.

Lemma tree_sum_eq (f : value -> Z) (v : value) :
  tree_sum f v =
    f v + match v with
          | Obj props =>
              match visitor_keys (lookup_prop "type" props) with
              | Ok keys => tree_sum_props (tree_sum f) keys props
              | Throw _ => 0
              end
          | _ => 0
          end.
Proof. destruct v; reflexivity. Qed.

Lemma tree_sum_props_assign (rec : value -> Z) (keys : list string) (k : string)
  (x : value) (props : list (string * value)) :
  is_key k keys = false ->
  tree_sum_props rec keys (assign_prop k x props) = tree_sum_props rec keys props.
Proof.
  intros Hk. unfold tree_sum_props.
  induction props as [|[k0 v0] props IH]; cbn [assign_prop map sum foldr].
  - rewrite Hk. reflexivity.
  - destruct (String.eqb k k0) eqn:E; cbn [map sum foldr].
    + apply String.eqb_eq in E. subst k0. rewrite Hk. reflexivity.
    + unfold sum in IH. rewrite IH. reflexivity.
Qed.

(** A sum over the nodes does not see the marks, when its summand does
    not. *)
Lemma tree_sum_mark_both (f : value -> Z) (v : value) :
  (forall x, f (mark x) = f x) ->
  tree_sum f (mark v) = tree_sum f v /\
  tree_sum_child (tree_sum f) (mark_child mark v) = tree_sum_child (tree_sum f) v.
Proof.
  intros Hf.
  induction v as [| |b|n|s|elems IH|props IH] using value_nested_ind;
    try (split; reflexivity).
  - split; [reflexivity|]. cbn [mark_child tree_sum_child]. f_equal.
    induction IH as [|e elems [He _] _ IHl]; [reflexivity|].
    cbn [map]. f_equal; [|exact IHl].
    destruct (isNode e) eqn:E; [rewrite mark_isNode, E; exact He | rewrite E; reflexivity].
  - assert (Hfirst : tree_sum f (mark (Obj props)) = tree_sum f (Obj props)).
    { rewrite (tree_sum_eq f (mark (Obj props))), Hf.
      rewrite (tree_sum_eq f (Obj props)). f_equal.
      pose proof (mark_type props) as Hty.
      rewrite mark_eq in *. cbv zeta in *. unfold field in Hty. cbn [get] in Hty.
      rewrite Hty.
      destruct (visitor_keys (lookup_prop "type" props)) as [keys|] eqn:Hk; [|reflexivity].
      assert (H3 : tree_sum_props (tree_sum f) keys (mark_props mark keys props) =
                   tree_sum_props (tree_sum f) keys props).
      { clear -IH. unfold tree_sum_props. f_equal.
        induction IH as [|[k v] props [_ Hv] _ IHl]; [reflexivity|].
        cbn [mark_props map] in *. fold (mark_props mark keys props).
        destruct (is_key k keys) eqn:E; rewrite E; f_equal;
          try exact IHl; try reflexivity. exact Hv. }
      destruct (is_context (lookup_prop "type" props)); [|exact H3].
      rewrite tree_sum_props_assign by exact (visitor_keys_no_context _ _ Hk).
      exact H3. }
    split; [exact Hfirst|].
    cbn [mark_child tree_sum_child]. destruct (isNode (Obj props)) eqn:E;
      [|cbn [tree_sum_child]; rewrite E; reflexivity].
    pose proof (mark_isNode (Obj props)) as Hn. rewrite E in Hn.
    destruct (mark_obj props) as [Q HQ]. rewrite HQ in *.
    cbn [tree_sum_child]. rewrite Hn. exact Hfirst.
Qed.
End rerun.

Lemma analyze_leaves_marked_tree (src : Analyzer.SourceFile) (a a' : Analyzer.t) :
  Analyzer.analyze src a = Ok a' ->
  exists f, Analyzer.source a' = Some f /\ Analyzer.ast f = mark (Analyzer.ast src).
Proof.
  intros Ha. unfold Analyzer.analyze in Ha.
  apply bind_Ok in Ha as ([tree a2] & Ht & Ha). injection Ha as <-. simpl.
  pose proof (traverse_marks _ _ _ _ Ht) as ->.
  destruct (traverse_source _ _ _ _ Ht) as [f Hf]; [simpl; eauto|].
  rewrite Hf. simpl. eexists. split; reflexivity.
Qed.

(** X17.  A run can be repeated on the tree it has marked: the marks
    left by a run on a well-formed program do not disturb a second run on
    the file.  The second run returns, leaves the tree as the first run
    left it, and gives the record of the program the same [score()]. *)
Theorem second_run_same_score (src f : Analyzer.SourceFile) (a a' b : Analyzer.t) :
  well_formed (Analyzer.ast src) = true ->
  is_str (field (Analyzer.ast src) "type") syntax.Program = true ->
  depth_ok (Analyzer.records a) -> wf_store (Analyzer.records a) ->
  depth_ok (Analyzer.records b) -> wf_store (Analyzer.records b) ->
  Analyzer.analyze src a = Ok a' ->
  Analyzer.source a' = Some f ->
  exists b' f',
    Analyzer.analyze f b = Ok b' /\
    Analyzer.source b' = Some f' /\
    Analyzer.ast f' = Analyzer.ast f /\
    Context.score (Analyzer.records b') (length (Analyzer.records b)) =
      Context.score (Analyzer.records a') (length (Analyzer.records a)).
Proof.
  intros Hwf Hprog Hda Hwa Hdb Hwb Ha Hf.
  destruct (analyze_leaves_marked_tree _ _ _ Ha) as (f0 & Hf0 & Hast).
  rewrite Hf in Hf0. injection Hf0 as <-.
  assert (Hwf' : well_formed (Analyzer.ast f) = true).
  { rewrite Hast. apply (proj1 (mark_well_formed_both _)). exact Hwf. }
  assert (Hprog' : is_str (field (Analyzer.ast f) "type") syntax.Program = true).
  { rewrite Hast. destruct (Analyzer.ast src); try discriminate Hprog.
    rewrite mark_type. exact Hprog. }
  destruct (analyze_total f b Hwf' Hprog') as (b' & Hb & _).
  destruct (analyze_leaves_marked_tree _ _ _ Hb) as (f' & Hf' & Hast').
  exists b', f'. split; [exact Hb|]. split; [exact Hf'|]. split.
  - rewrite Hast', Hast. apply (proj1 (mark_twice_both _)).
  - destruct (program_range f b b' Hwf' Hprog' Hb) as [Hcb Hsb].
    destruct (program_range src a a' Hwf Hprog Ha) as [Hca Hsa].
    rewrite (proj1 (closed_tiles_score _ (analyze_wf_store f b b' Hdb Hwb Hb)) _ _ Hcb).
    rewrite (proj1 (closed_tiles_score _ (analyze_wf_store src a a' Hda Hwa Ha)) _ _ Hca).
    rewrite Hsb, Hsa. f_equal. rewrite Hast.
    apply (proj1 (tree_sum_mark_both node_weight (Analyzer.ast src) node_weight_mark)).
Qed.

Lemma second_run_same_score_witness :
  exists a' f b' f',
    Examples.run Examples.foo_tree = Ok a' /\
    Analyzer.source a' = Some f /\
    Analyzer.analyze f (Analyzer.new []) = Ok b' /\
    Analyzer.source b' = Some f' /\
    Analyzer.ast f' = Analyzer.ast f /\
    Context.score (Analyzer.records b') 0 = Context.score (Analyzer.records a') 0.
Proof.
  assert (H : exists a', Examples.run Examples.foo_tree = Ok a')
    by (eexists; vm_compute; reflexivity).
  destruct H as [a' Ha].
  assert (Hs : exists f, Analyzer.source a' = Some f).
  { vm_compute in Ha. injection Ha as <-. eexists. reflexivity. }
  destruct Hs as [f Hf].
  destruct (second_run_same_score (Analyzer.mkSourceFile Examples.foo_tree []) f
              (Analyzer.new []) a' (Analyzer.new [])) as (b' & f' & H1 & H2 & H3 & H4).
  - vm_compute. reflexivity.
  - vm_compute. reflexivity.
  - intros p cp q Hp. destruct p; discriminate Hp.
  - intros r c Hc. destruct r; discriminate Hc.
  - intros p cp q Hp. destruct p; discriminate Hp.
  - intros r c Hc. destruct r; discriminate Hc.
  - exact Ha.
  - exact Hf.
  - exists a', f, b', f'. repeat split; assumption.
Defined.

(** ** The assignment rule and the words of the specification *)

Lemma resolved_segment (p : value) : resolved p -> segment p = spec_segment p.
Proof.
  unfold segment, spec_segment, or_else.
  intros [[Hn _] | [(Hn & Hv & _) | [Hn Hv]]].
  - rewrite Hn. destruct (field p "name"); try discriminate Hn; reflexivity.
  - rewrite Hn, Hv. cbn [truthy presentb].
    destruct (field p "value"); try discriminate Hv; reflexivity.
  - rewrite Hn, Hv. reflexivity.
Qed.

Lemma resolved_path (o : value) (ps : list value) :
  Forall resolved ps -> dotted_path o ps = spec_dotted_path o ps.
Proof.
  intros H. unfold dotted_path, spec_dotted_path. do 2 f_equal.
  induction H as [|p ps Hp _ IH]; [reflexivity|].
  cbn [map]. rewrite (resolved_segment p Hp), IH. reflexivity.
Qed.

(** X18.  The assignment rule follows the words of the specification
    wherever no literal value is falsy.  For a function with no declared
    name whose parent node is an assignment expression, [signature()] is
    the name of the target when the target has a truthy name; and when
    the target is a member-access chain from a named object, whose
    properties are identifiers, literals with a truthy value (a string, a
    boolean, an integer a double holds exactly) or computed expressions
    with neither name nor value, it is the path of the specification: the
    name of the leftmost object, then for each property its name, or its
    literal value, or ['?'], joined with ['.']. *)
Theorem assignment_follows_specification (node parent target : value) :
  (get node "type" = Ok (Str syntax.FunctionExpression) \/
   get node "type" = Ok (Str syntax.FunctionDeclaration)) ->
  Context.named node = Ok Undefined ->
  get parent "type" = Ok (Str syntax.AssignmentExpression) ->
  get parent "left" = Ok target ->
  (forall name, get target "name" = Ok name -> truthy name = true ->
     Context.signature node parent = Ok name) /\
  (forall o a ps,
     truthy (field target "name") = false ->
     member_chain target o ps ->
     field o "name" = Str a ->
     Forall resolved ps ->
     Context.signature node parent = Ok (Str (spec_dotted_path o ps))).
Proof.
  intros Hfn Hnamed Hty Hl.
  assert (Hmain : Context.main node = Ok Undefined).
  { unfold Context.main. destruct Hfn as [-> | ->]; reflexivity. }
  assert (Hvar : Context.vardec parent = Ok Undefined).
  { unfold Context.vardec. rewrite Hty. reflexivity. }
  unfold Context.signature. rewrite Hmain, Hnamed, Hvar. cbn.
  split.
  - intros name Hn Ht. unfold Context.assignment. rewrite Hty. cbn. rewrite Hl. cbn.
    rewrite Hn. cbn. rewrite Ht. cbn. rewrite Ht. reflexivity.
  - intros o a ps Hf Hch _ Hres.
    rewrite (assignment_chain parent target o ps Hty Hl Hf Hch). cbn [bind].
    destruct (member_chain_nonempty _ _ _ Hch) as (p & ps' & ->).
    assert (Ht : truthy (Str (dotted_path o (p :: ps'))) = true)
      by (unfold dotted_path, join; cbn [map]; apply concat_with_truthy).
    rewrite Ht, (resolved_path o _ Hres). reflexivity.
Qed.

Lemma assignment_follows_specification_witness :
  Context.signature (esprima.FunctionExpression Null []) Examples.abc_assignment
  = Ok (Str "a.b.c").
Proof.
  refine (proj2 (assignment_follows_specification
            (esprima.FunctionExpression Null []) Examples.abc_assignment
            Examples.abc_target (or_introl eq_refl) eq_refl eq_refl eq_refl)
            (esprima.Identifier "a") "a"
            [esprima.Identifier "b"; esprima.Identifier "c"] eq_refl _ eq_refl _).
  - apply (chain_dot _ (esprima.MemberExpression false (esprima.Identifier "a")
                          (esprima.Identifier "b"))
             _ (esprima.Identifier "c") [esprima.Identifier "b"]);
      try reflexivity; [|split; discriminate].
    apply (chain_last _ _ _ (Str "Identifier")); try reflexivity. split; discriminate.
  - repeat constructor.
Defined.
